(** * errfix: the rewrite rules of [pkgErrorsDstProcessor], the import
    reconciliation of [EndProcess], the traversal controller [Process],
    the reader and the pipeline orchestrator, embedded from the Go sources
    (errfix.go, dst.go). *)

From Stdlib Require Import String Ascii Bool Arith Lia DecimalString.
From stdpp Require Import base list.

Set Warnings "-register-all".

Local Open Scope string_scope.
Local Open Scope bool_scope.

(** ** External packages the sources call *)

(** go/token: the token kinds the sources compare against, and a few
    neighbours so that "some other operator" is expressible. *)
Module token.
Inductive Token :=
| EQL | NEQ | LAND | LOR | LSS | GTR | ADD | SUB | NOT | ASSIGN | DEFINE
| INT | FLOAT | CHAR | STRING
| IMPORT | CONST | TYPE | VAR.

Definition eqb (a b : Token) : bool :=
  match a, b with
  | EQL, EQL | NEQ, NEQ | LAND, LAND | LOR, LOR | LSS, LSS | GTR, GTR
  | ADD, ADD | SUB, SUB | NOT, NOT | ASSIGN, ASSIGN | DEFINE, DEFINE
  | INT, INT | FLOAT, FLOAT | CHAR, CHAR | STRING, STRING
  | IMPORT, IMPORT | CONST, CONST | TYPE, TYPE | VAR, VAR => true
  | _, _ => false
  end.
End token.

(** strconv: [Unquote] and [Quote] are standard-library functions whose
    code is not part of the repository; they are taken as an interface.
    [fmt.Sprintf("%q", s)] on a string is [Quote s]. *)
Module strconv.
Class Strconv := {
  Unquote : string -> option string;   (* None: a non-nil error *)
  Quote : string -> string
}.
End strconv.

(** strings: [HasSuffix] and [TrimRight] on byte strings.  The cutset used
    by the sources is ASCII, for which Go trims byte by byte. *)
Module strings.
Definition HasSuffix (s suffix : string) : bool :=
  Nat.leb (String.length suffix) (String.length s) &&
  String.eqb
    (substring (String.length s - String.length suffix)
               (String.length suffix) s)
    suffix.

Fixpoint contains (cutset : string) (c : ascii) : bool :=
  match cutset with
  | EmptyString => false
  | String d r => Ascii.eqb c d || contains r c
  end.

Fixpoint TrimRight (s cutset : string) : string :=
  match s with
  | EmptyString => EmptyString
  | String c r =>
      match TrimRight r cutset with
      | EmptyString => if contains cutset c then EmptyString
                       else String c EmptyString
      | r' => String c r'
      end
  end.
End strings.

(** ** The syntax tree (github.com/dave/dst)

    The node kinds the rules inspect are modelled one by one; every other
    kind of expression, statement, specification or auxiliary node is an
    [Other...] node that only records its kind and its children in the
    order [dst.Walk] visits them.  [decorator.ParseFile] is used without a
    resolver, so [Ident.Path] is always empty and [Ident.String()] is the
    identifier's [Name]. *)
Module dst.
Inductive ObjKind := Bad | Pkg | Con | Typ | Var | Fun | Lbl.

Record Object := NewObj { ObjectKind : ObjKind; ObjectName : string }.

Record Ident := MkIdent { Name : string; Obj : option Object }.

Record BasicLit := MkBasicLit { Kind : token.Token; Value : string }.

Definition NewIdent (name : string) : Ident :=
  {| Name := name; Obj := None |}.

Inductive Expr :=
| Id (id : Ident)
| Lit (lit : BasicLit)
| BinaryExpr (X : Expr) (Op : token.Token) (Y : Expr)
| CallExpr (Fun : Expr) (Args : list Expr) (Ellipsis : bool)
| SelectorExpr (X : Expr) (Sel : Ident)
| TypeAssertExpr (X : Expr) (Type_ : option Expr)
| ParenExpr (X : Expr)
| UnaryExpr (Op : token.Token) (X : Expr)
| FuncLit (Type_ : Expr) (Body : list Stmt)
| OtherExpr (kind : string) (children : list Node)
with Stmt :=
| ReturnStmt (Results : list Expr)
| IfStmt (Init : option Stmt) (Cond : Expr) (Body : list Stmt)
         (Else : option Stmt)
| BlockStmt (List : list Stmt)
| ExprStmt (X : Expr)
| AssignStmt (Lhs : list Expr) (Tok : token.Token) (Rhs : list Expr)
| DeclStmt (Decl_ : Decl)
| OtherStmt (kind : string) (children : list Node)
with Spec :=
| ImportSpec (Name : option Ident) (Path : BasicLit)
| ValueSpec (Names : list Ident) (Type_ : option Expr)
            (Values : list Expr)
| OtherSpec (kind : string) (children : list Node)
with Decl :=
| GenDecl (Tok : token.Token) (Specs : list Spec) (Lparen Rparen : bool)
| FuncDecl (Recv : option Node) (Name : Ident) (Type_ : Expr)
           (Body : option (list Stmt))
| BadDecl
with Node :=
| NExpr (e : Expr)
| NStmt (s : Stmt)
| NSpec (s : Spec)
| NDecl (d : Decl)
| NOther (kind : string) (children : list Node).

Record File := MkFile { FileName : Ident; Decls : list Decl }.
End dst.

(** ** dst.go: predicates on nodes *)

(** isName returns true when the name of the identifier n is the same as
    the name entered. *)
Definition isName (n : dst.Expr) (name : string) : bool :=
  match n with
  | dst.Id id => String.eqb (dst.Name id) name
  | _ => false
  end.

(** isTopName returns true when identifier n is a top-level identifier. *)
Definition isTopName (n : dst.Expr) (name : string) : bool :=
  match n with
  | dst.Id id =>
      String.eqb (dst.Name id) name &&
      match dst.Obj id with None => true | Some _ => false end
  | _ => false
  end.

(** isPkgSelector returns true when the input node matches the rule
    "pkg.name". *)
Definition isPkgSelector (t : dst.Expr) (pkg name : string) : bool :=
  match t with
  | dst.SelectorExpr X Sel => isTopName X pkg && String.eqb (dst.Name Sel) name
  | _ => false
  end.

(** ** errfix.go: the rule object *)

Record pkgErrorsDstProcessor := {
  pkgPath : string;
  errorsIdent : string;
  withStackIdent : string;
  causeIdent : string;
  newIdent : string;
  errorfIdent : string;
  wrapfIdent : string;
  errIdent : string;
  nilIdent : string;
  changed : bool
}.

Definition newPkgErrorsDstProcessor : pkgErrorsDstProcessor := {|
  pkgPath := "github.com/pkg/errors";
  errorsIdent := "errors";
  withStackIdent := "WithStack";
  causeIdent := "Cause";
  newIdent := "New";
  errorfIdent := "Errorf";
  wrapfIdent := "Wrapf";
  errIdent := "err";
  nilIdent := "nil";
  changed := false
|}.

(** The assignment [p.changed = b]. *)
Definition setChanged (p : pkgErrorsDstProcessor) (b : bool)
  : pkgErrorsDstProcessor := {|
  pkgPath := pkgPath p;
  errorsIdent := errorsIdent p;
  withStackIdent := withStackIdent p;
  causeIdent := causeIdent p;
  newIdent := newIdent p;
  errorfIdent := errorfIdent p;
  wrapfIdent := wrapfIdent p;
  errIdent := errIdent p;
  nilIdent := nilIdent p;
  changed := b
|}.

(** [pkg.sel(args...)] built from fresh identifiers, the shape all three
    replacement calls share. *)
Definition pkgCall (pkg sel : string) (args : list dst.Expr) : dst.Expr :=
  dst.CallExpr (dst.SelectorExpr (dst.Id (dst.NewIdent pkg)) (dst.NewIdent sel))
               args false.

Definition withStackExpr (p : pkgErrorsDstProcessor) : dst.Expr :=
  pkgCall (errorsIdent p) (withStackIdent p)
          [dst.Id (dst.NewIdent (errIdent p))].

Definition causeExpr (p : pkgErrorsDstProcessor) : dst.Expr :=
  pkgCall (errorsIdent p) (causeIdent p)
          [dst.Id (dst.NewIdent (errIdent p))].

(** fixReturnStmt: [return [..., ]err -> return [..., ]errors.WithStack(err)].
    The argument is [n.Results]; the result is the field after the call and
    the value returned. *)
Definition fixReturnStmt (p : pkgErrorsDstProcessor)
    (Results : list dst.Expr) : list dst.Expr * bool :=
  if Nat.eqb (length Results) 0 then (Results, false)
  else
    let i := length Results - 1 in
    match Results !! i with
    | Some lastResult =>
        if negb (isName lastResult (errIdent p)) then (Results, false)
        else (<[i := withStackExpr p]> Results, true)
    | None => (Results, false)
    end.

(** The closure [compareErr] of fixIfStmt, applied to the fields of a
    binary expression. *)
Definition compareErr (p : pkgErrorsDstProcessor)
    (X : dst.Expr) (Op : token.Token) (Y : dst.Expr) (yIsNil : bool) : bool :=
  let ok := isName X (errIdent p) &&
            (token.eqb Op token.EQL || token.eqb Op token.NEQ) in
  if negb ok then false
  else (yIsNil && isName Y (nilIdent p)) ||
       (negb yIsNil && negb (isName Y (nilIdent p))).

(** fixIfStmt on [n.Cond]; no other field of the statement is read or
    written. *)
Definition fixIfStmt (p : pkgErrorsDstProcessor) (Cond : dst.Expr)
  : dst.Expr * bool :=
  match Cond with
  | dst.BinaryExpr X Op Y =>
      if compareErr p X Op Y false then
        (dst.BinaryExpr (causeExpr p) Op Y, true)
      else
        match X, Y with
        | dst.BinaryExpr XX XOp XY, dst.BinaryExpr YX YOp YY =>
            if (token.eqb Op token.LAND || token.eqb Op token.LOR) &&
               compareErr p XX XOp XY true &&
               compareErr p YX YOp YY false
            then (dst.BinaryExpr X Op (dst.BinaryExpr (causeExpr p) YOp YY),
                  true)
            else (Cond, false)
        | _, _ => (Cond, false)
        end
  | _ => (Cond, false)
  end.

(** fixTypeAssertExpr on [n.X]. *)
Definition fixTypeAssertExpr (p : pkgErrorsDstProcessor) (X : dst.Expr)
  : dst.Expr * bool :=
  if negb (isName X (errIdent p)) then (X, false)
  else (causeExpr p, true).

(** [n.Args[1:len(n.Args)-1]]. *)
Definition middleArgs (Args : list dst.Expr) : list dst.Expr :=
  take (length Args - 1 - 1) (drop 1 Args).

(** fixCallExpr on [n.Fun] and [n.Args]. *)
Definition fixCallExpr `{strconv.Strconv} (p : pkgErrorsDstProcessor)
    (Fun : dst.Expr) (Args : list dst.Expr)
  : (dst.Expr * list dst.Expr) * bool :=
  if isPkgSelector Fun (errorsIdent p) (newIdent p) then ((Fun, Args), true)
  else if isPkgSelector Fun "fmt" "Errorf" then
    match Args !! 0 with
    | None => ((Fun, Args), false)
    | Some (dst.Lit lit) =>
        if negb (token.eqb (dst.Kind lit) token.STRING) then
          ((Fun, Args), false)
        else
          match strconv.Unquote (dst.Value lit) with
          | None => ((Fun, Args), false)
          | Some format =>
              match Args !! (length Args - 1) with
              | Some lastArg =>
                  if Nat.leb 2 (length Args) && isName lastArg (errIdent p) &&
                     strings.HasSuffix format "%v"
                  then
                    let newFormat :=
                      strings.TrimRight
                        (substring 0 (String.length format - String.length "%v")
                                   format)
                        " :," in
                    let newArgs :=
                      ([lastArg;
                        dst.Lit {| dst.Kind := token.STRING;
                                   dst.Value := strconv.Quote newFormat |}]
                       ++ middleArgs Args)%list in
                    ((dst.SelectorExpr (dst.Id (dst.NewIdent (errorsIdent p)))
                                       (dst.NewIdent (wrapfIdent p)),
                      newArgs), true)
                  else
                    ((dst.SelectorExpr (dst.Id (dst.NewIdent (errorsIdent p)))
                                       (dst.NewIdent (errorfIdent p)),
                      Args), true)
              | None => ((Fun, Args), false)
              end
          end
    | Some _ => ((Fun, Args), false)
    end
  else ((Fun, Args), false).

(** ** errfix.go: the per-node visit

    [Process] switches on the dynamic type of the node, so it is given per
    syntactic category; [Process] on a [dst.Node] dispatches to these.  The
    rules assign fields of the node they are given, so the node returned
    has the kind of the node received.  The error returned is always nil
    and is left out. *)
Definition recordChanged (p : pkgErrorsDstProcessor) (c : bool)
  : pkgErrorsDstProcessor :=
  setChanged p (changed p || c).

Section Rules.
Context `{strconv.Strconv}.

Definition ProcessExpr (p : pkgErrorsDstProcessor) (n : dst.Expr)
  : pkgErrorsDstProcessor * dst.Expr :=
  match n with
  | dst.TypeAssertExpr X T =>
      let '(X', c) := fixTypeAssertExpr p X in
      (recordChanged p c, dst.TypeAssertExpr X' T)
  | dst.CallExpr F A el =>
      let '((F', A'), c) := fixCallExpr p F A in
      (recordChanged p c, dst.CallExpr F' A' el)
  | _ => (recordChanged p false, n)
  end.

Definition ProcessStmt (p : pkgErrorsDstProcessor) (n : dst.Stmt)
  : pkgErrorsDstProcessor * dst.Stmt :=
  match n with
  | dst.ReturnStmt Results =>
      let '(Results', c) := fixReturnStmt p Results in
      (recordChanged p c, dst.ReturnStmt Results')
  | dst.IfStmt Init Cond Body Else =>
      let '(Cond', c) := fixIfStmt p Cond in
      (recordChanged p c, dst.IfStmt Init Cond' Body Else)
  | _ => (recordChanged p false, n)
  end.

Definition Process (p : pkgErrorsDstProcessor) (n : dst.Node)
  : pkgErrorsDstProcessor * dst.Node :=
  match n with
  | dst.NExpr e => let '(p', e') := ProcessExpr p e in (p', dst.NExpr e')
  | dst.NStmt s => let '(p', s') := ProcessStmt p s in (p', dst.NStmt s')
  | _ => (recordChanged p false, n)
  end.

(** ** dst.Inspect driven by [Process]

    [Inspect] calls the visitor on a node and then walks the children the
    node has after that call, so the nodes a rule has just created are
    visited as well.  (After the children it calls the visitor once more,
    on nil, where [Process] matches no case and records nothing.)  The
    recursion is therefore not structural in the input tree; [k] bounds
    the nesting of [Walk] calls and [None] means the bound was reached
    (unwrapping a [dst.Node] child of an [Other...] node is counted as one
    level).  The callback's answer is [err == nil], which is always
    true. *)
Definition State := pkgErrorsDstProcessor.

Fixpoint walkList {A : Type} (w : State -> A -> option (State * A))
    (p : State) (l : list A) : option (State * list A) :=
  match l with
  | [] => Some (p, [])
  | x :: r =>
      '(p1, x') ← w p x;
      '(p2, r') ← walkList w p1 r;
      Some (p2, x' :: r')
  end.

Definition walkOpt {A : Type} (w : State -> A -> option (State * A))
    (p : State) (o : option A) : option (State * option A) :=
  match o with
  | None => Some (p, None)
  | Some x => '(p1, x') ← w p x; Some (p1, Some x')
  end.

Fixpoint walkExpr (k : nat) (p : State) (n : dst.Expr) {struct k}
  : option (State * dst.Expr) :=
  match k with
  | 0 => None
  | S k =>
      let '(p, n) := ProcessExpr p n in
      match n with
      | dst.Id _ | dst.Lit _ => Some (p, n)
      | dst.BinaryExpr X Op Y =>
          '(p, X) ← walkExpr k p X;
          '(p, Y) ← walkExpr k p Y;
          Some (p, dst.BinaryExpr X Op Y)
      | dst.CallExpr F A el =>
          '(p, F) ← walkExpr k p F;
          '(p, A) ← walkList (walkExpr k) p A;
          Some (p, dst.CallExpr F A el)
      | dst.SelectorExpr X Sel =>
          '(p, X) ← walkExpr k p X;
          '(p, _) ← walkExpr k p (dst.Id Sel);
          Some (p, dst.SelectorExpr X Sel)
      | dst.TypeAssertExpr X T =>
          '(p, X) ← walkExpr k p X;
          '(p, T) ← walkOpt (walkExpr k) p T;
          Some (p, dst.TypeAssertExpr X T)
      | dst.ParenExpr X =>
          '(p, X) ← walkExpr k p X; Some (p, dst.ParenExpr X)
      | dst.UnaryExpr Op X =>
          '(p, X) ← walkExpr k p X; Some (p, dst.UnaryExpr Op X)
      | dst.FuncLit T Body =>
          '(p, T) ← walkExpr k p T;
          '(p, Body) ← walkBody k p Body;
          Some (p, dst.FuncLit T Body)
      | dst.OtherExpr kind ch =>
          '(p, ch) ← walkList (walkNode k) p ch;
          Some (p, dst.OtherExpr kind ch)
      end
  end
with walkStmt (k : nat) (p : State) (n : dst.Stmt) {struct k}
  : option (State * dst.Stmt) :=
  match k with
  | 0 => None
  | S k =>
      let '(p, n) := ProcessStmt p n in
      match n with
      | dst.ReturnStmt Results =>
          '(p, Results) ← walkList (walkExpr k) p Results;
          Some (p, dst.ReturnStmt Results)
      | dst.IfStmt Init Cond Body Else =>
          '(p, Init) ← walkOpt (walkStmt k) p Init;
          '(p, Cond) ← walkExpr k p Cond;
          '(p, Body) ← walkBody k p Body;
          '(p, Else) ← walkOpt (walkStmt k) p Else;
          Some (p, dst.IfStmt Init Cond Body Else)
      | dst.BlockStmt List =>
          '(p, List) ← walkList (walkStmt k) p List;
          Some (p, dst.BlockStmt List)
      | dst.ExprStmt X =>
          '(p, X) ← walkExpr k p X; Some (p, dst.ExprStmt X)
      | dst.AssignStmt Lhs Tok Rhs =>
          '(p, Lhs) ← walkList (walkExpr k) p Lhs;
          '(p, Rhs) ← walkList (walkExpr k) p Rhs;
          Some (p, dst.AssignStmt Lhs Tok Rhs)
      | dst.DeclStmt d =>
          '(p, d) ← walkDecl k p d; Some (p, dst.DeclStmt d)
      | dst.OtherStmt kind ch =>
          '(p, ch) ← walkList (walkNode k) p ch;
          Some (p, dst.OtherStmt kind ch)
      end
  end
(** A [*dst.BlockStmt] field: the block node is visited, then its list. *)
with walkBody (k : nat) (p : State) (Body : list dst.Stmt) {struct k}
  : option (State * list dst.Stmt) :=
  match k with
  | 0 => None
  | S k =>
      let '(p, _) := ProcessStmt p (dst.BlockStmt Body) in
      walkList (walkStmt k) p Body
  end
with walkSpec (k : nat) (p : State) (n : dst.Spec) {struct k}
  : option (State * dst.Spec) :=
  match k with
  | 0 => None
  | S k =>
      let '(p, _) := Process p (dst.NSpec n) in
      match n with
      | dst.ImportSpec Name Path =>
          '(p, _) ← walkOpt (walkExpr k) p (dst.Id <$> Name);
          '(p, _) ← walkExpr k p (dst.Lit Path);
          Some (p, dst.ImportSpec Name Path)
      | dst.ValueSpec Names T Values =>
          '(p, _) ← walkList (walkExpr k) p (dst.Id <$> Names);
          '(p, T) ← walkOpt (walkExpr k) p T;
          '(p, Values) ← walkList (walkExpr k) p Values;
          Some (p, dst.ValueSpec Names T Values)
      | dst.OtherSpec kind ch =>
          '(p, ch) ← walkList (walkNode k) p ch;
          Some (p, dst.OtherSpec kind ch)
      end
  end
with walkDecl (k : nat) (p : State) (n : dst.Decl) {struct k}
  : option (State * dst.Decl) :=
  match k with
  | 0 => None
  | S k =>
      let '(p, _) := Process p (dst.NDecl n) in
      match n with
      | dst.GenDecl Tok Specs lp rp =>
          '(p, Specs) ← walkList (walkSpec k) p Specs;
          Some (p, dst.GenDecl Tok Specs lp rp)
      | dst.FuncDecl Recv Name T Body =>
          '(p, Recv) ← walkOpt (walkNode k) p Recv;
          '(p, _) ← walkExpr k p (dst.Id Name);
          '(p, T) ← walkExpr k p T;
          '(p, Body) ← walkOpt (walkBody k) p Body;
          Some (p, dst.FuncDecl Recv Name T Body)
      | dst.BadDecl => Some (p, dst.BadDecl)
      end
  end
with walkNode (k : nat) (p : State) (n : dst.Node) {struct k}
  : option (State * dst.Node) :=
  match k with
  | 0 => None
  | S k =>
      match n with
      | dst.NExpr e => '(p, e) ← walkExpr k p e; Some (p, dst.NExpr e)
      | dst.NStmt s => '(p, s) ← walkStmt k p s; Some (p, dst.NStmt s)
      | dst.NSpec s => '(p, s) ← walkSpec k p s; Some (p, dst.NSpec s)
      | dst.NDecl d => '(p, d) ← walkDecl k p d; Some (p, dst.NDecl d)
      | dst.NOther kind ch =>
          let '(p, _) := Process p n in
          '(p, ch) ← walkList (walkNode k) p ch;
          Some (p, dst.NOther kind ch)
      end
  end.
End Rules.

(** A bound on the nesting of [Walk] calls for a tree: its height, with an
    identifier counted as three levels because a rule may put a call
    [pkg.sel(err)] in its place. *)
Definition maxList {A : Type} (f : A -> nat) (l : list A) : nat :=
  foldr (fun x m => Nat.max (f x) m) 0 l.

Definition maxOpt {A : Type} (f : A -> nat) (o : option A) : nat :=
  match o with Some x => f x | None => 0 end.

Fixpoint depthExpr (n : dst.Expr) : nat :=
  match n with
  | dst.Id _ => 3
  | dst.Lit _ => 1
  | dst.BinaryExpr X _ Y => S (Nat.max (depthExpr X) (depthExpr Y))
  | dst.CallExpr F A _ => S (Nat.max (depthExpr F) (maxList depthExpr A))
  | dst.SelectorExpr X _ => S (Nat.max (depthExpr X) 3)
  | dst.TypeAssertExpr X T => S (Nat.max (depthExpr X) (maxOpt depthExpr T))
  | dst.ParenExpr X => S (depthExpr X)
  | dst.UnaryExpr _ X => S (depthExpr X)
  | dst.FuncLit T Body =>
      S (Nat.max (depthExpr T) (S (maxList depthStmt Body)))
  | dst.OtherExpr _ ch => S (maxList depthNode ch)
  end
with depthStmt (n : dst.Stmt) : nat :=
  match n with
  | dst.ReturnStmt Results => S (maxList depthExpr Results)
  | dst.IfStmt Init Cond Body Else =>
      S (Nat.max (maxOpt depthStmt Init)
           (Nat.max (depthExpr Cond)
              (Nat.max (S (maxList depthStmt Body)) (maxOpt depthStmt Else))))
  | dst.BlockStmt List => S (maxList depthStmt List)
  | dst.ExprStmt X => S (depthExpr X)
  | dst.AssignStmt Lhs _ Rhs =>
      S (Nat.max (maxList depthExpr Lhs) (maxList depthExpr Rhs))
  | dst.DeclStmt d => S (depthDecl d)
  | dst.OtherStmt _ ch => S (maxList depthNode ch)
  end
with depthSpec (n : dst.Spec) : nat :=
  match n with
  | dst.ImportSpec _ _ => 4
  | dst.ValueSpec _ T Values =>
      S (Nat.max 3 (Nat.max (maxOpt depthExpr T) (maxList depthExpr Values)))
  | dst.OtherSpec _ ch => S (maxList depthNode ch)
  end
with depthDecl (n : dst.Decl) : nat :=
  match n with
  | dst.GenDecl _ Specs _ _ => S (maxList depthSpec Specs)
  | dst.FuncDecl Recv _ T Body =>
      S (Nat.max (maxOpt depthNode Recv)
           (Nat.max 3
              (Nat.max (depthExpr T)
                 (maxOpt (fun b => S (maxList depthStmt b)) Body))))
  | dst.BadDecl => 1
  end
with depthNode (n : dst.Node) : nat :=
  match n with
  | dst.NExpr e => S (depthExpr e)
  | dst.NStmt s => S (depthStmt s)
  | dst.NSpec s => S (depthSpec s)
  | dst.NDecl d => S (depthDecl d)
  | dst.NOther _ ch => S (maxList depthNode ch)
  end.

Definition depthFile (f : dst.File) : nat :=
  S (Nat.max 3 (maxList depthDecl (dst.Decls f))).

Section Engine.
Context `{strconv.Strconv}.

(** [dst.Inspect(df, ...)]: the file node, its name, its declarations. *)
Definition walkFile (k : nat) (p : State) (f : dst.File)
  : option (State * dst.File) :=
  match k with
  | 0 => None
  | S k =>
      let p := recordChanged p false in
      '(p, _) ← walkExpr k p (dst.Id (dst.FileName f));
      '(p, Decls) ← walkList (walkDecl k) p (dst.Decls f);
      Some (p, {| dst.FileName := dst.FileName f; dst.Decls := Decls |})
  end.

Definition Inspect (p : State) (f : dst.File) : option (State * dst.File) :=
  walkFile (depthFile f) p f.

(** ** dst.go: the import table

    A [*dst.GenDecl] of the file is represented by its index in
    [f.Decls]; a [*dst.ImportSpec] by the index of its declaration and its
    index in that declaration's [Specs]. *)
Definition isImportDecl (d : dst.Decl) : bool :=
  match d with
  | dst.GenDecl Tok _ _ _ => token.eqb Tok token.IMPORT
  | _ => false
  end.

Fixpoint importsFrom (i : nat) (Decls : list dst.Decl) : list nat :=
  match Decls with
  | [] => []
  | d :: r =>
      if isImportDecl d then i :: importsFrom (S i) r
      else importsFrom (S i) r
  end.

(** getImports returns a list of all imported packages in this file: the
    inspection descends from the file node only, so exactly the
    top-level declarations are examined. *)
Definition getImports (f : dst.File) : list nat :=
  importsFrom 0 (dst.Decls f).

(** importPath returns the full name of a package. *)
Definition importPath (Path : dst.BasicLit) : string :=
  match strconv.Unquote (dst.Value Path) with
  | Some t => t
  | None => ""
  end.

Definition declSpecs (d : dst.Decl) : list dst.Spec :=
  match d with
  | dst.GenDecl _ Specs _ _ => Specs
  | _ => []
  end.

(** The outcome of a search: a pointer to a spec, nil, or the run-time
    panic of the type assertion of a spec to an import spec. *)
Inductive Found :=
| FoundAt (i j : nat)
| NotFound
| AssertPanic.

Fixpoint findInSpecs (i j : nat) (Specs : list dst.Spec) (ipath : string)
  : Found :=
  match Specs with
  | [] => NotFound
  | dst.ImportSpec _ Path :: r =>
      if String.eqb (importPath Path) ipath then FoundAt i j
      else findInSpecs i (S j) r ipath
  | _ :: _ => AssertPanic
  end.

(** findImportByPath returns the same import structure as the specified
    package.  It returns nil when the target is not found. *)
Fixpoint findImportByPath (f : dst.File) (imports : list nat)
    (ipath : string) : Found :=
  match imports with
  | [] => NotFound
  | i :: r =>
      match findInSpecs i 0 (default [] (declSpecs <$> dst.Decls f !! i))
                        ipath with
      | NotFound => findImportByPath f r ipath
      | res => res
      end
  end.

Definition withSpecs (g : list dst.Spec -> list dst.Spec) (d : dst.Decl)
  : dst.Decl :=
  match d with
  | dst.GenDecl Tok Specs lp rp => dst.GenDecl Tok (g Specs) lp rp
  | _ => d
  end.

(** addImport adds a specified package to the file.  It does not detect
    whether there is a conflict in the package. *)
Definition addImport (f : dst.File) (ipath name : string)
    (imports : list nat) : dst.File :=
  let ident := if String.eqb name "" then None
               else Some (dst.NewIdent name) in
  let imp := dst.ImportSpec ident
               {| dst.Kind := token.STRING;
                  dst.Value := strconv.Quote ipath |} in
  match imports with
  | i :: _ =>
      {| dst.FileName := dst.FileName f;
         dst.Decls := alter (withSpecs (fun Specs => Specs ++ [imp])%list) i
                            (dst.Decls f) |}
  | [] =>
      {| dst.FileName := dst.FileName f;
         dst.Decls := dst.GenDecl token.IMPORT [imp] true true
                      :: dst.Decls f |}
  end.

(** The two assignments [imp.Name = nil] and [imp.Path.Value = v]. *)
Definition retarget (v : string) (s : dst.Spec) : dst.Spec :=
  match s with
  | dst.ImportSpec _ Path =>
      dst.ImportSpec None {| dst.Kind := dst.Kind Path; dst.Value := v |}
  | _ => s
  end.

(** EndProcess returns the file after the call and the flag; [None] is
    the panic of [findImportByPath].  The error returned is always nil. *)
Definition EndProcess (p : pkgErrorsDstProcessor) (f : dst.File)
  : option (dst.File * bool) :=
  if negb (changed p) then Some (f, false)
  else
    let imports := getImports f in
    match findImportByPath f imports (pkgPath p) with
    | AssertPanic => None
    | FoundAt _ _ => Some (f, true)
    | NotFound =>
        match findImportByPath f imports "errors" with
        | AssertPanic => None
        | FoundAt i j =>
            Some ({| dst.FileName := dst.FileName f;
                     dst.Decls :=
                       alter (withSpecs
                                (alter (retarget
                                          (strconv.Quote (pkgPath p))) j))
                             i (dst.Decls f) |}, true)
        | NotFound => Some (addImport f (pkgPath p) "" imports, true)
        end
    end.
End Engine.

(** ** errfix.go: files and the traversal controller *)

(** A Go [error] is represented by its message. *)
Definition error := string.

(** File represents a go file. *)
Record File := { Name : string; Content : string; Error : option error }.

(** github.com/dave/dst/decorator: parser and printer, external to the
    repository and taken as an interface. *)
Module decorator.
Class Decorator := {
  ParseFile : string -> string -> dst.File + error;
  Fprint : dst.File -> string + error
}.
End decorator.

(** How a call ends: with its results, with a non-nil error, with a panic,
    or (for the bounded traversal only) by reaching the bound. *)
Inductive Outcome (A : Type) :=
| Returns (a : A)
| Fails (e : error)
| Panics
| OutOfFuel.
Arguments Returns {A} a.
Arguments Fails {A} e.
Arguments Panics {A}.
Arguments OutOfFuel {A}.

(** The calls a run makes to the decorator, in order. *)
Inductive DecoratorCall :=
| CallParseFile (name content : string)
| CallFprint (df : dst.File).

Definition newDstProcessors : list pkgErrorsDstProcessor :=
  [newPkgErrorsDstProcessor].

Module processor.
Section Processor.
Context `{strconv.Strconv} `{decorator.Decorator}.

(** The loop [for _, dp := range dps] of [Process]. *)
Fixpoint runRules (dps : list pkgErrorsDstProcessor) (df : dst.File)
    (changed : bool) : Outcome (dst.File * bool) :=
  match dps with
  | [] => Returns (df, changed)
  | dp :: rest =>
      match Inspect dp df with
      | None => OutOfFuel
      | Some (dp, df) =>
          match EndProcess dp df with
          | None => Panics
          | Some (df, ok) => runRules rest df (changed || ok)
          end
      end
  end.

(** Process converts the input file into a new file with built-in
    rules. *)
Definition Process (f : File) : list DecoratorCall * Outcome File :=
  let parse := CallParseFile (Name f) (Content f) in
  match decorator.ParseFile (Name f) (Content f) with
  | inr err => ([parse], Fails ("error parsing ast, " ++ err))
  | inl df =>
      match runRules newDstProcessors df false with
      | Returns (df, changed) =>
          if negb changed then
            ([parse],
             Returns {| Name := Name f; Content := Content f;
                        Error := None |})
          else
            match decorator.Fprint df with
            | inr err =>
                ([parse; CallFprint df],
                 Fails ("error while generating source code based on ast, "
                        ++ err))
            | inl text =>
                ([parse; CallFprint df],
                 Returns {| Name := Name f; Content := text;
                            Error := None |})
            end
      | Fails e => ([parse], Fails e)
      | Panics => ([parse], Panics)
      | OutOfFuel => ([parse], OutOfFuel)
      end
  end.
End Processor.
End processor.

(** ** errfix.go: the reader

    What the operating system answers is a parameter: [Stat], [ReadFile]
    and the sequence of visits of [filepath.Walk].  An [*os.File] or
    [io.Reader] input is represented by the result of [io.ReadAll] on it.
    The channel is represented by the sequence of files sent on it. *)
Module reader.
Record FileInfo := { IsDir : bool }.

Inductive WalkEntry :=
| Visit (p : string) (info : FileInfo)
| VisitErr (p : string) (err : error).

Record FS := {
  Stat : string -> FileInfo + error;
  ReadFile : string -> string * option error;
  Walk : string -> list WalkEntry
}.

Inductive Input :=
| OsFile (name content : string) (err : option error)
| IoReader (content : string) (err : option error)
| Path (p : string)
| Unsupported.

(** The validation loop of [Read]: the error it returns, if any. *)
Fixpoint validate (fs : FS) (inputs : list Input) : option error :=
  match inputs with
  | [] => None
  | OsFile _ _ _ :: r | IoReader _ _ :: r => validate fs r
  | Path p :: r =>
      match Stat fs p with
      | inr err =>
          Some ("the input source is not a valid file or directory, "
                ++ err)
      | inl _ => validate fs r
      end
  | Unsupported :: _ =>
      Some "the input source only supports *os.File, io.Reader and string"
  end.

Definition itoa (i : nat) : string :=
  NilEmpty.string_of_uint (Nat.to_uint i).

(** The closure [formatName] with its counter [i]. *)
Definition formatName (i : nat) (s : string) : string * nat :=
  (if Nat.ltb 0 i then s ++ "#" ++ itoa i else s, S i).

Definition readPath (fs : FS) (p : string) : list File :=
  if negb (strings.HasSuffix p ".go") then []
  else
    let '(content, err) := ReadFile fs p in
    [{| Name := p; Content := content; Error := err |}].

(** The visits of [filepath.Walk] under the callback of [readDir]: the
    files sent, and the error that ended the walk. *)
Fixpoint walkEntries (fs : FS) (es : list WalkEntry)
  : list File * option error :=
  match es with
  | [] => ([], None)
  | VisitErr _ err :: _ => ([], Some err)
  | Visit p info :: r =>
      let '(fs', e) := walkEntries fs r in
      ((if negb (IsDir info) then readPath fs p else []) ++ fs', e)%list
  end.

Definition readDir (fs : FS) (dir : string) : list File :=
  let '(files, err) := walkEntries fs (Walk fs dir) in
  match err with
  | Some e => files ++ [{| Name := dir; Content := ""; Error := Some e |}]
  | None => files
  end%list.

(** The goroutine [read]: the files sent before the channel is closed. *)
Fixpoint read (fs : FS) (i : nat) (inputs : list Input) : list File :=
  match inputs with
  | [] => []
  | OsFile name content err :: r =>
      let '(n, i) := formatName i name in
      {| Name := n; Content := content; Error := err |} :: read fs i r
  | IoReader content err :: r =>
      let '(n, i) := formatName i "io.Reader" in
      {| Name := n; Content := content; Error := err |} :: read fs i r
  | Path p :: r =>
      match Stat fs p with
      | inr err =>
          {| Name := p; Content := ""; Error := Some err |} :: read fs i r
      | inl fileInfo =>
          ((if IsDir fileInfo then readDir fs p else readPath fs p)
           ++ read fs i r)%list
      end
  | Unsupported :: r => read fs i r
  end.

(** Read returns a file channel when the call succeeds.  [fs0] is the
    file system while [Read] validates the inputs, [fs1] the file system
    while the goroutine reads them. *)
Definition Read (fs0 fs1 : FS) (inputs : list Input)
  : error + list File :=
  if Nat.eqb (length inputs) 0 then inl "no source to read"
  else
    match validate fs0 inputs with
    | Some err => inl err
    | None => inr (read fs1 0 inputs)
    end.
End reader.

(** ** errfix.go: the pipeline orchestrator

    The loop of [ErrFix.Process], the goroutines started by [wg.Go] and
    [wg.Wait] as a transition system.  A step is chosen by the scheduler;
    [step] is the effect of a choice where it is enabled.  The errgroup is
    its set of running units and the error kept by its [errOnce]. *)
Module ErrFix.
Section Orchestrator.
(** [e.p.Process] and [e.w.Write], the two interfaces the orchestrator
    holds. *)
Variable process : File -> File + error.
Variable write : File -> File -> option error.

(** The closure [fn]. *)
Definition fn (f : File) : option error :=
  match Error f with
  | Some e => Some ("error while reading from " ++ Name f ++ ", " ++ e)
  | None =>
      match process f with
      | inr err => Some err
      | inl f2 => write f f2
      end
  end.

Inductive Phase :=
| InLoop
| Waiting
| Returned (err : option error).

Inductive Event :=
| Started (f : File)
| Settled (f : File) (err : option error).

Record St := {
  ch : list File;             (* what the reader still sends *)
  errCh : list (option error);(* the buffer of errCh *)
  running : list File;        (* units started and not yet settled *)
  groupErr : option error;    (* the first error the group has seen *)
  phase : Phase;
  log : list Event            (* most recent first *)
}.

Definition limit : nat := 8.

Inductive Choice :=
| Receive            (* case f, ok := <-ch with ok, then wg.Go *)
| Closed             (* case f, ok := <-ch with !ok *)
| ReceiveErr         (* case err = <-errCh *)
| Finish (i : nat)   (* the i-th running unit returns from fn *)
| Return.            (* wg.Wait returns *)

Definition step (c : Choice) (s : St) : option St :=
  match c, phase s with
  | Receive, InLoop =>
      match ch s with
      | f :: rest =>
          if Nat.ltb (length (running s)) limit then
            Some {| ch := rest; errCh := errCh s;
                    running := running s ++ [f];
                    groupErr := groupErr s; phase := InLoop;
                    log := Started f :: log s |}
          else None
      | [] => None
      end
  | Closed, InLoop =>
      match ch s with
      | [] => Some {| ch := []; errCh := errCh s; running := running s;
                      groupErr := groupErr s; phase := Waiting;
                      log := log s |}
      | _ :: _ => None
      end
  | ReceiveErr, InLoop =>
      match errCh s with
      | err :: rest =>
          Some {| ch := ch s; errCh := rest; running := running s;
                  groupErr := groupErr s;
                  phase := match err with
                           | Some e => Returned (Some e)
                           | None => Waiting
                           end;
                  log := log s |}
      | [] => None
      end
  | Finish i, _ =>
      match running s !! i with
      | Some f =>
          let r := fn f in
          Some {| ch := ch s; errCh := errCh s;
                  running := delete i (running s);
                  groupErr := match groupErr s with
                              | Some e => Some e
                              | None => r
                              end;
                  phase := phase s;
                  log := Settled f r :: log s |}
      | None => None
      end
  | Return, Waiting =>
      match running s with
      | [] => Some {| ch := ch s; errCh := errCh s; running := [];
                      groupErr := groupErr s;
                      phase := Returned (groupErr s); log := log s |}
      | _ :: _ => None
      end
  | _, _ => None
  end.

Fixpoint run (cs : list Choice) (s : St) : option St :=
  match cs with
  | [] => Some s
  | c :: r => s' ← step c s; run r s'
  end.

(** The state after [ch, err := e.r.Read(ctx)] succeeded with the given
    stream: [errCh] is made empty and nothing in the program sends on
    it. *)
Definition init (stream : list File) : St :=
  {| ch := stream; errCh := []; running := []; groupErr := None;
     phase := InLoop; log := [] |}.

(** Some unit is started after some unit has settled with an error. *)
Fixpoint startedAfterFailure (l : list Event) : bool :=
  match l with
  | [] => false
  | Started _ :: older =>
      existsb (fun e => match e with
                        | Settled _ (Some _) => true
                        | _ => false
                        end) older
      || startedAfterFailure older
  | Settled _ _ :: older => startedAfterFailure older
  end.

(** The files whose units were started, oldest first. *)
Fixpoint startedFiles (l : list Event) : list File :=
  match l with
  | [] => []
  | Started f :: older => (startedFiles older ++ [f])%list
  | Settled _ _ :: older => startedFiles older
  end.

(** What holds of every state of a run on [stream]: nothing is buffered
    in [errCh], the files started and the files still to come make up the
    stream, and the loop is left only when the stream is exhausted. *)
Definition loopInvariant (stream : list File) (s : St) : Prop :=
  errCh s = [] /\
  (startedFiles (log s) ++ ch s)%list = stream /\
  (phase s <> InLoop -> ch s = []).
End Orchestrator.
End ErrFix.

(** ** Concrete syntax used in statements and examples *)

(** The identifier [err] and the identifier [nil], whatever object the
    parser resolved them to. *)
Definition errId (o : option dst.Object) : dst.Expr :=
  dst.Id {| dst.Name := "err"; dst.Obj := o |}.

Definition nilId (o : option dst.Object) : dst.Expr :=
  dst.Id {| dst.Name := "nil"; dst.Obj := o |}.

(** [errors.sel(args...)] as the rules build it. *)
Definition errorsSel (sel : string) : dst.Expr :=
  dst.SelectorExpr (dst.Id (dst.NewIdent "errors")) (dst.NewIdent sel).

Definition errorsCall (sel : string) (args : list dst.Expr) : dst.Expr :=
  dst.CallExpr (errorsSel sel) args false.

(** [fmt.Errorf] as the parser yields it when [fmt] is not shadowed. *)
Definition fmtErrorf : dst.Expr :=
  dst.SelectorExpr (dst.Id (dst.NewIdent "fmt")) (dst.NewIdent "Errorf").

Definition stringLit (v : string) : dst.Expr :=
  dst.Lit {| dst.Kind := token.STRING; dst.Value := v |}.

(** The rule object in any state it takes during a traversal. *)
Definition rule (b : bool) : pkgErrorsDstProcessor :=
  setChanged newPkgErrorsDstProcessor b.

(** An instance of the strconv interface for examples.  It agrees with
    strconv on interpreted string literals that contain no backslash, no
    double quote, no line feed and only ASCII bytes, and on the strings
    [Quote] maps to such literals; [plainUnquote] answers [None] on every
    other literal. *)
Definition dquote : ascii := ascii_of_nat 34.
Definition backslash : ascii := ascii_of_nat 92.
Definition linefeed : ascii := ascii_of_nat 10.

Definition plainUnquote (s : string) : option string :=
  match s with
  | String q _ =>
      let n := String.length s in
      let body := substring 1 (n - 2) s in
      if Ascii.eqb q dquote && Nat.leb 2 n &&
         String.eqb (substring (n - 1) 1 s) (String dquote EmptyString) &&
         negb (strings.contains body dquote) &&
         negb (strings.contains body backslash) &&
         negb (strings.contains body linefeed)
      then Some body
      else None
  | EmptyString => None
  end.

Definition plainQuote (s : string) : string :=
  String dquote (s ++ String dquote EmptyString).

Definition plainStrconv : strconv.Strconv :=
  {| strconv.Unquote := plainUnquote; strconv.Quote := plainQuote |}.

(** ** Predicates used in statements *)

(** A string made of bytes of the cutset only. *)
Fixpoint allIn (cutset s : string) : bool :=
  match s with
  | EmptyString => true
  | String c r => strings.contains cutset c && allIn cutset r
  end.

(** The last byte of a string, if any, is outside the cutset. *)
Fixpoint endsOutside (cutset s : string) : bool :=
  match s with
  | EmptyString => true
  | String c EmptyString => negb (strings.contains cutset c)
  | String _ r => endsOutside cutset r
  end.


Section ImportTable.
Context `{strconv.Strconv}.

(** The import specs of a file whose path is [ipath], counted over all
    top-level import declarations. *)
Definition specHasPath (ipath : string) (s : dst.Spec) : bool :=
  match s with
  | dst.ImportSpec _ Path => String.eqb (importPath Path) ipath
  | _ => false
  end.

Definition specCount (ipath : string) (l : list dst.Spec) : nat :=
  length (filter (fun s => specHasPath ipath s = true) l).

Definition countDecl (ipath : string) (d : dst.Decl) : nat :=
  if isImportDecl d then specCount ipath (declSpecs d) else 0.

Definition countDecls (ipath : string) (ds : list dst.Decl) : nat :=
  foldr (fun d n => countDecl ipath d + n) 0 ds.

Definition countImports (f : dst.File) (ipath : string) : nat :=
  countDecls ipath (dst.Decls f).

(** What the parser guarantees: the specs of an import declaration are
    import specs. *)
Definition isImportSpec (s : dst.Spec) : bool :=
  match s with dst.ImportSpec _ _ => true | _ => false end.

Definition importsWellFormed (f : dst.File) : bool :=
  forallb (fun d => if isImportDecl d then forallb isImportSpec (declSpecs d)
                    else true)
          (dst.Decls f).

(** The search of [findImportByPath] read off the declarations
    themselves instead of through the pointers of [getImports]. *)
Fixpoint findDecls (i : nat) (ds : list dst.Decl) (ipath : string)
  : Found :=
  match ds with
  | [] => NotFound
  | d :: r =>
      if isImportDecl d then
        match findInSpecs i 0 (declSpecs d) ipath with
        | NotFound => findDecls (S i) r ipath
        | res => res
        end
      else findDecls (S i) r ipath
  end.

(** The three ways [EndProcess] edits the import table, as relations
    between the file before and the file after. *)
Definition newImportSpec : dst.Spec :=
  dst.ImportSpec None {| dst.Kind := token.STRING;
                         dst.Value := strconv.Quote "github.com/pkg/errors" |}.

Definition noImportDecl (ds : list dst.Decl) : bool :=
  forallb (fun d => negb (isImportDecl d)) ds.

(** The first import spec of path [errors] keeps its place in its
    declaration and the declaration its place in the file; the spec
    loses its name and gets the new path; nothing else changes. *)
Definition errorsImportReplaced (f f' : dst.File) : Prop :=
  exists pre spre Name Path spost lp rp post,
    dst.Decls f
    = (pre ++ dst.GenDecl token.IMPORT
                (spre ++ dst.ImportSpec Name Path :: spost) lp rp
           :: post)%list /\
    importPath Path = "errors" /\
    countDecls "errors" pre = 0 /\
    specCount "errors" spre = 0 /\
    f' = {| dst.FileName := dst.FileName f;
            dst.Decls :=
              (pre ++ dst.GenDecl token.IMPORT
                        (spre ++
                         dst.ImportSpec None
                           {| dst.Kind := dst.Kind Path;
                              dst.Value :=
                                strconv.Quote "github.com/pkg/errors" |}
                         :: spost) lp rp
                   :: post)%list |}.

(** A new import spec is appended to the first import declaration. *)
Definition appendedToFirstGroup (f f' : dst.File) : Prop :=
  exists pre Specs lp rp post,
    dst.Decls f
    = (pre ++ dst.GenDecl token.IMPORT Specs lp rp :: post)%list /\
    noImportDecl pre = true /\
    f' = {| dst.FileName := dst.FileName f;
            dst.Decls :=
              (pre ++ dst.GenDecl token.IMPORT (Specs ++ [newImportSpec])
                        lp rp :: post)%list |}.

(** A new parenthesised import declaration is put in front of the
    declarations of a file that has no import declaration. *)
Definition newGroupPrepended (f f' : dst.File) : Prop :=
  noImportDecl (dst.Decls f) = true /\
  f' = {| dst.FileName := dst.FileName f;
          dst.Decls := dst.GenDecl token.IMPORT [newImportSpec] true true
                       :: dst.Decls f |}.
End ImportTable.

(** ** Files used in examples *)

Definition plainLit (s : string) : dst.BasicLit :=
  {| dst.Kind := token.STRING; dst.Value := plainQuote s |}.

Definition importDecl (specs : list dst.Spec) : dst.Decl :=
  dst.GenDecl token.IMPORT specs true true.

(** [var ErrNotFound = errors.New("not found")]. *)
Definition errNotFoundDecl : dst.Decl :=
  dst.GenDecl token.VAR
    [dst.ValueSpec
       [{| dst.Name := "ErrNotFound";
           dst.Obj := Some (dst.NewObj dst.Var "ErrNotFound") |}]
       None
       [dst.CallExpr (errorsSel "New") [dst.Lit (plainLit "not found")] false]]
    false false.

(** The input and the output of the repository's test [errors.New#1]. *)
Definition errorsNewInput : dst.File :=
  {| dst.FileName := dst.NewIdent "foo";
     dst.Decls :=
       [importDecl [dst.ImportSpec None (plainLit "bar");
                    dst.ImportSpec None (plainLit "errors")];
        errNotFoundDecl] |}.

Definition errorsNewOutput : dst.File :=
  {| dst.FileName := dst.NewIdent "foo";
     dst.Decls :=
       [importDecl [dst.ImportSpec None (plainLit "bar");
                    dst.ImportSpec None (plainLit "github.com/pkg/errors")];
        errNotFoundDecl] |}.

(** [func foo() error { var err error; return ret }] for a given result
    [ret]. *)
Definition errVar : dst.Expr :=
  errId (Some (dst.NewObj dst.Var "err")).

Definition funcFoo (ret : list dst.Expr) : dst.Decl :=
  dst.FuncDecl None
    {| dst.Name := "foo"; dst.Obj := Some (dst.NewObj dst.Fun "foo") |}
    (dst.OtherExpr "FuncType"
       [dst.NOther "FieldList" [];
        dst.NOther "FieldList"
          [dst.NOther "Field" [dst.NExpr (dst.Id (dst.NewIdent "error"))]]])
    (Some [dst.DeclStmt
             (dst.GenDecl token.VAR
                [dst.ValueSpec
                   [{| dst.Name := "err";
                       dst.Obj := Some (dst.NewObj dst.Var "err") |}]
                   (Some (dst.Id (dst.NewIdent "error"))) []]
                false false);
           dst.ReturnStmt ret]).

(** A file that imports the standard package as [stderrors "errors"] and
    returns [err], and what the engine makes of it. *)
Definition aliasedErrors : dst.File :=
  {| dst.FileName := dst.NewIdent "foo";
     dst.Decls :=
       [importDecl [dst.ImportSpec (Some (dst.NewIdent "stderrors"))
                                   (plainLit "errors")];
        funcFoo [errVar]] |}.

Definition aliasedErrorsOut : dst.File :=
  {| dst.FileName := dst.NewIdent "foo";
     dst.Decls :=
       [importDecl [dst.ImportSpec None (plainLit "github.com/pkg/errors")];
        funcFoo [errorsCall "WithStack" [errId None]]] |}.

(** A file that imports the wrap library twice, under two names, and
    returns [err], and what the engine makes of it. *)
Definition importedTwice : dst.File :=
  {| dst.FileName := dst.NewIdent "foo";
     dst.Decls :=
       [importDecl [dst.ImportSpec None (plainLit "github.com/pkg/errors");
                    dst.ImportSpec (Some (dst.NewIdent "pkgerrors"))
                                   (plainLit "github.com/pkg/errors")];
        funcFoo [errVar]] |}.

Definition importedTwiceOut : dst.File :=
  {| dst.FileName := dst.NewIdent "foo";
     dst.Decls :=
       [importDecl [dst.ImportSpec None (plainLit "github.com/pkg/errors");
                    dst.ImportSpec (Some (dst.NewIdent "pkgerrors"))
                                   (plainLit "github.com/pkg/errors")];
        funcFoo [errorsCall "WithStack" [errId None]]] |}.

(** The repository's test [WithStack#5]: three import declarations, the
    new spec goes to the first. *)
Definition funcMain : dst.Decl :=
  dst.FuncDecl None
    {| dst.Name := "main"; dst.Obj := Some (dst.NewObj dst.Fun "main") |}
    (dst.OtherExpr "FuncType" [dst.NOther "FieldList" []]) (Some []).

Definition withStack5Input : dst.File :=
  {| dst.FileName := dst.NewIdent "main";
     dst.Decls :=
       [dst.GenDecl token.IMPORT [dst.ImportSpec None (plainLit "bar")]
                    false false;
        dst.GenDecl token.IMPORT [dst.ImportSpec None (plainLit "foo")]
                    false false;
        importDecl [dst.ImportSpec None (plainLit "baz")];
        funcMain; funcFoo [errVar]] |}.

Definition withStack5Output : dst.File :=
  {| dst.FileName := dst.NewIdent "main";
     dst.Decls :=
       [dst.GenDecl token.IMPORT
          [dst.ImportSpec None (plainLit "bar");
           dst.ImportSpec None (plainLit "github.com/pkg/errors")]
          false false;
        dst.GenDecl token.IMPORT [dst.ImportSpec None (plainLit "foo")]
                    false false;
        importDecl [dst.ImportSpec None (plainLit "baz")];
        funcMain; funcFoo [errorsCall "WithStack" [errId None]]] |}.

(** The repository's test [Cause#2], its two type assertions:
    [if e, ok := err.(CustomError); ok { return e }] and
    [switch e := err.(type) { case CustomError: return e }]. *)
Definition customError : dst.Expr := dst.Id (dst.NewIdent "CustomError").

Definition eVar : dst.Expr :=
  dst.Id {| dst.Name := "e"; dst.Obj := Some (dst.NewObj dst.Var "e") |}.

Definition okVar : dst.Expr :=
  dst.Id {| dst.Name := "ok"; dst.Obj := Some (dst.NewObj dst.Var "ok") |}.

Definition cause2Body (subject : dst.Expr) : list dst.Stmt :=
  [dst.IfStmt
     (Some (dst.AssignStmt [eVar; okVar] token.DEFINE
              [dst.TypeAssertExpr subject (Some customError)]))
     okVar [dst.ReturnStmt [eVar]] None;
   dst.OtherStmt "TypeSwitchStmt"
     [dst.NStmt (dst.AssignStmt [eVar] token.DEFINE
                   [dst.TypeAssertExpr subject None]);
      dst.NStmt (dst.BlockStmt
                   [dst.OtherStmt "CaseClause"
                      [dst.NExpr customError;
                       dst.NStmt (dst.ReturnStmt [eVar])]])]].

Definition cause2Input : dst.File :=
  {| dst.FileName := dst.NewIdent "foo";
     dst.Decls :=
       [dst.FuncDecl None
          {| dst.Name := "foo"; dst.Obj := Some (dst.NewObj dst.Fun "foo") |}
          (dst.OtherExpr "FuncType" [dst.NOther "FieldList" []])
          (Some (cause2Body errVar ++ [dst.ReturnStmt [errVar]])%list)] |}.

Definition cause2Output : dst.File :=
  {| dst.FileName := dst.NewIdent "foo";
     dst.Decls :=
       [importDecl [dst.ImportSpec None (plainLit "github.com/pkg/errors")];
        dst.FuncDecl None
          {| dst.Name := "foo"; dst.Obj := Some (dst.NewObj dst.Fun "foo") |}
          (dst.OtherExpr "FuncType" [dst.NOther "FieldList" []])
          (Some (cause2Body (errorsCall "Cause" [errId None]) ++
                 [dst.ReturnStmt [errorsCall "WithStack" [errId None]]])%list)]
  |}.

(** A decorator for examples: it knows the texts of the repository's tests
    [Unchanged #1] and [errors.New#1], parses each to its tree and prints
    the text of the output of [errors.New#1]. *)
Definition nl : string := String linefeed EmptyString.
Definition tab : string := String (ascii_of_nat 9) EmptyString.

Definition unchangedText : string :=
  "package foo" ++ nl ++ nl ++ "func foo() {" ++ nl ++ nl ++ "}" ++ nl.

Definition unchangedTree : dst.File :=
  {| dst.FileName := dst.NewIdent "foo";
     dst.Decls :=
       [dst.FuncDecl None
          {| dst.Name := "foo"; dst.Obj := Some (dst.NewObj dst.Fun "foo") |}
          (dst.OtherExpr "FuncType" [dst.NOther "FieldList" []])
          (Some [])] |}.

Definition errorsNewText (path : string) : string :=
  "package foo" ++ nl ++ nl ++
  "import (" ++ nl ++
  tab ++ plainQuote "bar" ++ nl ++
  tab ++ plainQuote path ++ nl ++
  ")" ++ nl ++ nl ++
  "var ErrNotFound = errors.New(" ++ plainQuote "not found" ++ ")" ++ nl.

Definition testDecorator : decorator.Decorator :=
  {| decorator.ParseFile := fun _ content =>
       if String.eqb content unchangedText then inl unchangedTree
       else if String.eqb content (errorsNewText "errors")
            then inl errorsNewInput
       else if String.eqb content (errorsNewText "github.com/pkg/errors")
            then inl errorsNewOutput
       else inr "expected 'package', found 'EOF'";
     decorator.Fprint := fun _ => inl (errorsNewText "github.com/pkg/errors")
  |}.

(** A file system in which nothing can be statted, and the stream of an
    unreadable file followed by a readable one. *)
Definition emptyFS : reader.FS :=
  {| reader.Stat := fun p =>
       inr ("stat " ++ p ++ ": no such file or directory");
     reader.ReadFile := fun p =>
       ("", Some ("open " ++ p ++ ": no such file or directory"));
     reader.Walk := fun _ => [] |}.

Definition unreadableFile : File :=
  {| Name := "a.go"; Content := "";
     Error := Some "open a.go: permission denied" |}.

Definition readableFile : File :=
  {| Name := "b.go"; Content := "package b" ++ nl; Error := None |}.

(** ** What a rule can see of an expression

    The rules test an operand for being an identifier of a given name, a
    literal, a binary expression over such operands or a selector on an
    identifier; [shape] keeps exactly that and forgets the rest. *)
Inductive Shape :=
| SId (id : dst.Ident)
| SLit (lit : dst.BasicLit)
| SBinary (X : Shape) (Op : token.Token) (Y : Shape)
| SSelector (X : Shape) (Sel : dst.Ident)
| SOpaque.

Fixpoint shape (n : dst.Expr) : Shape :=
  match n with
  | dst.Id id => SId id
  | dst.Lit lit => SLit lit
  | dst.BinaryExpr X Op Y => SBinary (shape X) Op (shape Y)
  | dst.SelectorExpr X Sel => SSelector (shape X) Sel
  | _ => SOpaque
  end.

(** The guard under which fixCallExpr rewrites the call: the target is
    [fmt.Errorf] and the first argument is a string literal that
    unquotes. *)
Definition callRewrites `{strconv.Strconv} (p : pkgErrorsDstProcessor)
    (Fun : dst.Expr) (Args : list dst.Expr) : bool :=
  negb (isPkgSelector Fun (errorsIdent p) (newIdent p)) &&
  isPkgSelector Fun "fmt" "Errorf" &&
  match Args !! 0 with
  | Some (dst.Lit lit) =>
      token.eqb (dst.Kind lit) token.STRING &&
      match strconv.Unquote (dst.Value lit) with
      | Some _ => true
      | None => false
      end
  | _ => false
  end.

(** A tree is settled under a walker when the walk returns it as it is,
    from every state [c] of the rule object, ending in a state [c || d]. *)
Definition settled {A : Type} (w : State -> A -> option (State * A))
    (n : A) : Prop :=
  exists d, forall c, w (rule c) n = Some (rule (c || d), n).

(** A walker is stable when, from a rule object in state [b], it ends in a
    state [b || d] and its result is settled; [rel] relates the tree
    walked and the result. *)
Definition stable {A : Type} (w : State -> A -> option (State * A))
    (rel : A -> A -> Prop) : Prop :=
  forall b n p' n',
    w (rule b) n = Some (p', n') ->
    (exists d, p' = rule (b || d)) /\ rel n n' /\ settled w n'.

Definition sameShape (n n' : dst.Expr) : Prop := shape n' = shape n.

Definition anyTree {A : Type} (n n' : A) : Prop := True.

(** In the result of walking a declaration with bound [k], the specs of a
    general declaration are settled one by one (with the bound left for
    them). *)
Definition specsSettled `{strconv.Strconv} (k : nat) (d d' : dst.Decl)
  : Prop :=
  match d' with
  | dst.GenDecl _ Specs _ _ => Forall (settled (walkSpec (Nat.pred k))) Specs
  | _ => True
  end.

(** The file of the repository's test [errors.New#1] and the file
    [Process] returns for it. *)
Definition errorsNewFile : File :=
  {| Name := "errors.New#1"; Content := errorsNewText "errors";
     Error := None |}.

Definition errorsNewFixed : File :=
  {| Name := "errors.New#1";
     Content := errorsNewText "github.com/pkg/errors"; Error := None |}.

(** ** What a parse of printed text may change

    The rules build their identifiers with [dst.NewIdent], without an
    object, and [addImport] leaves the parenthesis flags of the
    declaration it extends as they were.  When the printed text is parsed
    again, the parser resolves identifiers to the objects declared in the
    file and sets the flags by the text.  [reparsed...] relates a tree to
    the trees that differ from it in that way only: an identifier keeps
    its name, and keeps having an object if it had one; the parenthesis
    flags of a general declaration are free; everything else is the
    same. *)
Definition reparsedIdent (id id' : dst.Ident) : Prop :=
  dst.Name id' = dst.Name id /\ (dst.Obj id' = None -> dst.Obj id = None).

Inductive reparsedExpr : dst.Expr -> dst.Expr -> Prop :=
| reparsed_Id id id' :
    reparsedIdent id id' -> reparsedExpr (dst.Id id) (dst.Id id')
| reparsed_Lit lit : reparsedExpr (dst.Lit lit) (dst.Lit lit)
| reparsed_BinaryExpr X Op Y X' Y' :
    reparsedExpr X X' -> reparsedExpr Y Y' ->
    reparsedExpr (dst.BinaryExpr X Op Y) (dst.BinaryExpr X' Op Y')
| reparsed_CallExpr F A el F' A' :
    reparsedExpr F F' -> Forall2 reparsedExpr A A' ->
    reparsedExpr (dst.CallExpr F A el) (dst.CallExpr F' A' el)
| reparsed_SelectorExpr X Sel X' Sel' :
    reparsedExpr X X' -> reparsedIdent Sel Sel' ->
    reparsedExpr (dst.SelectorExpr X Sel) (dst.SelectorExpr X' Sel')
| reparsed_TypeAssertExpr X T X' T' :
    reparsedExpr X X' -> option_Forall2 reparsedExpr T T' ->
    reparsedExpr (dst.TypeAssertExpr X T) (dst.TypeAssertExpr X' T')
| reparsed_ParenExpr X X' :
    reparsedExpr X X' -> reparsedExpr (dst.ParenExpr X) (dst.ParenExpr X')
| reparsed_UnaryExpr Op X X' :
    reparsedExpr X X' ->
    reparsedExpr (dst.UnaryExpr Op X) (dst.UnaryExpr Op X')
| reparsed_FuncLit T Body T' Body' :
    reparsedExpr T T' -> Forall2 reparsedStmt Body Body' ->
    reparsedExpr (dst.FuncLit T Body) (dst.FuncLit T' Body')
| reparsed_OtherExpr kind ch ch' :
    Forall2 reparsedNode ch ch' ->
    reparsedExpr (dst.OtherExpr kind ch) (dst.OtherExpr kind ch')
with reparsedStmt : dst.Stmt -> dst.Stmt -> Prop :=
| reparsed_ReturnStmt Rs Rs' :
    Forall2 reparsedExpr Rs Rs' ->
    reparsedStmt (dst.ReturnStmt Rs) (dst.ReturnStmt Rs')
| reparsed_IfStmt Init Cond Body Else Init' Cond' Body' Else' :
    option_Forall2 reparsedStmt Init Init' -> reparsedExpr Cond Cond' ->
    Forall2 reparsedStmt Body Body' ->
    option_Forall2 reparsedStmt Else Else' ->
    reparsedStmt (dst.IfStmt Init Cond Body Else)
                 (dst.IfStmt Init' Cond' Body' Else')
| reparsed_BlockStmt List List' :
    Forall2 reparsedStmt List List' ->
    reparsedStmt (dst.BlockStmt List) (dst.BlockStmt List')
| reparsed_ExprStmt X X' :
    reparsedExpr X X' -> reparsedStmt (dst.ExprStmt X) (dst.ExprStmt X')
| reparsed_AssignStmt Lhs Tok Rhs Lhs' Rhs' :
    Forall2 reparsedExpr Lhs Lhs' -> Forall2 reparsedExpr Rhs Rhs' ->
    reparsedStmt (dst.AssignStmt Lhs Tok Rhs) (dst.AssignStmt Lhs' Tok Rhs')
| reparsed_DeclStmt d d' :
    reparsedDecl d d' -> reparsedStmt (dst.DeclStmt d) (dst.DeclStmt d')
| reparsed_OtherStmt kind ch ch' :
    Forall2 reparsedNode ch ch' ->
    reparsedStmt (dst.OtherStmt kind ch) (dst.OtherStmt kind ch')
with reparsedSpec : dst.Spec -> dst.Spec -> Prop :=
| reparsed_ImportSpec Name Path Name' :
    option_Forall2 reparsedIdent Name Name' ->
    reparsedSpec (dst.ImportSpec Name Path) (dst.ImportSpec Name' Path)
| reparsed_ValueSpec Names T Values Names' T' Values' :
    Forall2 reparsedIdent Names Names' ->
    option_Forall2 reparsedExpr T T' ->
    Forall2 reparsedExpr Values Values' ->
    reparsedSpec (dst.ValueSpec Names T Values)
                 (dst.ValueSpec Names' T' Values')
| reparsed_OtherSpec kind ch ch' :
    Forall2 reparsedNode ch ch' ->
    reparsedSpec (dst.OtherSpec kind ch) (dst.OtherSpec kind ch')
with reparsedDecl : dst.Decl -> dst.Decl -> Prop :=
| reparsed_GenDecl Tok Specs lp rp Specs' lp' rp' :
    Forall2 reparsedSpec Specs Specs' ->
    reparsedDecl (dst.GenDecl Tok Specs lp rp)
                 (dst.GenDecl Tok Specs' lp' rp')
| reparsed_FuncDecl Recv Name T Body Recv' Name' T' Body' :
    option_Forall2 reparsedNode Recv Recv' -> reparsedIdent Name Name' ->
    reparsedExpr T T' ->
    option_Forall2 (Forall2 reparsedStmt) Body Body' ->
    reparsedDecl (dst.FuncDecl Recv Name T Body)
                 (dst.FuncDecl Recv' Name' T' Body')
| reparsed_BadDecl : reparsedDecl dst.BadDecl dst.BadDecl
with reparsedNode : dst.Node -> dst.Node -> Prop :=
| reparsed_NExpr e e' :
    reparsedExpr e e' -> reparsedNode (dst.NExpr e) (dst.NExpr e')
| reparsed_NStmt s s' :
    reparsedStmt s s' -> reparsedNode (dst.NStmt s) (dst.NStmt s')
| reparsed_NSpec s s' :
    reparsedSpec s s' -> reparsedNode (dst.NSpec s) (dst.NSpec s')
| reparsed_NDecl d d' :
    reparsedDecl d d' -> reparsedNode (dst.NDecl d) (dst.NDecl d')
| reparsed_NOther kind ch ch' :
    Forall2 reparsedNode ch ch' ->
    reparsedNode (dst.NOther kind ch) (dst.NOther kind ch').

Definition reparsedFile (f f' : dst.File) : Prop :=
  reparsedIdent (dst.FileName f) (dst.FileName f') /\
  Forall2 reparsedDecl (dst.Decls f) (dst.Decls f').

(** A walker answers to reparsing when every tree related by [rel] to a
    result of it is settled. *)
Definition reparses {A : Type} (rel : A -> A -> Prop)
    (w : State -> A -> option (State * A)) : Prop :=
  forall b n p' n',
    w (rule b) n = Some (p', n') -> forall n'', rel n' n'' -> settled w n''.

(** The repository's test [WithStack#5] as text, and the tree a parse of
    the output text gives: the identifier [err] the rule put into the
    return statement is resolved to the variable, and the import
    declaration that got a second spec has its parentheses. *)
Definition withStack5Text (imports ret : string) : string :=
  "package main" ++ nl ++ nl ++ imports ++
  "import " ++ plainQuote "foo" ++ nl ++
  "import (" ++ nl ++ tab ++ plainQuote "baz" ++ nl ++ ")" ++ nl ++ nl ++
  "func main() {" ++ nl ++ nl ++ "}" ++ nl ++ nl ++
  "func foo() error {" ++ nl ++
  tab ++ "var err error" ++ nl ++
  tab ++ "return " ++ ret ++ nl ++ "}" ++ nl.

Definition withStack5InputText : string :=
  withStack5Text ("import " ++ plainQuote "bar" ++ nl) "err".

Definition withStack5OutputText : string :=
  withStack5Text
    ("import (" ++ nl ++ tab ++ plainQuote "bar" ++ nl ++
     tab ++ plainQuote "github.com/pkg/errors" ++ nl ++ ")" ++ nl)
    "errors.WithStack(err)".

Definition withStack5Reparsed : dst.File :=
  {| dst.FileName := dst.NewIdent "main";
     dst.Decls :=
       [importDecl
          [dst.ImportSpec None (plainLit "bar");
           dst.ImportSpec None (plainLit "github.com/pkg/errors")];
        dst.GenDecl token.IMPORT [dst.ImportSpec None (plainLit "foo")]
                    false false;
        importDecl [dst.ImportSpec None (plainLit "baz")];
        funcMain; funcFoo [errorsCall "WithStack" [errVar]]] |}.

(** A decorator for that test: it parses the input text to the input
    tree and the output text to the reparsed tree, and prints the output
    text. *)
Definition withStack5Decorator : decorator.Decorator :=
  {| decorator.ParseFile := fun _ content =>
       if String.eqb content withStack5InputText then inl withStack5Input
       else if String.eqb content withStack5OutputText
            then inl withStack5Reparsed
       else inr "expected 'package', found 'EOF'";
     decorator.Fprint := fun _ => inl withStack5OutputText |}.

Definition withStack5File : File :=
  {| Name := "WithStack#5"; Content := withStack5InputText; Error := None |}.

Definition withStack5Fixed : File :=
  {| Name := "WithStack#5"; Content := withStack5OutputText;
     Error := None |}.

(** ** The flag and the tree

    A walker is unflagged when a walk that ends with the flag down
    returns the tree it was given. *)
Definition unflagged {A : Type} (w : State -> A -> option (State * A))
  : Prop :=
  forall b n p' n',
    w (rule b) n = Some (p', n') -> changed p' = false -> n' = n.

(** ** The traversal and the import declarations

    [keepsImports d d'] relates a declaration and what a walk makes of it:
    an import declaration stays one, any other declaration does not become
    one, and an import declaration whose specs are import specs is
    returned as it is. *)
Definition keepsImports (d d' : dst.Decl) : Prop :=
  isImportDecl d' = isImportDecl d /\
  (isImportDecl d = true ->
   forallb isImportSpec (declSpecs d) = true -> d' = d).

(** ** The reader: accepted inputs, handles and visits *)

(** An input the validation loop of [Read] accepts. *)
Definition validInput (fs : reader.FS) (x : reader.Input) : Prop :=
  match x with
  | reader.OsFile _ _ _ | reader.IoReader _ _ => True
  | reader.Path p => exists info, reader.Stat fs p = inl info
  | reader.Unsupported => False
  end.

Definition isHandle (x : reader.Input) : bool :=
  match x with
  | reader.OsFile _ _ _ | reader.IoReader _ _ => true
  | _ => false
  end.

Definition isPath (x : reader.Input) : bool :=
  match x with reader.Path _ => true | _ => false end.

(** The calls of [formatName] the goroutine makes on the inputs [xs]. *)
Definition countHandles (xs : list reader.Input) : nat :=
  length (filter (fun x => isHandle x = true) xs).

Definition isVisit (e : reader.WalkEntry) : bool :=
  match e with reader.Visit _ _ => true | reader.VisitErr _ _ => false end.

(** What the callback of [readDir] sends on one visit without error. *)
Definition sentOnVisit (fs : reader.FS) (e : reader.WalkEntry) : list File :=
  match e with
  | reader.Visit p info =>
      if negb (reader.IsDir info) then reader.readPath fs p else []
  | reader.VisitErr _ _ => []
  end.

(** A directory [src] with a Go file, a text file, a directory that
    cannot be opened and, after it, another Go file. *)
Definition sampleFS : reader.FS :=
  {| reader.Stat := fun p =>
       if String.eqb p "src" then inl {| reader.IsDir := true |}
       else if String.eqb p "src/a.go" then inl {| reader.IsDir := false |}
       else if String.eqb p "notes.txt" then inl {| reader.IsDir := false |}
       else inr ("stat " ++ p ++ ": no such file or directory");
     reader.ReadFile := fun p =>
       if String.eqb p "src/a.go" then ("package a" ++ nl, None)
       else if String.eqb p "src/z.go" then ("package z" ++ nl, None)
       else ("", Some ("open " ++ p ++ ": no such file or directory"));
     reader.Walk := fun p =>
       if String.eqb p "src" then
         [reader.Visit "src" {| reader.IsDir := true |};
          reader.Visit "src/a.go" {| reader.IsDir := false |};
          reader.Visit "src/notes.txt" {| reader.IsDir := false |};
          reader.VisitErr "src/private"
            "open src/private: permission denied";
          reader.Visit "src/z.go" {| reader.IsDir := false |}]
       else [] |}.

(** ** The orchestrator: what the log of a run tells *)

(** The error of the unit that was the first to settle with one. *)
Fixpoint firstFailure (l : list ErrFix.Event) : option error :=
  match l with
  | [] => None
  | ErrFix.Started _ :: older => firstFailure older
  | ErrFix.Settled _ r :: older =>
      match firstFailure older with
      | Some e => Some e
      | None => r
      end
  end.

(** The files whose units have settled, oldest first. *)
Fixpoint settledFiles (l : list ErrFix.Event) : list File :=
  match l with
  | [] => []
  | ErrFix.Started _ :: older => settledFiles older
  | ErrFix.Settled f _ :: older => (settledFiles older ++ [f])%list
  end.

(** What holds of every state of a run besides [ErrFix.loopInvariant]: at
    most [limit] units run, the group holds the first error, every unit
    started has settled or is running, every unit settled with the result
    of [fn] on its file, and once [Process] has returned nothing runs. *)
Definition groupInvariant (process : File -> File + error)
    (write : File -> File -> option error) (s : ErrFix.St) : Prop :=
  length (ErrFix.running s) <= ErrFix.limit /\
  ErrFix.groupErr s = firstFailure (ErrFix.log s) /\
  ErrFix.startedFiles (ErrFix.log s)
  ≡ₚ (settledFiles (ErrFix.log s) ++ ErrFix.running s)%list /\
  (forall f r, ErrFix.Settled f r ∈ ErrFix.log s ->
               r = ErrFix.fn process write f) /\
  (forall r, ErrFix.phase s = ErrFix.Returned r ->
             r = ErrFix.groupErr s /\ ErrFix.running s = []).

(** The state in which [Process] has returned after a run on an unreadable
    file followed by a readable one, the second unit having settled
    first. *)
Definition readFailure : error :=
  "error while reading from a.go, open a.go: permission denied".

Definition settledOutOfOrder : ErrFix.St :=
  {| ErrFix.ch := []; ErrFix.errCh := []; ErrFix.running := [];
     ErrFix.groupErr := Some readFailure;
     ErrFix.phase := ErrFix.Returned (Some readFailure);
     ErrFix.log :=
       [ErrFix.Settled unreadableFile (Some readFailure);
        ErrFix.Settled readableFile None;
        ErrFix.Started readableFile;
        ErrFix.Started unreadableFile] |}.

(** ** errfix.go: the diff writer

    github.com/pmezard/go-difflib/difflib is external to the repository
    and taken as an interface; of [difflib.UnifiedDiff] the fields [Write]
    sets are kept.  What the operating system answers to [os.Stat] and
    [os.WriteFile] is a parameter of each call. *)
Module difflib.
Record UnifiedDiff := {
  A : list string;
  B : list string;
  FromFile : string;
  ToFile : string;
  Context : nat
}.

Class Difflib := {
  SplitLines : string -> list string;
  GetUnifiedDiffString : UnifiedDiff -> string + error
}.
End difflib.

Module os.
Record Os := {
  Stat : string -> reader.FileInfo + error;
  WriteFile : string -> string -> option error
}.
End os.

(** DiffWriter implements the Writer interface, and it can generate diffs
    of old and new files.  The mutex guards the one statement that
    appends to the buffer, so concurrent calls append one after the other;
    a sequence of calls is taken in the order in which they append. *)
Module DiffWriter.
Record T := { write : bool; buf : string }.

Section Writer.
Context `{difflib.Difflib}.

Definition unifiedDiff (f f2 : File) : difflib.UnifiedDiff :=
  {| difflib.A := difflib.SplitLines (Content f);
     difflib.B := difflib.SplitLines (Content f2);
     difflib.FromFile := Name f ++ "#original";
     difflib.ToFile := Name f2 ++ "#current";
     difflib.Context := 3 |}.

(** Write writes the difference between the contents of two files to the
    buffer, and overwrites the old file with the new file when needed.
    The result is the writer after the call, the calls made to
    [os.WriteFile] as pairs of name and content, and the error
    returned. *)
Definition Write (o : os.Os) (w : T) (f f2 : File)
  : T * list (string * string) * option error :=
  match difflib.GetUnifiedDiffString (unifiedDiff f f2) with
  | inr err => (w, [], Some ("error while generating diff, " ++ err))
  | inl text =>
      let w' := {| write := write w; buf := buf w ++ text |} in
      if negb (String.eqb text "") && write w then
        match os.Stat o (Name f) with
        | inl fi =>
            if negb (reader.IsDir fi) then
              (w', [(Name f, Content f2)],
               os.WriteFile o (Name f) (Content f2))
            else (w', [], None)
        | inr _ => (w', [], None)
        end
      else (w', [], None)
  end.

(** DiffString returns the differences of files currently held in the
    buffer. *)
Definition DiffString (w : T) : string := buf w.

(** A sequence of calls of [Write] on one writer: the writer after them,
    the files written and the errors returned, in order. *)
Fixpoint Writes (w : T) (calls : list (os.Os * File * File))
  : T * list (string * string) * list (option error) :=
  match calls with
  | [] => (w, [], [])
  | (o, f, f2) :: rest =>
      let '(w1, written1, err1) := Write o w f f2 in
      let '(w2, written2, errs) := Writes w1 rest in
      (w2, (written1 ++ written2)%list, err1 :: errs)
  end.

(** The text a call appends to the buffer. *)
Definition appended (call : os.Os * File * File) : string :=
  match difflib.GetUnifiedDiffString (unifiedDiff call.1.2 call.2) with
  | inl text => text
  | inr _ => ""
  end.
End Writer.
End DiffWriter.

(** NewDiffWriter returns a DiffWriter structure. *)
Definition NewDiffWriter (write : bool) : DiffWriter.T :=
  {| DiffWriter.write := write; DiffWriter.buf := "" |}.

(** A difflib for examples: every text is one line, and the unified diff
    of two texts that differ is its two header lines. *)
Definition sampleDifflib : difflib.Difflib :=
  {| difflib.SplitLines := fun s => [s];
     difflib.GetUnifiedDiffString := fun d =>
       if String.eqb (String.concat "" (difflib.A d))
                     (String.concat "" (difflib.B d))
       then inl ""
       else inl ("--- " ++ difflib.FromFile d ++ nl ++
                 "+++ " ++ difflib.ToFile d ++ nl) |}.

(** An operating system that knows the file [b.go] and accepts every
    write. *)
Definition sampleOs : os.Os :=
  {| os.Stat := fun p =>
       if String.eqb p "b.go" then inl {| reader.IsDir := false |}
       else inr ("stat " ++ p ++ ": no such file or directory");
     os.WriteFile := fun _ _ => None |}.

(** ** dst.go: the short name of an import

    path: [Split] splits a path immediately following the final slash; its
    code is the standard library's, [i := lastSlash(path)] followed by
    [return path[:i+1], path[i+1:]], with no slash giving an empty
    directory. *)
Module path.
Definition slash : ascii := ascii_of_nat 47.

Fixpoint lastSlash (s : string) : option nat :=
  match s with
  | EmptyString => None
  | String c r =>
      match lastSlash r with
      | Some i => Some (S i)
      | None => if Ascii.eqb c slash then Some 0 else None
      end
  end.

Definition Split (p : string) : string * string :=
  match lastSlash p with
  | Some i =>
      (substring 0 (S i) p, substring (S i) (String.length p - S i) p)
  | None => ("", p)
  end.
End path.

(** importName returns the short name of a package. *)
Definition importName `{strconv.Strconv} (Name : option dst.Ident)
    (Path : dst.BasicLit) : string :=
  match Name with
  | Some id => dst.Name id
  | None => snd (path.Split (importPath Path))
  end.
(** * Properties *)

(** ** Basic facts about the predicates *)

Lemma isName_true (n : dst.Expr) (name : string) :
  isName n name = true <-> exists o, n = dst.Id {| dst.Name := name; dst.Obj := o |}.
Proof.
  split.
  - destruct n as [[nm o]| | | | | | | | |]; simpl; try discriminate.
    intros E. apply String.eqb_eq in E. subst. eauto.
  - intros [o ->]. simpl. apply String.eqb_refl.
Qed.

Lemma isName_errId (o : option dst.Object) (b : bool) :
  isName (errId o) (errIdent (rule b)) = true.
Proof. reflexivity. Qed.

Lemma setChanged_config (p : pkgErrorsDstProcessor) (b : bool) :
  pkgPath (setChanged p b) = pkgPath p /\
  errorsIdent (setChanged p b) = errorsIdent p /\
  errIdent (setChanged p b) = errIdent p /\
  nilIdent (setChanged p b) = nilIdent p.
Proof. repeat split. Qed.

Lemma lookup_last_app {A : Type} (init : list A) (x : A) :
  (init ++ [x])%list !! (length (init ++ [x])%list - 1) = Some x.
Proof.
  rewrite length_app. simpl.
  replace (length init + 1 - 1) with (length init + 0) by lia.
  rewrite lookup_app_r by lia.
  replace (length init + 0 - length init) with 0 by lia. reflexivity.
Qed.

Lemma insert_last_app {A : Type} (init : list A) (x y : A) :
  <[length (init ++ [x])%list - 1 := y]> (init ++ [x])%list
  = (init ++ [y])%list.
Proof.
  rewrite length_app. simpl.
  replace (length init + 1 - 1) with (length init + 0) by lia.
  rewrite insert_app_r. reflexivity.
Qed.

(** ** C1: the return rule *)

(** C1.  A return statement whose last result is the identifier [err] gets
    that result replaced by [errors.WithStack(err)], the earlier results
    staying as they are, and the rule reports a change; a return statement
    whose last result is anything else, and a return statement without
    results, is left as it is and no change is reported. *)
Theorem fixReturnStmt_wraps_last_err (b : bool) (init : list dst.Expr) :
  (forall o,
      fixReturnStmt (rule b) (init ++ [errId o])%list
      = ((init ++ [errorsCall "WithStack" [errId None]])%list, true)) /\
  (forall last,
      (forall o, last <> errId o) ->
      fixReturnStmt (rule b) (init ++ [last])%list
      = ((init ++ [last])%list, false)) /\
  fixReturnStmt (rule b) [] = ([], false).
Proof.
  split; [|split].
  - intros o. unfold fixReturnStmt.
    rewrite lookup_last_app, insert_last_app.
    destruct init; reflexivity.
  - intros last Hlast. unfold fixReturnStmt.
    rewrite lookup_last_app.
    assert (isName last (errIdent (rule b)) = false) as ->.
    { destruct (isName last (errIdent (rule b))) eqn:E; [|done].
      apply isName_true in E as [o ->]. by destruct (Hlast o). }
    destruct init; reflexivity.
  - reflexivity.
Qed.

(** [return 1, nil] is left alone. *)
Lemma fixReturnStmt_wraps_last_err_witness :
  fixReturnStmt (rule false) ([stringLit "1"] ++ [nilId None])%list
  = (([stringLit "1"] ++ [nilId None])%list, false).
Proof.
  apply (proj1 (proj2 (fixReturnStmt_wraps_last_err false [stringLit "1"]))).
  intros o. discriminate.
Defined.

(** ** C2 and C10: the if rule *)

Lemma recordChanged_rule (b c : bool) :
  recordChanged (rule b) c = rule (b || c).
Proof. reflexivity. Qed.

Lemma isName_nil_false (Y : dst.Expr) (p : pkgErrorsDstProcessor) :
  (forall o, Y <> dst.Id {| dst.Name := nilIdent p; dst.Obj := o |}) ->
  isName Y (nilIdent p) = false.
Proof.
  intros HY. destruct (isName Y (nilIdent p)) eqn:E; [|done].
  apply isName_true in E as [o ->]. by destruct (HY o).
Qed.

Lemma compareErr_sentinel (b : bool) o Op Y :
  Op = token.EQL \/ Op = token.NEQ ->
  (forall o', Y <> nilId o') ->
  compareErr (rule b) (errId o) Op Y false = true.
Proof.
  intros HOp HY. unfold compareErr.
  rewrite (isName_nil_false Y (rule b)) by exact HY.
  destruct HOp as [-> | ->]; reflexivity.
Qed.

Lemma compareErr_nil (b : bool) o Op o' :
  Op = token.EQL \/ Op = token.NEQ ->
  compareErr (rule b) (errId o) Op (nilId o') true = true.
Proof. intros [-> | ->]; reflexivity. Qed.

Lemma compareErr_nil_not_sentinel (b : bool) X Op o' :
  compareErr (rule b) X Op (nilId o') false = false.
Proof.
  unfold compareErr.
  destruct (isName X (errIdent (rule b)) &&
            (token.eqb Op token.EQL || token.eqb Op token.NEQ)); reflexivity.
Qed.

(** C2.  In an if statement, a condition [err == X] or [err != X] whose
    right operand is not the identifier [nil] gets its left operand
    replaced by [errors.Cause(err)], nothing else in the statement
    changing; a condition that compares [err] to [nil] and nothing else
    is left as it is; a condition [err != nil && err != X] or
    [err != nil || err != X] with [X] not [nil] gets the left operand of
    its second clause replaced by [errors.Cause(err)] and keeps its first
    clause. *)
Theorem fixIfStmt_compares_cause (b : bool) (Init Else : option dst.Stmt)
    (Body : list dst.Stmt) :
  (forall o Op X,
      Op = token.EQL \/ Op = token.NEQ ->
      (forall o', X <> nilId o') ->
      ProcessStmt (rule b)
        (dst.IfStmt Init (dst.BinaryExpr (errId o) Op X) Body Else)
      = (rule true,
         dst.IfStmt Init
           (dst.BinaryExpr (errorsCall "Cause" [errId None]) Op X)
           Body Else)) /\
  (forall o Op o1,
      ProcessStmt (rule b)
        (dst.IfStmt Init (dst.BinaryExpr (errId o) Op (nilId o1)) Body Else)
      = (rule b,
         dst.IfStmt Init (dst.BinaryExpr (errId o) Op (nilId o1))
                    Body Else)) /\
  (forall o o1 o2 Con X,
      Con = token.LAND \/ Con = token.LOR ->
      (forall o', X <> nilId o') ->
      ProcessStmt (rule b)
        (dst.IfStmt Init
           (dst.BinaryExpr (dst.BinaryExpr (errId o) token.NEQ (nilId o1))
                           Con (dst.BinaryExpr (errId o2) token.NEQ X))
           Body Else)
      = (rule true,
         dst.IfStmt Init
           (dst.BinaryExpr (dst.BinaryExpr (errId o) token.NEQ (nilId o1))
              Con
              (dst.BinaryExpr (errorsCall "Cause" [errId None]) token.NEQ X))
           Body Else)).
Proof.
  split; [|split].
  - intros o Op X HOp HX. simpl. rewrite compareErr_sentinel by assumption.
    rewrite recordChanged_rule, orb_true_r. reflexivity.
  - intros o Op o1. simpl. rewrite compareErr_nil_not_sentinel.
    rewrite recordChanged_rule, orb_false_r. reflexivity.
  - intros o o1 o2 Con X HCon HX. simpl.
    rewrite (compareErr_sentinel b o2 token.NEQ X) by auto.
    destruct HCon as [-> | ->]; simpl;
      rewrite recordChanged_rule, orb_true_r; reflexivity.
Qed.

(** C10.  The compound shape the rule accepts is wider than
    [err != nil && err != X]: the first clause may compare [err] to [nil]
    with [==] as well as with [!=], the second clause may compare [err]
    to the non-nil [X] with either operator, and the clauses may be
    joined by [&&] or by [||]; in each case the left operand of the
    second clause, and nothing else, is replaced by [errors.Cause(err)]. *)
Theorem fixIfStmt_compound_either_operator (b : bool)
    (Init Else : option dst.Stmt) (Body : list dst.Stmt)
    (o o1 o2 : option dst.Object) (OpA OpB Con : token.Token)
    (X : dst.Expr) :
  OpA = token.EQL \/ OpA = token.NEQ ->
  OpB = token.EQL \/ OpB = token.NEQ ->
  Con = token.LAND \/ Con = token.LOR ->
  (forall o', X <> nilId o') ->
  ProcessStmt (rule b)
    (dst.IfStmt Init
       (dst.BinaryExpr (dst.BinaryExpr (errId o) OpA (nilId o1)) Con
                       (dst.BinaryExpr (errId o2) OpB X))
       Body Else)
  = (rule true,
     dst.IfStmt Init
       (dst.BinaryExpr (dst.BinaryExpr (errId o) OpA (nilId o1)) Con
          (dst.BinaryExpr (errorsCall "Cause" [errId None]) OpB X))
       Body Else).
Proof.
  intros HA HB HCon HX. simpl.
  rewrite (compareErr_sentinel b o2 OpB X) by auto.
  rewrite (compareErr_nil b o OpA o1) by auto.
  destruct HCon as [-> | ->]; simpl;
    rewrite recordChanged_rule, orb_true_r; reflexivity.
Qed.

(** Replaying the repository's test [Cause#1]: [if err != ErrNotFound]. *)
Lemma fixIfStmt_compares_cause_witness :
  ProcessStmt (rule false)
    (dst.IfStmt None
       (dst.BinaryExpr (errId None) token.NEQ
                       (dst.Id (dst.NewIdent "ErrNotFound"))) [] None)
  = (rule true,
     dst.IfStmt None
       (dst.BinaryExpr (errorsCall "Cause" [errId None]) token.NEQ
                       (dst.Id (dst.NewIdent "ErrNotFound"))) [] None).
Proof.
  refine (proj1 (fixIfStmt_compares_cause false None None [])
            None token.NEQ (dst.Id (dst.NewIdent "ErrNotFound")) _ _);
    [right; reflexivity | intros o'; discriminate].
Defined.

(** [if err == nil || err != ErrX]. *)
Lemma fixIfStmt_compound_either_operator_witness :
  ProcessStmt (rule false)
    (dst.IfStmt None
       (dst.BinaryExpr
          (dst.BinaryExpr (errId None) token.EQL (nilId None)) token.LOR
          (dst.BinaryExpr (errId None) token.NEQ
                          (dst.Id (dst.NewIdent "ErrX")))) [] None)
  = (rule true,
     dst.IfStmt None
       (dst.BinaryExpr
          (dst.BinaryExpr (errId None) token.EQL (nilId None)) token.LOR
          (dst.BinaryExpr (errorsCall "Cause" [errId None]) token.NEQ
                          (dst.Id (dst.NewIdent "ErrX")))) [] None).
Proof.
  refine (fixIfStmt_compound_either_operator false None None [] None None None
            token.EQL token.NEQ token.LOR _ _ _ _ _);
    [left; reflexivity | right; reflexivity | right; reflexivity
    | intros o'; discriminate].
Defined.

(** ** Byte strings *)

Lemma length_append (s t : string) :
  String.length (s ++ t) = String.length s + String.length t.
Proof. induction s as [|c s IH]; simpl; [reflexivity | by rewrite IH]. Qed.

Lemma substring_all (s : string) : substring 0 (String.length s) s = s.
Proof. induction s as [|c s IH]; simpl; [reflexivity | by rewrite IH]. Qed.

Lemma substring_prefix (s t : string) :
  substring 0 (String.length s) (s ++ t) = s.
Proof.
  induction s as [|c s IH]; simpl.
  - destruct t; reflexivity.
  - by rewrite IH.
Qed.

Lemma substring_suffix (s t : string) :
  substring (String.length s) (String.length t) (s ++ t) = t.
Proof.
  induction s as [|c s IH]; simpl; [apply substring_all | exact IH].
Qed.

Lemma HasSuffix_append (s suffix : string) :
  strings.HasSuffix (s ++ suffix) suffix = true.
Proof.
  unfold strings.HasSuffix. rewrite length_append.
  replace (String.length s + String.length suffix - String.length suffix)
    with (String.length s) by lia.
  rewrite substring_suffix, String.eqb_refl, andb_true_r.
  apply Nat.leb_le. lia.
Qed.

Lemma substring_split (n : nat) (s : string) :
  n <= String.length s ->
  s = substring 0 n s ++ substring n (String.length s - n) s.
Proof.
  revert s. induction n as [|n IH]; intros s Hn.
  - rewrite Nat.sub_0_r, substring_all. by destruct s.
  - destruct s as [|c s]; simpl in *; [lia|].
    f_equal. apply IH. lia.
Qed.

Lemma HasSuffix_true (s suffix : string) :
  strings.HasSuffix s suffix = true ->
  s = substring 0 (String.length s - String.length suffix) s ++ suffix.
Proof.
  unfold strings.HasSuffix. intros E.
  apply andb_true_iff in E as [Hlen E].
  apply Nat.leb_le in Hlen. apply String.eqb_eq in E.
  pose proof (substring_split (String.length s - String.length suffix) s)
    as Hs.
  replace (String.length s - (String.length s - String.length suffix))
    with (String.length suffix) in Hs by lia.
  rewrite E in Hs. apply Hs. lia.
Qed.

Lemma TrimRight_allIn (cutset s : string) :
  allIn cutset s = true -> strings.TrimRight s cutset = "".
Proof.
  induction s as [|c s IH]; simpl; [done|].
  intros E. apply andb_true_iff in E as [Hc Hs].
  by rewrite IH, Hc.
Qed.

Lemma TrimRight_endsOutside (cutset s : string) :
  endsOutside cutset s = true -> strings.TrimRight s cutset = s.
Proof.
  induction s as [|c s IH]; simpl; [done|].
  destruct s as [|d s].
  - simpl. intros E. apply negb_true_iff in E. by rewrite E.
  - intros E. rewrite IH by exact E. reflexivity.
Qed.

Lemma TrimRight_append (cutset stem seps : string) :
  endsOutside cutset stem = true ->
  allIn cutset seps = true ->
  strings.TrimRight (stem ++ seps) cutset = stem.
Proof.
  intros Hstem Hseps. induction stem as [|c stem IH].
  - simpl. by apply TrimRight_allIn.
  - destruct stem as [|d stem].
    + simpl in *. rewrite TrimRight_allIn by exact Hseps.
      apply negb_true_iff in Hstem. by rewrite Hstem.
    + change (String c (String d stem) ++ seps)
        with (String c (String d stem ++ seps)).
      cbn [strings.TrimRight]. rewrite IH by exact Hstem. reflexivity.
Qed.

Lemma TrimRight_decompose (cutset s : string) :
  exists seps,
    s = strings.TrimRight s cutset ++ seps /\
    allIn cutset seps = true /\
    endsOutside cutset (strings.TrimRight s cutset) = true.
Proof.
  induction s as [|c s (seps & Hs & Hseps & Hends)]; simpl.
  - by exists "".
  - destruct (strings.TrimRight s cutset) as [|d t] eqn:E.
    + destruct (strings.contains cutset c) eqn:Hc.
      * exists (String c s). simpl. rewrite Hc. simpl in Hs. by subst seps.
      * exists s. simpl. rewrite Hc. simpl in Hs. by subst seps.
    + exists seps. simpl. split; [by rewrite Hs at 1|]. split; [done|].
      exact Hends.
Qed.

(** ** C3: the call rule *)

Lemma append_assoc (s t u : string) : (s ++ t) ++ u = s ++ t ++ u.
Proof. induction s as [|c s IH]; simpl; [reflexivity | by rewrite IH]. Qed.

Lemma isPkgSelector_fmt_not_errors (Fun : dst.Expr) (b : bool) :
  isPkgSelector Fun "fmt" "Errorf" = true ->
  isPkgSelector Fun (errorsIdent (rule b)) (newIdent (rule b)) = false.
Proof.
  destruct Fun as [| | | |X Sel| | | | |]; simpl; try discriminate.
  intros E. apply andb_true_iff in E as [_ E]. apply String.eqb_eq in E.
  rewrite E. simpl. apply andb_false_r.
Qed.

Lemma middleArgs_app (first last : dst.Expr) (mid : list dst.Expr) :
  middleArgs (first :: mid ++ [last]) = mid.
Proof.
  unfold middleArgs. simpl. rewrite length_app. simpl.
  replace (length mid + 1 - 0 - 1) with (length mid) by lia.
  rewrite drop_0. apply take_app_length.
Qed.

Lemma last_or_not {A : Type} (P : A -> Prop) (l : list A) :
  (forall x, P x \/ ~ P x) ->
  l = [] \/ (exists init x, l = (init ++ [x])%list /\ ~ P x) \/
  (exists init x, l = (init ++ [x])%list /\ P x).
Proof.
  intros dec. destruct l as [|y l _] using rev_ind; [by left|].
  right. destruct (dec y); [right | left]; eauto.
Qed.

Section CallRule.
Context `{strconv.Strconv}.

(** C3, as the code has it.  A call to [fmt.Errorf] whose first argument
    is a string literal that unquotes to [format] is rewritten: when
    [format] is [stem], then bytes among space, colon and comma, then
    [%v], with [stem] not ending in such a byte, and the last argument is
    the identifier [err], the call becomes [errors.Wrapf] applied to
    [err], the quoted [stem] and the arguments between the first and the
    last; when [format] does not end in [%v] or the last argument is not
    [err], the target becomes [errors.Errorf] and the arguments stay.  A
    call without arguments, or whose first argument is not a string
    literal that unquotes, is left as it is and no change is reported. *)
Theorem fixCallExpr_rewrites_literal_format (b : bool) (Fun : dst.Expr)
    (Args : list dst.Expr) :
  isPkgSelector Fun "fmt" "Errorf" = true ->
  (forall lit stem seps mid o,
      Args = (dst.Lit lit :: mid ++ [errId o])%list ->
      dst.Kind lit = token.STRING ->
      strconv.Unquote (dst.Value lit) = Some (stem ++ seps ++ "%v") ->
      endsOutside " :," stem = true ->
      allIn " :," seps = true ->
      fixCallExpr (rule b) Fun Args
      = ((errorsSel "Wrapf",
          errId o :: stringLit (strconv.Quote stem) :: mid), true)) /\
  (forall lit rest format,
      Args = dst.Lit lit :: rest ->
      dst.Kind lit = token.STRING ->
      strconv.Unquote (dst.Value lit) = Some format ->
      strings.HasSuffix format "%v" = false \/
      (forall mid o, rest <> (mid ++ [errId o])%list) ->
      fixCallExpr (rule b) Fun Args = ((errorsSel "Errorf", Args), true)) /\
  (Args = [] \/
   (exists first rest,
       Args = first :: rest /\
       forall lit, first = dst.Lit lit ->
                   dst.Kind lit <> token.STRING \/
                   strconv.Unquote (dst.Value lit) = None) ->
   fixCallExpr (rule b) Fun Args = ((Fun, Args), false)).
Proof.
  intros HFun. unfold fixCallExpr.
  rewrite (isPkgSelector_fmt_not_errors Fun b HFun), HFun.
  split; [|split].
  - intros lit stem seps mid o -> Hkind Hunq Hstem Hseps.
    cbn [lookup list_lookup]. rewrite Hkind, Hunq. cbn [token.eqb negb].
    change (dst.Lit lit :: mid ++ [errId o])%list
      with ((dst.Lit lit :: mid) ++ [errId o])%list.
    rewrite lookup_last_app.
    assert (Nat.leb 2 (length ((dst.Lit lit :: mid) ++ [errId o])%list)
            = true) as ->.
    { apply Nat.leb_le. rewrite length_app. simpl. lia. }
    rewrite isName_errId.
    rewrite <- append_assoc, HasSuffix_append.
    cbn [andb].
    change ((dst.Lit lit :: mid) ++ [errId o])%list
      with (dst.Lit lit :: mid ++ [errId o])%list.
    rewrite middleArgs_app.
    replace (String.length ((stem ++ seps) ++ "%v") - String.length "%v")
      with (String.length (stem ++ seps))
      by (rewrite (length_append (stem ++ seps)); simpl; lia).
    rewrite substring_prefix, TrimRight_append by assumption.
    reflexivity.
  - intros lit rest format -> Hkind Hunq Hnot.
    cbn [lookup list_lookup]. rewrite Hkind, Hunq. cbn [token.eqb negb].
    destruct (last_or_not (fun x => exists o, x = errId o) rest)
      as [-> | [(init & x & -> & Hx) | (init & x & -> & o & ->)]].
    + intros x. destruct (isName x "err") eqn:E.
      * left. apply isName_true in E as [o ->]. by exists o.
      * right. intros [o ->]. discriminate.
    + reflexivity.
    + change (dst.Lit lit :: init ++ [x])%list
        with ((dst.Lit lit :: init) ++ [x])%list.
      rewrite lookup_last_app.
      assert (isName x (errIdent (rule b)) = false) as ->.
      { destruct (isName x (errIdent (rule b))) eqn:E; [|done].
        apply isName_true in E as [o ->]. destruct Hx. by exists o. }
      rewrite andb_false_r. reflexivity.
    + destruct Hnot as [Hsuf | Hlast]; [|by destruct (Hlast init o)].
      change (dst.Lit lit :: init ++ [errId o])%list
        with ((dst.Lit lit :: init) ++ [errId o])%list.
      rewrite lookup_last_app, Hsuf, andb_false_r. reflexivity.
  - intros [-> | (first & rest & -> & Hfirst)]; [reflexivity|].
    cbn [lookup list_lookup].
    destruct first as [|lit| | | | | | | |]; try reflexivity.
    destruct (Hfirst lit eq_refl) as [Hkind | Hunq].
    + destruct (dst.Kind lit); try reflexivity. by destruct Hkind.
    + rewrite Hunq. destruct (negb _); reflexivity.
Qed.
End CallRule.

(** Replaying the repository's test [fmt.Errorf#1], sixth declaration:
    [fmt.Errorf("not found %d: %v", 1, err)]. *)
Lemma fixCallExpr_rewrites_literal_format_witness :
  @fixCallExpr plainStrconv (rule false) fmtErrorf
    [stringLit (plainQuote "not found %d: %v");
     dst.Lit {| dst.Kind := token.INT; dst.Value := "1" |}; errId None]
  = ((errorsSel "Wrapf",
      [errId None; stringLit (plainQuote "not found %d");
       dst.Lit {| dst.Kind := token.INT; dst.Value := "1" |}]), true).
Proof.
  refine (proj1 (@fixCallExpr_rewrites_literal_format plainStrconv false
                   fmtErrorf _ _)
            {| dst.Kind := token.STRING;
               dst.Value := plainQuote "not found %d: %v" |}
            "not found %d" ": "
            [dst.Lit {| dst.Kind := token.INT; dst.Value := "1" |}] None
            _ _ _ _ _); reflexivity.
Defined.

(** C3 as stated fails on [fmt.Errorf(msg)]: the first argument is not a
    string literal, and the call keeps its target [fmt.Errorf]. *)
Lemma fixCallExpr_keeps_nonliteral_format :
  let call := @fixCallExpr plainStrconv (rule false) fmtErrorf
                [dst.Id (dst.NewIdent "msg")] in
  call = ((fmtErrorf, [dst.Id (dst.NewIdent "msg")]), false) /\
  fst (fst call) <> errorsSel "Errorf" /\
  fst (fst call) <> errorsSel "Wrapf".
Proof. repeat split; discriminate. Qed.

(** ** The import table *)

Section ImportLemmas.
Context `{strconv.Strconv}.

Lemma findImportByPath_importsFrom (f : dst.File) (ipath : string)
    (pre rest : list dst.Decl) :
  dst.Decls f = (pre ++ rest)%list ->
  findImportByPath f (importsFrom (length pre) rest) ipath
  = findDecls (length pre) rest ipath.
Proof.
  revert pre. induction rest as [|d r IH]; intros pre Hf; [reflexivity|].
  assert (dst.Decls f = ((pre ++ [d]) ++ r)%list) as Hf'
      by (by rewrite <- app_assoc).
  specialize (IH (pre ++ [d])%list Hf').
  rewrite length_app in IH. simpl in IH.
  replace (length pre + 1) with (S (length pre)) in IH by lia.
  simpl. destruct (isImportDecl d) eqn:Hd; [|exact IH].
  simpl. rewrite Hf, list_lookup_middle by reflexivity. simpl.
  destruct (findInSpecs (length pre) 0 (declSpecs d) ipath); auto.
Qed.

Lemma findImportByPath_getImports (f : dst.File) (ipath : string) :
  findImportByPath f (getImports f) ipath = findDecls 0 (dst.Decls f) ipath.
Proof. exact (findImportByPath_importsFrom f ipath [] (dst.Decls f) eq_refl). Qed.

Lemma specCount_app ipath (l1 l2 : list dst.Spec) :
  specCount ipath (l1 ++ l2) = specCount ipath l1 + specCount ipath l2.
Proof. unfold specCount. by rewrite filter_app, length_app. Qed.

Lemma specCount_cons ipath (s : dst.Spec) (l : list dst.Spec) :
  specCount ipath (s :: l)
  = (if specHasPath ipath s then 1 else 0) + specCount ipath l.
Proof.
  unfold specCount. rewrite filter_cons.
  destruct (decide (specHasPath ipath s = true)) as [E|E].
  - by rewrite E.
  - apply not_true_is_false in E. by rewrite E.
Qed.

Lemma countDecls_app ipath (l1 l2 : list dst.Decl) :
  countDecls ipath (l1 ++ l2) = countDecls ipath l1 + countDecls ipath l2.
Proof.
  induction l1 as [|d l1 IH]; simpl; [reflexivity|]. rewrite IH. lia.
Qed.

(** Where a search within one declaration ends. *)
Lemma findInSpecs_spec (i j : nat) (Specs : list dst.Spec) (ipath : string) :
  match findInSpecs i j Specs ipath with
  | FoundAt i' j' =>
      i' = i /\
      exists spre Name Path spost,
        Specs = (spre ++ dst.ImportSpec Name Path :: spost)%list /\
        j' = j + length spre /\
        importPath Path = ipath /\
        specCount ipath spre = 0
  | NotFound =>
      specCount ipath Specs = 0 /\ forallb isImportSpec Specs = true
  | AssertPanic => forallb isImportSpec Specs = false
  end.
Proof.
  revert j. induction Specs as [|s Specs IH]; intros j; simpl; [done|].
  destruct s as [Name Path| |]; try reflexivity.
  destruct (String.eqb (importPath Path) ipath) eqn:E.
  - split; [done|]. exists [], Name, Path, Specs.
    apply String.eqb_eq in E. repeat split; [simpl; lia | done].
  - specialize (IH (S j)).
    destruct (findInSpecs i (S j) Specs ipath) as [i' j'| |].
    + destruct IH as [-> (spre & N & P & spost & -> & -> & HP & Hc)].
      split; [done|].
      exists (dst.ImportSpec Name Path :: spre), N, P, spost.
      repeat split; [simpl; lia | done |].
      rewrite specCount_cons. simpl. rewrite E. exact Hc.
    + destruct IH as [Hc Hwf]. split; [|done].
      rewrite specCount_cons. simpl. rewrite E. exact Hc.
    + exact IH.
Qed.

(** Where a search over the declarations ends. *)
Lemma findDecls_spec (i : nat) (ds : list dst.Decl) (ipath : string) :
  match findDecls i ds ipath with
  | FoundAt i' j =>
      exists pre Tok Specs lp rp post spre Name Path spost,
        ds = (pre ++ dst.GenDecl Tok Specs lp rp :: post)%list /\
        i' = i + length pre /\
        token.eqb Tok token.IMPORT = true /\
        Specs = (spre ++ dst.ImportSpec Name Path :: spost)%list /\
        j = length spre /\
        importPath Path = ipath /\
        countDecls ipath pre = 0 /\
        specCount ipath spre = 0
  | NotFound =>
      countDecls ipath ds = 0 /\
      forallb (fun d => if isImportDecl d
                        then forallb isImportSpec (declSpecs d) else true) ds
      = true
  | AssertPanic =>
      forallb (fun d => if isImportDecl d
                        then forallb isImportSpec (declSpecs d) else true) ds
      = false
  end.
Proof.
  revert i. induction ds as [|d ds IH]; intros i; simpl; [done|].
  specialize (IH (S i)).
  destruct (isImportDecl d) eqn:Hd.
  - pose proof (findInSpecs_spec i 0 (declSpecs d) ipath) as HS.
    destruct (findInSpecs i 0 (declSpecs d) ipath) as [i' j| |].
    + destruct HS as [-> (spre & N & P & spost & HSp & -> & HP & Hc)].
      destruct d as [Tok Specs lp rp| |]; try discriminate.
      simpl in HSp, Hd. subst Specs.
      exists [], Tok, (spre ++ dst.ImportSpec N P :: spost)%list, lp, rp, ds,
        spre, N, P, spost.
      repeat split; try done; simpl; lia.
    + destruct HS as [Hc Hwf].
      destruct (findDecls (S i) ds ipath) as [i' j| |].
      * destruct IH as (pre & Tok & Specs & lp & rp & post & spre & N & P
                        & spost & -> & -> & HT & -> & -> & HP & Hc' & Hs).
        exists (d :: pre), Tok, (spre ++ dst.ImportSpec N P :: spost)%list,
          lp, rp, post, spre, N, P, spost.
        repeat split; try done; [simpl; lia|].
        simpl. unfold countDecl. rewrite Hd, Hc. exact Hc'.
      * destruct IH as [IHc IHwf]. split.
        -- unfold countDecl. rewrite Hd, Hc. exact IHc.
        -- by rewrite Hwf, IHwf.
      * rewrite Hwf. exact IH.
    + by rewrite HS.
  - destruct (findDecls (S i) ds ipath) as [i' j| |].
    + destruct IH as (pre & Tok & Specs & lp & rp & post & spre & N & P
                      & spost & -> & -> & HT & -> & -> & HP & Hc & Hs).
      exists (d :: pre), Tok, (spre ++ dst.ImportSpec N P :: spost)%list,
        lp, rp, post, spre, N, P, spost.
      repeat split; try done; [simpl; lia|].
      simpl. unfold countDecl. rewrite Hd. exact Hc.
    + destruct IH as [IHc IHwf]. split; [|done].
      unfold countDecl. rewrite Hd. exact IHc.
    + exact IH.
Qed.
End ImportLemmas.

Lemma token_eqb_eq (a b : token.Token) : token.eqb a b = true -> a = b.
Proof. destruct a, b; simpl; congruence. Qed.

Lemma alter_middle {A : Type} (g : A -> A) (pre post : list A) (x : A) :
  alter g (length pre) (pre ++ x :: post)%list = (pre ++ g x :: post)%list.
Proof.
  induction pre as [|y pre IH]; [reflexivity|].
  simpl. f_equal. exact IH.
Qed.

Section EndProcessLemmas.
Context `{strconv.Strconv}.

Lemma countDecls_found ipath pre spre Name Path spost lp rp post :
  importPath Path = ipath ->
  1 <= countDecls ipath
         (pre ++ dst.GenDecl token.IMPORT
                   (spre ++ dst.ImportSpec Name Path :: spost) lp rp
              :: post)%list.
Proof.
  intros HP. rewrite countDecls_app. simpl. unfold countDecl. simpl.
  rewrite specCount_app, specCount_cons. simpl.
  rewrite HP, String.eqb_refl. lia.
Qed.

(** On a well-formed import table the search does not panic, and it
    finds a spec exactly when the count is positive. *)
Lemma findDecls_NotFound (f : dst.File) (ipath : string) :
  importsWellFormed f = true ->
  countImports f ipath = 0 ->
  findImportByPath f (getImports f) ipath = NotFound.
Proof.
  intros Hwf Hc. rewrite findImportByPath_getImports.
  pose proof (findDecls_spec 0 (dst.Decls f) ipath) as HS.
  destruct (findDecls 0 (dst.Decls f) ipath) as [i j| |]; [|done|].
  - destruct HS as (pre & Tok & Specs & lp & rp & post & spre & N & P
                    & spost & Hds & _ & HT & -> & _ & HP & _).
    apply token_eqb_eq in HT. subst Tok.
    pose proof (countDecls_found ipath pre spre N P spost lp rp post HP)
      as Hge.
    unfold countImports in Hc. rewrite Hds in Hc. lia.
  - unfold importsWellFormed in Hwf. congruence.
Qed.

Lemma findDecls_FoundAt (f : dst.File) (ipath : string) :
  importsWellFormed f = true ->
  0 < countImports f ipath ->
  exists i j, findImportByPath f (getImports f) ipath = FoundAt i j.
Proof.
  intros Hwf Hc. rewrite findImportByPath_getImports.
  pose proof (findDecls_spec 0 (dst.Decls f) ipath) as HS.
  destruct (findDecls 0 (dst.Decls f) ipath) as [i j| |]; [by eauto | |].
  - destruct HS as [HS _]. unfold countImports in Hc. lia.
  - unfold importsWellFormed in Hwf. congruence.
Qed.

Lemma importsFrom_spec (k : nat) (ds : list dst.Decl) :
  match importsFrom k ds with
  | [] => noImportDecl ds = true
  | i :: _ =>
      exists pre Specs lp rp post,
        ds = (pre ++ dst.GenDecl token.IMPORT Specs lp rp :: post)%list /\
        i = k + length pre /\ noImportDecl pre = true
  end.
Proof.
  revert k. induction ds as [|d ds IH]; intros k; simpl; [done|].
  destruct (isImportDecl d) eqn:Hd.
  - destruct d as [Tok Specs lp rp| |]; try discriminate.
    apply token_eqb_eq in Hd. subst Tok.
    exists [], Specs, lp, rp, ds. repeat split. simpl. lia.
  - specialize (IH (S k)). destruct (importsFrom (S k) ds) as [|i r].
    + unfold noImportDecl in *. cbn [forallb]. by rewrite IH.
    + destruct IH as (pre & Specs & lp & rp & post & -> & -> & Hpre).
      exists (d :: pre), Specs, lp, rp, post.
      repeat split; [simpl; lia|].
      unfold noImportDecl in *. cbn [forallb]. by rewrite Hd, Hpre.
Qed.

(** What [EndProcess] does to a well-formed file once the rule has
    recorded a change. *)
Lemma EndProcess_cases (f : dst.File) :
  importsWellFormed f = true ->
  exists f',
    EndProcess (rule true) f = Some (f', true) /\
    ((0 < countImports f "github.com/pkg/errors" /\ f' = f) \/
     (countImports f "github.com/pkg/errors" = 0 /\
      0 < countImports f "errors" /\ errorsImportReplaced f f') \/
     (countImports f "github.com/pkg/errors" = 0 /\
      countImports f "errors" = 0 /\
      (appendedToFirstGroup f f' \/ newGroupPrepended f f'))).
Proof.
  intros Hwf. unfold EndProcess.
  change (negb (changed (rule true))) with false. cbv iota.
  change (pkgPath (rule true)) with "github.com/pkg/errors".
  destruct (Nat.eq_dec (countImports f "github.com/pkg/errors") 0)
    as [Hpkg | Hpkg].
  - rewrite (findDecls_NotFound f _ Hwf Hpkg).
    destruct (Nat.eq_dec (countImports f "errors") 0) as [Herr | Herr].
    + rewrite (findDecls_NotFound f _ Hwf Herr).
      eexists. split; [reflexivity|]. right. right.
      split; [done|]. split; [done|].
      unfold addImport, getImports. simpl.
      pose proof (importsFrom_spec 0 (dst.Decls f)) as HI.
      destruct (importsFrom 0 (dst.Decls f)) as [|i r].
      * right. by split.
      * left. destruct HI as (pre & Specs & lp & rp & post & Hds & -> & Hpre).
        exists pre, Specs, lp, rp, post. split; [done|]. split; [done|].
        rewrite Hds. simpl. by rewrite alter_middle.
    + rewrite findImportByPath_getImports.
      pose proof (findDecls_spec 0 (dst.Decls f) "errors") as HS.
      destruct (findDecls 0 (dst.Decls f) "errors") as [i j| |].
      * destruct HS as (pre & Tok & Specs & lp & rp & post & spre & N & P
                        & spost & Hds & -> & HT & -> & -> & HP & Hc & Hs).
        apply token_eqb_eq in HT. subst Tok.
        eexists. split; [reflexivity|]. right. left.
        split; [done|]. split; [lia|].
        exists pre, spre, N, P, spost, lp, rp, post.
        repeat split; try done.
        rewrite Hds. simpl. rewrite alter_middle. simpl.
        by rewrite alter_middle.
      * destruct HS as [HS _]. unfold countImports in Herr. lia.
      * unfold importsWellFormed in Hwf. congruence.
  - destruct (findDecls_FoundAt f "github.com/pkg/errors" Hwf) as (i & j & ->);
      [lia|].
    exists f. split; [done|]. left. split; [lia | done].
Qed.
End EndProcessLemmas.

Section ImportCounts.
Context `{strconv.Strconv}.
Hypothesis Unquote_Quote_pkgPath :
  strconv.Unquote (strconv.Quote "github.com/pkg/errors")
  = Some "github.com/pkg/errors".

Lemma specHasPath_newImportSpec :
  specHasPath "github.com/pkg/errors" newImportSpec = true.
Proof.
  unfold specHasPath, newImportSpec, importPath. simpl.
  by rewrite Unquote_Quote_pkgPath.
Qed.

Lemma count_errorsImportReplaced (f f' : dst.File) :
  errorsImportReplaced f f' ->
  countImports f' "github.com/pkg/errors"
  = S (countImports f "github.com/pkg/errors").
Proof.
  intros (pre & spre & N & P & spost & lp & rp & post & Hds & HP & _ & _ & ->).
  unfold countImports. rewrite Hds. simpl.
  rewrite !countDecls_app. simpl. unfold countDecl. simpl.
  rewrite !specCount_app, !specCount_cons. simpl.
  unfold importPath at 1. simpl. rewrite Unquote_Quote_pkgPath, HP.
  simpl. lia.
Qed.

Lemma count_appendedToFirstGroup (f f' : dst.File) :
  appendedToFirstGroup f f' ->
  countImports f' "github.com/pkg/errors"
  = S (countImports f "github.com/pkg/errors").
Proof.
  intros (pre & Specs & lp & rp & post & Hds & _ & ->).
  unfold countImports. rewrite Hds. simpl.
  rewrite !countDecls_app. simpl. unfold countDecl. simpl.
  rewrite specCount_app, specCount_cons, specHasPath_newImportSpec.
  unfold specCount at 2. simpl. lia.
Qed.

Lemma count_newGroupPrepended (f f' : dst.File) :
  newGroupPrepended f f' ->
  countImports f' "github.com/pkg/errors"
  = S (countImports f "github.com/pkg/errors").
Proof.
  intros [_ ->]. unfold countImports. simpl. unfold countDecl at 1. simpl.
  rewrite specCount_cons, specHasPath_newImportSpec. reflexivity.
Qed.
End ImportCounts.

(** ** C4 and C5: the import reconciliation of [EndProcess] *)

Section EndProcessTheorems.
Context `{strconv.Strconv}.

(** C4, as the code has it.  When the rule has recorded a change, the
    wrap library is not imported and the standard [errors] package is,
    the first import spec of [errors] gets the path
    [github.com/pkg/errors] in place: it keeps its position in its
    declaration and the declaration keeps its position in the file, and
    nothing else in the file changes.  The name of that spec is set to
    nil, so an alias is removed, not preserved. *)
Theorem EndProcess_replaces_errors_import (f : dst.File) :
  importsWellFormed f = true ->
  countImports f "github.com/pkg/errors" = 0 ->
  0 < countImports f "errors" ->
  exists f',
    EndProcess (rule true) f = Some (f', true) /\
    errorsImportReplaced f f'.
Proof.
  intros Hwf Hpkg Herr.
  destruct (EndProcess_cases f Hwf)
    as (f' & HE & [[Hc _] | [(_ & _ & Hr) | (_ & Hc & _)]]); [lia | | lia].
  by exists f'.
Qed.

(** C5, as the code has it.  When the rule has recorded a change and
    quoting the wrap library's path unquotes to it again, finalize leaves
    the path imported once if it was imported at most once before, and as
    often as before otherwise.  If it was imported already the file is
    not touched; otherwise the first import of [errors] is replaced;
    otherwise a spec is appended to the first import declaration;
    otherwise a new import declaration is put in front of the
    declarations. *)
Theorem EndProcess_imports_pkg_once (f : dst.File) :
  strconv.Unquote (strconv.Quote "github.com/pkg/errors")
  = Some "github.com/pkg/errors" ->
  importsWellFormed f = true ->
  exists f',
    EndProcess (rule true) f = Some (f', true) /\
    countImports f' "github.com/pkg/errors"
    = Nat.max 1 (countImports f "github.com/pkg/errors") /\
    ((0 < countImports f "github.com/pkg/errors" /\ f' = f) \/
     (countImports f "github.com/pkg/errors" = 0 /\
      0 < countImports f "errors" /\ errorsImportReplaced f f') \/
     (countImports f "github.com/pkg/errors" = 0 /\
      countImports f "errors" = 0 /\
      (appendedToFirstGroup f f' \/ newGroupPrepended f f'))).
Proof.
  intros HQ Hwf.
  destruct (EndProcess_cases f Hwf) as (f' & HE & Hcases).
  exists f'. split; [exact HE|]. split; [|exact Hcases].
  destruct Hcases as [[Hc ->] | [(Hc & _ & Hr) | (Hc & _ & [Ha | Hp])]].
  - lia.
  - rewrite (count_errorsImportReplaced HQ f f' Hr). lia.
  - rewrite (count_appendedToFirstGroup HQ f f' Ha). lia.
  - rewrite (count_newGroupPrepended HQ f f' Hp). lia.
Qed.
End EndProcessTheorems.

(** The imports of the repository's test [errors.New#1]. *)
Lemma EndProcess_replaces_errors_import_witness :
  exists f',
    @EndProcess plainStrconv (rule true) errorsNewInput = Some (f', true) /\
    @errorsImportReplaced plainStrconv errorsNewInput f'.
Proof.
  apply (@EndProcess_replaces_errors_import plainStrconv errorsNewInput);
    [reflexivity | reflexivity | vm_compute; lia].
Defined.

Lemma EndProcess_imports_pkg_once_witness :
  exists f',
    @EndProcess plainStrconv (rule true) errorsNewInput = Some (f', true) /\
    @countImports plainStrconv f' "github.com/pkg/errors"
    = Nat.max 1 (@countImports plainStrconv errorsNewInput
                   "github.com/pkg/errors") /\
    ((0 < @countImports plainStrconv errorsNewInput "github.com/pkg/errors" /\
      f' = errorsNewInput) \/
     (@countImports plainStrconv errorsNewInput "github.com/pkg/errors" = 0 /\
      0 < @countImports plainStrconv errorsNewInput "errors" /\
      @errorsImportReplaced plainStrconv errorsNewInput f') \/
     (@countImports plainStrconv errorsNewInput "github.com/pkg/errors" = 0 /\
      @countImports plainStrconv errorsNewInput "errors" = 0 /\
      (@appendedToFirstGroup plainStrconv errorsNewInput f' \/
       @newGroupPrepended plainStrconv errorsNewInput f'))).
Proof.
  apply (@EndProcess_imports_pkg_once plainStrconv errorsNewInput);
    reflexivity.
Defined.

(** C4 as stated fails on a file with [import stderrors "errors"] that
    returns [err]: the import spec comes out with the new path and without
    its alias. *)
Lemma EndProcess_drops_import_alias :
  @processor.runRules plainStrconv newDstProcessors aliasedErrors false
  = Returns (aliasedErrorsOut, true) /\
  dst.Decls aliasedErrorsOut !! 0
  = Some (importDecl
            [dst.ImportSpec None (plainLit "github.com/pkg/errors")]) /\
  dst.Decls aliasedErrorsOut !! 0
  <> Some (importDecl
             [dst.ImportSpec (Some (dst.NewIdent "stderrors"))
                             (plainLit "github.com/pkg/errors")]).
Proof. split; [reflexivity|]. split; [reflexivity | discriminate]. Qed.

(** C5 as stated fails on a file that imports the wrap library twice and
    returns [err]: finalize leaves the imports alone and the path is still
    imported twice. *)
Lemma EndProcess_keeps_double_import :
  @processor.runRules plainStrconv newDstProcessors importedTwice false
  = Returns (importedTwiceOut, true) /\
  @countImports plainStrconv importedTwiceOut "github.com/pkg/errors" = 2.
Proof. split; reflexivity. Qed.

(** ** The traversal terminates *)

Lemma maxList_le {A : Type} (f : A -> nat) (l : list A) (k : nat) :
  maxList f l <= k -> Forall (fun x => f x <= k) l.
Proof.
  unfold maxList.
  induction l as [|x l IH]; simpl; intros Hk; constructor.
  - lia.
  - apply IH. lia.
Qed.

Lemma maxOpt_le {A : Type} (f : A -> nat) (o : option A) (k : nat) :
  maxOpt f o <= k -> forall x, o = Some x -> f x <= k.
Proof. intros Hk x ->. exact Hk. Qed.

Lemma bind_total {A B : Type} (m : option A) (f : A -> option B) :
  is_Some m -> (forall a, is_Some (f a)) -> is_Some (m ≫= f).
Proof. intros [a ->] Hf. simpl. apply Hf. Qed.

Section Termination.
Context `{strconv.Strconv}.

Lemma walkList_total {A : Type} (w : State -> A -> option (State * A))
    (l : list A) :
  Forall (fun x => forall p, is_Some (w p x)) l ->
  forall p, is_Some (walkList w p l).
Proof.
  induction 1 as [|x l Hx _ IH]; intros p; simpl; [by eexists|].
  apply bind_total; [apply Hx|]. intros [p1 x'].
  apply bind_total; [apply IH|]. intros [p2 l']. by eexists.
Qed.

Lemma walkOpt_total {A : Type} (w : State -> A -> option (State * A))
    (o : option A) :
  (forall x, o = Some x -> forall p, is_Some (w p x)) ->
  forall p, is_Some (walkOpt w p o).
Proof.
  intros Hw p. destruct o as [x|]; simpl; [|by eexists].
  apply bind_total; [by apply Hw|]. intros [p1 x']. by eexists.
Qed.

Lemma walkList_total_le {A : Type} (w : State -> A -> option (State * A))
    (d : A -> nat) (k : nat) (l : list A) :
  (forall p x, d x <= k -> is_Some (w p x)) ->
  maxList d l <= k ->
  forall p, is_Some (walkList w p l).
Proof.
  intros Hw Hl. apply walkList_total.
  eapply Forall_impl; [apply maxList_le, Hl|]. simpl. intros x Hx p.
  by apply Hw.
Qed.

(** An identifier or a literal is a leaf of the walk. *)
Lemma walkExpr_Id (k : nat) (p : State) (id : dst.Ident) :
  walkExpr (S k) p (dst.Id id) = Some (recordChanged p false, dst.Id id).
Proof. reflexivity. Qed.

Lemma walkExpr_Lit (k : nat) (p : State) (lit : dst.BasicLit) :
  walkExpr (S k) p (dst.Lit lit) = Some (recordChanged p false, dst.Lit lit).
Proof. reflexivity. Qed.

Lemma walkExpr_BinaryExpr (k : nat) (p : State) X Op Y :
  walkExpr (S k) p (dst.BinaryExpr X Op Y)
  = '(p1, X') ← walkExpr k (recordChanged p false) X;
    '(p2, Y') ← walkExpr k p1 Y;
    Some (p2, dst.BinaryExpr X' Op Y').
Proof. reflexivity. Qed.

(** The selector a rule builds needs two levels, the call three; the
    walk finds nothing to rewrite in them. *)
Lemma walkExpr_fresh_selector (k : nat) (p : State) (pkg sel : string) :
  exists p',
    walkExpr (S (S k)) p
      (dst.SelectorExpr (dst.Id (dst.NewIdent pkg)) (dst.NewIdent sel))
    = Some (p', dst.SelectorExpr (dst.Id (dst.NewIdent pkg))
                                 (dst.NewIdent sel)).
Proof. by eexists. Qed.

Lemma walkExpr_pkgCall (k : nat) (p : State) (pkg sel : string)
    (id : dst.Ident) :
  exists p',
    walkExpr (S (S (S k))) p (pkgCall pkg sel [dst.Id id])
    = Some (p', pkgCall pkg sel [dst.Id id]).
Proof.
  unfold pkgCall. cbn [walkExpr ProcessExpr]. unfold fixCallExpr.
  destruct (isPkgSelector _ (errorsIdent p) (newIdent p)); [by eexists|].
  destruct (isPkgSelector _ "fmt" "Errorf"); by eexists.
Qed.

(** What the rules leave in the fields they assign. *)
Lemma fixReturnStmt_cases (p : State) (Results Results' : list dst.Expr)
    (c : bool) :
  fixReturnStmt p Results = (Results', c) ->
  (Results' = Results /\ c = false) \/
  (exists x,
      Results !! (length Results - 1) = Some x /\
      isName x (errIdent p) = true /\
      Results' = <[length Results - 1 := withStackExpr p]> Results /\
      c = true).
Proof.
  unfold fixReturnStmt. intros E.
  destruct (Nat.eqb (length Results) 0); [inversion E; auto|].
  destruct (Results !! (length Results - 1)) as [x|]; [|inversion E; auto].
  destruct (isName x (errIdent p)) eqn:Ex; inversion E; subst; auto.
  right. by exists x.
Qed.

Lemma fixTypeAssertExpr_cases (p : State) (X X' : dst.Expr) (c : bool) :
  fixTypeAssertExpr p X = (X', c) ->
  (X' = X /\ c = false) \/
  (X' = causeExpr p /\ c = true /\ isName X (errIdent p) = true).
Proof.
  unfold fixTypeAssertExpr.
  destruct (isName X (errIdent p)); simpl; intros E; inversion E; auto.
Qed.

Lemma fixIfStmt_cases (p : State) (Cond Cond' : dst.Expr) (c : bool) :
  fixIfStmt p Cond = (Cond', c) ->
  (Cond' = Cond /\ c = false) \/
  (exists X Op Y,
      Cond = dst.BinaryExpr X Op Y /\
      Cond' = dst.BinaryExpr (causeExpr p) Op Y /\ c = true /\
      compareErr p X Op Y false = true) \/
  (exists XX XOp XY Op YX YOp YY,
      Cond = dst.BinaryExpr (dst.BinaryExpr XX XOp XY) Op
                            (dst.BinaryExpr YX YOp YY) /\
      Cond' = dst.BinaryExpr (dst.BinaryExpr XX XOp XY) Op
                             (dst.BinaryExpr (causeExpr p) YOp YY) /\
      c = true /\
      compareErr p (dst.BinaryExpr XX XOp XY) Op (dst.BinaryExpr YX YOp YY)
                 false = false /\
      (token.eqb Op token.LAND || token.eqb Op token.LOR) = true /\
      compareErr p XX XOp XY true = true /\
      compareErr p YX YOp YY false = true).
Proof.
  unfold fixIfStmt. intros E.
  destruct Cond as [| |X Op Y| | | | | | |]; try (inversion E; auto; fail).
  destruct (compareErr p X Op Y false) eqn:EC.
  - inversion E; subst. right. left. by exists X, Op, Y.
  - destruct X as [| |XX XOp XY| | | | | | |]; try (inversion E; auto; fail).
    destruct Y as [| |YX YOp YY| | | | | | |]; try (inversion E; auto; fail).
    destruct ((token.eqb Op token.LAND || token.eqb Op token.LOR) &&
              compareErr p XX XOp XY true &&
              compareErr p YX YOp YY false) eqn:EB;
      inversion E; subst; auto.
    right. right.
    apply andb_true_iff in EB as [EB E3].
    apply andb_true_iff in EB as [E1 E2].
    by exists XX, XOp, XY, Op, YX, YOp, YY.
Qed.

Lemma fixCallExpr_cases (p : State) (F F' : dst.Expr)
    (A A' : list dst.Expr) (c : bool) :
  fixCallExpr p F A = ((F', A'), c) ->
  (F' = F /\ A' = A) \/
  (isPkgSelector F "fmt" "Errorf" = true /\ c = true /\
   exists sel,
     F' = dst.SelectorExpr (dst.Id (dst.NewIdent (errorsIdent p)))
                           (dst.NewIdent sel) /\
     (sel = errorfIdent p \/ sel = wrapfIdent p) /\
     (A' = A \/
      exists lastArg lit,
        A !! (length A - 1) = Some lastArg /\
        A' = (lastArg :: dst.Lit lit :: middleArgs A)%list)).
Proof.
  unfold fixCallExpr. intros E.
  destruct (isPkgSelector F (errorsIdent p) (newIdent p));
    [inversion E; auto|].
  destruct (isPkgSelector F "fmt" "Errorf") eqn:EF; [|inversion E; auto].
  destruct (A !! 0) as [[|lit| | | | | | | |]|]; try (inversion E; auto; fail).
  destruct (negb (token.eqb (dst.Kind lit) token.STRING));
    [inversion E; auto|].
  destruct (strconv.Unquote (dst.Value lit)) as [format|];
    [|inversion E; auto].
  destruct (A !! (length A - 1)) as [lastArg|] eqn:EL; [|inversion E; auto].
  destruct (Nat.leb 2 (length A) && isName lastArg (errIdent p) &&
            strings.HasSuffix format "%v");
    inversion E; subst; right; (split; [done|]); (split; [done|]).
  - exists (wrapfIdent p). split; [done|]. split; [auto|]. right. eauto.
  - exists (errorfIdent p). split; [done|]. split; auto.
Qed.
End Termination.

Lemma isName_depth (x : dst.Expr) (name : string) :
  isName x name = true -> depthExpr x = 3.
Proof. intros E. apply isName_true in E as [o ->]. reflexivity. Qed.

Lemma compareErr_depth (p : State) (X : dst.Expr) Op Y yIsNil :
  compareErr p X Op Y yIsNil = true -> depthExpr X = 3.
Proof.
  unfold compareErr. destruct (isName X (errIdent p)) eqn:E; [|done].
  intros _. by apply isName_depth in E.
Qed.

Lemma isPkgSelector_depth (F : dst.Expr) (pkg name : string) :
  isPkgSelector F pkg name = true -> depthExpr F = 4.
Proof.
  destruct F as [| | | |X Sel| | | | |]; simpl; try discriminate.
  destruct X; simpl; try discriminate. reflexivity.
Qed.

Lemma maxList_lookup {A : Type} (f : A -> nat) (l : list A) (i : nat) (x : A) :
  l !! i = Some x -> f x <= maxList f l.
Proof.
  unfold maxList.
  revert i. induction l as [|y l IH]; intros [|i]; simpl; try discriminate.
  - intros [= ->]. lia.
  - intros E. specialize (IH i E). lia.
Qed.

Lemma maxList_take_drop {A : Type} (f : A -> nat) (l : list A) (n m : nat) :
  maxList f (take n (drop m l)) <= maxList f l.
Proof.
  assert (forall l' n', maxList f (take n' l') <= maxList f l') as Htake.
  { unfold maxList. induction l' as [|y l' IH]; intros [|n']; simpl; try lia.
    specialize (IH n'). lia. }
  assert (forall l' m', maxList f (drop m' l') <= maxList f l') as Hdrop.
  { unfold maxList. induction l' as [|y l' IH]; intros [|m']; simpl; try lia.
    specialize (IH m'). lia. }
  etrans; [apply Htake | apply Hdrop].
Qed.

Lemma maxList_fmap_const {A B : Type} (g : A -> B) (f : B -> nat) (c : nat)
    (l : list A) :
  (forall a, f (g a) = c) -> maxList f (g <$> l) <= c.
Proof.
  intros Hc. unfold maxList.
  induction l as [|a l IH]; csimpl; [lia|]. rewrite Hc. lia.
Qed.

Section Totality.
Context `{strconv.Strconv}.

Ltac chain tac :=
  repeat (apply bind_total; [tac | intros [? ?]; cbn beta iota]);
  try (by eexists).

(** With a bound of at least the depth of the tree, the walk reaches
    every node and returns. *)
Lemma walk_total (k : nat) :
  (forall p e, depthExpr e <= k -> is_Some (walkExpr k p e)) /\
  (forall p s, depthStmt s <= k -> is_Some (walkStmt k p s)) /\
  (forall p b, S (maxList depthStmt b) <= k -> is_Some (walkBody k p b)) /\
  (forall p s, depthSpec s <= k -> is_Some (walkSpec k p s)) /\
  (forall p d, depthDecl d <= k -> is_Some (walkDecl k p d)) /\
  (forall p n, depthNode n <= k -> is_Some (walkNode k p n)).
Proof.
  induction k as [k IH] using lt_wf_ind.
  destruct k as [|k].
  { repeat split; intros p n Hn; exfalso;
      try (destruct n; simpl in Hn; lia); lia. }
  destruct (IH k ltac:(lia)) as (IHE & IHS & IHB & IHSp & IHD & IHN).
  assert (forall p (l : list dst.Expr),
             maxList depthExpr l <= k -> is_Some (walkList (walkExpr k) p l))
    as IHEs.
  { intros p l Hl. by apply (walkList_total_le (walkExpr k) depthExpr k). }
  assert (forall p (l : list dst.Stmt),
             maxList depthStmt l <= k -> is_Some (walkList (walkStmt k) p l))
    as IHSs.
  { intros p l Hl. by apply (walkList_total_le (walkStmt k) depthStmt k). }
  assert (forall p (l : list dst.Node),
             maxList depthNode l <= k -> is_Some (walkList (walkNode k) p l))
    as IHNs.
  { intros p l Hl. by apply (walkList_total_le (walkNode k) depthNode k). }
  assert (forall p (o : option dst.Expr),
             maxOpt depthExpr o <= k -> is_Some (walkOpt (walkExpr k) p o))
    as IHEo.
  { intros p o Ho. apply walkOpt_total. intros x -> p'. by apply IHE. }
  assert (forall p (o : option dst.Stmt),
             maxOpt depthStmt o <= k -> is_Some (walkOpt (walkStmt k) p o))
    as IHSo.
  { intros p o Ho. apply walkOpt_total. intros x -> p'. by apply IHS. }
  split; [|split; [|split; [|split; [|split]]]].
  - (* expressions *)
    intros p e He. cbn [walkExpr].
    destruct e as [id|lit|X Op Y|F A el|X Sel|X T|X|Op X|T Body|kind ch];
      cbn [ProcessExpr]; cbn [depthExpr] in He.
    + by eexists.
    + by eexists.
    + chain ltac:(apply IHE; lia).
    + destruct (fixCallExpr p F A) as [[F' A'] c] eqn:E.
      apply fixCallExpr_cases in E
          as [[-> ->] | (HF & _ & sel & -> & _ & HA)].
      * chain ltac:(first [apply IHE; lia | apply IHEs; lia]).
      * apply isPkgSelector_depth in HF.
        destruct k as [|[|k]]; [lia | lia |].
        destruct (walkExpr_fresh_selector k (recordChanged p c)
                    (errorsIdent p) sel) as [p1 ->].
        cbn [mbind option_bind]. cbv beta iota.
        destruct HA as [-> | (lastArg & lit & HL & ->)].
        -- chain ltac:(apply IHEs; lia).
        -- chain ltac:(apply IHEs).
           cbn [maxList foldr]. fold (maxList depthExpr (middleArgs A)).
           pose proof (maxList_lookup depthExpr A _ lastArg HL).
           pose proof (maxList_take_drop depthExpr A (length A - 1 - 1) 1).
           unfold middleArgs. simpl. lia.
    + chain ltac:(apply IHE; simpl; lia).
    + destruct (fixTypeAssertExpr p X) as [X' c] eqn:E.
      apply fixTypeAssertExpr_cases in E as [[-> ->] | (-> & -> & HX)].
      * chain ltac:(first [apply IHE; lia | apply IHEo; lia]).
      * apply isName_depth in HX.
        destruct k as [|[|[|k]]]; try lia.
        destruct (walkExpr_pkgCall k (recordChanged p true) (errorsIdent p)
                    (causeIdent p) (dst.NewIdent (errIdent p))) as [p1 E].
        unfold causeExpr. rewrite E. cbn [mbind option_bind]. cbv beta iota.
        chain ltac:(apply IHEo; lia).
    + chain ltac:(apply IHE; lia).
    + chain ltac:(apply IHE; lia).
    + chain ltac:(first [apply IHE; lia | apply IHB; lia]).
    + chain ltac:(apply IHNs; lia).
  - (* statements *)
    intros p s Hs. cbn [walkStmt].
    destruct s as [Results|Init Cond Body Else|List|X|Lhs Tok Rhs|d|kind ch];
      cbn [ProcessStmt]; cbn [depthStmt] in Hs.
    + destruct (fixReturnStmt p Results) as [Results' c] eqn:E.
      apply fixReturnStmt_cases in E
          as [[-> ->] | (x & Hx & Hname & -> & ->)].
      * chain ltac:(apply IHEs; lia).
      * apply isName_depth in Hname.
        pose proof (maxList_lookup depthExpr Results _ x Hx) as Hle.
        chain ltac:(idtac).
        apply walkList_total. apply Forall_insert.
        -- eapply Forall_impl; [apply (maxList_le depthExpr _ k); lia|].
           simpl. intros y Hy q. by apply IHE.
        -- intros q. destruct k as [|[|[|k]]]; try lia.
           destruct (walkExpr_pkgCall k q (errorsIdent p) (withStackIdent p)
                       (dst.NewIdent (errIdent p))) as [p1 E].
           unfold withStackExpr. rewrite E. by eexists.
    + destruct (fixIfStmt p Cond) as [Cond' c] eqn:E.
      apply fixIfStmt_cases in E
          as [[-> ->]
             | [(X & Op & Y & -> & -> & -> & HC)
               | (XX & XOp & XY & Op & YX & YOp & YY & -> & -> & -> & _ & _
                  & _ & HC)]].
      * chain ltac:(first [apply IHE; lia | apply IHSo; lia | apply IHB; lia]).
      * apply compareErr_depth in HC. cbn [depthExpr] in Hs.
        destruct k as [|[|[|[|k]]]]; try lia.
        assert (forall q, is_Some (walkExpr (S (S (S (S k)))) q
                  (dst.BinaryExpr (causeExpr p) Op Y))) as HCond.
        { intros q. rewrite walkExpr_BinaryExpr.
          destruct (walkExpr_pkgCall k (recordChanged q false)
                      (errorsIdent p) (causeIdent p)
                      (dst.NewIdent (errIdent p))) as [p1 E].
          unfold causeExpr. rewrite E. cbn [mbind option_bind].
          cbv beta iota.
          destruct (IH (S (S (S k))) ltac:(lia)) as (IHE' & _).
          chain ltac:(apply IHE'; lia). }
        chain ltac:(first [apply HCond | apply IHSo; lia | apply IHB; lia]).
      * apply compareErr_depth in HC. cbn [depthExpr] in Hs.
        destruct k as [|[|[|[|[|k]]]]]; try lia.
        assert (forall q, is_Some (walkExpr (S (S (S (S (S k))))) q
                  (dst.BinaryExpr (dst.BinaryExpr XX XOp XY) Op
                     (dst.BinaryExpr (causeExpr p) YOp YY)))) as HCond.
        { intros q. rewrite walkExpr_BinaryExpr.
          destruct (IH (S (S (S (S k)))) ltac:(lia)) as (IHE4 & _).
          destruct (IH (S (S (S k))) ltac:(lia)) as (IHE' & _).
          apply bind_total; [apply IHE4; cbn [depthExpr]; lia|].
          intros [q1 X1]. cbn beta iota. rewrite walkExpr_BinaryExpr.
          destruct (walkExpr_pkgCall k (recordChanged q1 false)
                      (errorsIdent p) (causeIdent p)
                      (dst.NewIdent (errIdent p))) as [p1 E].
          unfold causeExpr. rewrite E. cbn [mbind option_bind].
          cbv beta iota.
          apply bind_total; [|intros [? ?]; by eexists].
          chain ltac:(apply IHE'; lia). }
        chain ltac:(first [apply HCond | apply IHSo; lia | apply IHB; lia]).
    + chain ltac:(apply IHSs; lia).
    + chain ltac:(apply IHE; lia).
    + chain ltac:(apply IHEs; lia).
    + chain ltac:(apply IHD; lia).
    + chain ltac:(apply IHNs; lia).
  - (* block fields *)
    intros p b Hb. cbn [walkBody ProcessStmt]. apply IHSs. lia.
  - (* specs *)
    intros p s Hs. cbn [walkSpec Process].
    destruct s as [Name Path|Names T Values|kind ch]; cbn [depthSpec] in Hs.
    + chain ltac:(first [apply IHEo; destruct Name; simpl; lia
                        | apply IHE; simpl; lia]).
    + chain ltac:(first [apply IHEo; lia | apply IHEs; lia | idtac]).
      apply IHEs.
      pose proof (maxList_fmap_const dst.Id depthExpr 3 Names
                    (fun _ => eq_refl)). lia.
    + chain ltac:(apply IHNs; lia).
  - (* declarations *)
    intros p d Hd. cbn [walkDecl Process].
    destruct d as [Tok Specs lp rp|Recv Name T Body|]; cbn [depthDecl] in Hd.
    + chain ltac:(idtac).
      apply (walkList_total_le (walkSpec k) depthSpec k); [exact IHSp | lia].
    + chain ltac:(first [apply IHE; simpl; lia | idtac]).
      * apply walkOpt_total. intros x -> q. apply IHN. simpl in Hd. lia.
      * apply walkOpt_total. intros x -> q. apply IHB. simpl in Hd. lia.
    + by eexists.
  - (* nodes *)
    intros p n Hn. cbn [walkNode].
    destruct n as [e|s|s|d|kind ch]; cbn [depthNode] in Hn.
    + chain ltac:(apply IHE; lia).
    + chain ltac:(apply IHS; lia).
    + chain ltac:(apply IHSp; lia).
    + chain ltac:(apply IHD; lia).
    + cbn [Process]. chain ltac:(apply IHNs; lia).
Qed.
End Totality.

(** ** C6: a file without matches is returned as it came *)

Section Controller.
Context `{strconv.Strconv} `{decorator.Decorator}.

Lemma Inspect_total (p : State) (df : dst.File) : is_Some (Inspect p df).
Proof.
  unfold Inspect, depthFile, walkFile.
  set (k := Nat.max 3 (maxList depthDecl (dst.Decls df))).
  destruct (walk_total k) as (IHE & _ & _ & _ & IHD & _).
  apply bind_total; [apply IHE; simpl; lia|]. intros [p1 ?].
  apply bind_total; [|intros [? ?]; by eexists].
  apply (walkList_total_le (walkDecl k) depthDecl k); [exact IHD | lia].
Qed.

Lemma EndProcess_unchanged (p : State) (df : dst.File) :
  changed p = false -> EndProcess p df = Some (df, false).
Proof. intros Hc. unfold EndProcess. by rewrite Hc. Qed.

Lemma EndProcess_flag (p : State) (df df' : dst.File) (ok : bool) :
  EndProcess p df = Some (df', ok) -> ok = changed p.
Proof.
  unfold EndProcess. destruct (changed p); simpl; [|by intros [= _ <-]].
  destruct (findImportByPath df (getImports df) (pkgPath p));
    [by intros [= _ <-] | | done].
  destruct (findImportByPath df (getImports df) "errors");
    [by intros [= _ <-] | by intros [= _ <-] | done].
Qed.

(** C6.  When the input parses and the rule object, after visiting every
    node of the tree, has recorded no change, [Process] returns a file
    with the name and the content of the input and no error, and its only
    call to the decorator is the parse.  Whenever a run of [Process]
    prints a tree, the rule object had recorded a change on that file. *)
Theorem Process_unchanged_returns_input (f : File) :
  (forall df,
      decorator.ParseFile (Name f) (Content f) = inl df ->
      (forall p' df',
          Inspect newPkgErrorsDstProcessor df = Some (p', df') ->
          changed p' = false) ->
      processor.Process f
      = ([CallParseFile (Name f) (Content f)],
         Returns {| Name := Name f; Content := Content f;
                    Error := None |})) /\
  (forall printed,
      CallFprint printed ∈ fst (processor.Process f) ->
      exists df p' df',
        decorator.ParseFile (Name f) (Content f) = inl df /\
        Inspect newPkgErrorsDstProcessor df = Some (p', df') /\
        changed p' = true).
Proof.
  split.
  - intros df HP Hno. unfold processor.Process. rewrite HP.
    unfold newDstProcessors. cbn [processor.runRules].
    destruct (Inspect_total newPkgErrorsDstProcessor df) as [[p' df'] E].
    rewrite E, (EndProcess_unchanged p' df' (Hno p' df' E)). reflexivity.
  - intros printed. unfold processor.Process.
    destruct (decorator.ParseFile (Name f) (Content f)) as [df|err] eqn:HP;
      [|simpl; intros Hin; apply list_elem_of_singleton in Hin; discriminate].
    unfold newDstProcessors. cbn [processor.runRules].
    destruct (Inspect newPkgErrorsDstProcessor df) as [[p' df']|] eqn:E;
      [|simpl; intros Hin; apply list_elem_of_singleton in Hin;
        discriminate].
    destruct (EndProcess p' df') as [[df'' ok]|] eqn:EE;
      [|simpl; intros Hin; apply list_elem_of_singleton in Hin;
        discriminate].
    apply EndProcess_flag in EE as ->. cbn [processor.runRules orb].
    destruct (changed p') eqn:Hc.
    + intros _. by exists df, p', df'.
    + simpl. intros Hin. apply list_elem_of_singleton in Hin. discriminate.
Qed.
End Controller.

(** The repository's test [Unchanged #1]. *)
Lemma Process_unchanged_returns_input_witness :
  @processor.Process plainStrconv testDecorator
    {| Name := "Unchanged #1"; Content := unchangedText; Error := None |}
  = ([CallParseFile "Unchanged #1" unchangedText],
     Returns {| Name := "Unchanged #1"; Content := unchangedText;
                Error := None |}).
Proof.
  refine (proj1 (@Process_unchanged_returns_input plainStrconv testDecorator
                   {| Name := "Unchanged #1"; Content := unchangedText;
                      Error := None |})
            unchangedTree _ _).
  - reflexivity.
  - intros p' df' E. vm_compute in E. by inversion E.
Defined.

(** ** C8: the reader *)

Lemma validate_first_failure (fs : reader.FS) (pre post : list reader.Input)
    (p : string) (err : error) :
  reader.validate fs pre = None ->
  reader.Stat fs p = inr err ->
  reader.validate fs (pre ++ reader.Path p :: post)%list
  = Some ("the input source is not a valid file or directory, " ++ err).
Proof.
  intros Hpre HS. induction pre as [|x pre IH]; simpl.
  - by rewrite HS.
  - destruct x as [name content e|content e|q|]; simpl in Hpre; auto.
    + destruct (reader.Stat fs q); [auto | discriminate].
    + discriminate.
Qed.

Lemma read_stat_error (fs : reader.FS) (i : nat) (inputs : list reader.Input)
    (p : string) (err : error) :
  reader.Path p ∈ inputs ->
  reader.Stat fs p = inr err ->
  {| Name := p; Content := ""; Error := Some err |} ∈ reader.read fs i inputs.
Proof.
  intros Hin HS. revert i.
  induction inputs as [|x inputs IH]; intros i; [by apply elem_of_nil in Hin|].
  apply elem_of_cons in Hin as [<- | Hin].
  - simpl. rewrite HS. apply elem_of_cons. by left.
  - specialize (IH Hin).
    destruct x as [name content e|content e|q|]; simpl.
    + apply elem_of_cons. right. apply IH.
    + apply elem_of_cons. right. apply IH.
    + destruct (reader.Stat fs q).
      * apply elem_of_app. right. apply IH.
      * apply elem_of_cons. right. apply IH.
    + apply IH.
Qed.

Lemma read_handle_error (fs : reader.FS) (i : nat)
    (inputs : list reader.Input) (x : reader.Input) (content : string)
    (e : error) :
  x ∈ inputs ->
  (exists name, x = reader.OsFile name content (Some e)) \/
  x = reader.IoReader content (Some e) ->
  exists n, {| Name := n; Content := content; Error := Some e |}
            ∈ reader.read fs i inputs.
Proof.
  intros Hin Hx. revert i.
  induction inputs as [|y inputs IH]; intros i; [by apply elem_of_nil in Hin|].
  apply elem_of_cons in Hin as [<- | Hin].
  - destruct Hx as [[name ->] | ->]; simpl; eexists; apply elem_of_cons;
      by left.
  - specialize (IH Hin).
    destruct y as [name c' e'|c' e'|q|]; simpl.
    + destruct (IH (S i)) as [n Hn]. exists n. apply elem_of_cons. by right.
    + destruct (IH (S i)) as [n Hn]. exists n. apply elem_of_cons. by right.
    + destruct (IH i) as [n Hn]. exists n.
      destruct (reader.Stat fs q).
      * apply elem_of_app. by right.
      * apply elem_of_cons. by right.
    + apply IH.
Qed.




(** ** C9: the orchestrator *)

Section OrchestratorLemmas.
Variable process : File -> File + error.
Variable write : File -> File -> option error.

Lemma step_errCh (c : ErrFix.Choice) (s s' : ErrFix.St) :
  ErrFix.step process write c s = Some s' -> ErrFix.errCh s = [] -> ErrFix.errCh s' = [].
Proof.
  intros Hs He. unfold ErrFix.step in Hs.
  destruct c, (ErrFix.phase s); try discriminate;
    repeat match type of Hs with
           | context [match ?x with _ => _ end] => destruct x eqn:?
           end;
    try discriminate; inversion Hs; subst; simpl; congruence.
Qed.

(** Nothing sends on [errCh]: in every state a run reaches its buffer is
    empty, so the case [err = <-errCh] of the select is never ready. *)
Lemma run_errCh_empty (cs : list ErrFix.Choice) (s s' : ErrFix.St) :
  ErrFix.run process write cs s = Some s' -> ErrFix.errCh s = [] ->
  ErrFix.errCh s' = [] /\
  ErrFix.step process write ErrFix.ReceiveErr s' = None.
Proof.
  revert s. induction cs as [|c cs IH]; intros s; simpl.
  - intros [= ->] He. split; [done|].
    unfold ErrFix.step. rewrite He. by destruct (ErrFix.phase s').
  - destruct (ErrFix.step process write c s) as [s1|] eqn:E; simpl; [|discriminate].
    intros Hr He. apply (IH s1 Hr). by apply (step_errCh c s).
Qed.

Lemma step_loopInvariant (stream : list File) (c : ErrFix.Choice)
    (s s' : ErrFix.St) :
  ErrFix.step process write c s = Some s' ->
  ErrFix.loopInvariant stream s -> ErrFix.loopInvariant stream s'.
Proof.
  intros Hs (He & Hst & Hch). unfold ErrFix.step in Hs.
  destruct c, (ErrFix.phase s) eqn:Hph; try discriminate;
    repeat match type of Hs with
           | context [match ?x with _ => _ end] => destruct x eqn:?
           end;
    try discriminate; inversion Hs; subst; clear Hs;
    unfold ErrFix.loopInvariant; simpl;
    repeat split; try congruence; try (intros; congruence);
    try (rewrite ?Hph in *; auto; fail).
  by rewrite <- app_assoc.
Qed.

(** A run that returns has started a unit for every file of the stream,
    whatever the units returned and in whatever order they settled. *)
Lemma run_starts_whole_stream (stream : list File)
    (cs : list ErrFix.Choice) (s : ErrFix.St) (r : option error) :
  ErrFix.run process write cs (ErrFix.init stream) = Some s ->
  ErrFix.phase s = ErrFix.Returned r ->
  ErrFix.startedFiles (ErrFix.log s) = stream.
Proof.
  intros Hrun Hph.
  assert (ErrFix.loopInvariant stream s) as (_ & Hst & Hch).
  { assert (ErrFix.loopInvariant stream (ErrFix.init stream)) as Hinit
        by (by repeat split).
    revert Hrun Hinit. generalize (ErrFix.init stream).
    induction cs as [|c cs IH]; intros s0; simpl.
    - by intros [= ->].
    - destruct (ErrFix.step process write c s0) as [s1|] eqn:E; simpl;
        [|discriminate].
      intros Hr Hi. apply (IH s1 Hr). by apply (step_loopInvariant _ c s0). }
  rewrite Hch in Hst by congruence. by rewrite app_nil_r in Hst.
Qed.
End OrchestratorLemmas.

(** C9 on the stream of an unreadable file followed by a readable one.
    The unit of the first file settles with its error; the loop then still
    receives the second file and starts its unit (the select has no other
    ready case, as nothing sends on [errCh]); [wg.Wait] returns the first
    error after both units have settled. *)
Theorem Process_schedules_after_failure :
  let process := fun f : File => inl f in
  let write := fun _ _ : File => @None error in
  let failure := "error while reading from a.go, open a.go: permission denied"
  in
  exists s,
    ErrFix.run process write
      [ErrFix.Receive; ErrFix.Finish 0; ErrFix.Receive; ErrFix.Finish 0;
       ErrFix.Closed; ErrFix.Return]
      (ErrFix.init [unreadableFile; readableFile]) = Some s /\
    ErrFix.phase s = ErrFix.Returned (Some failure) /\
    ErrFix.log s
    = [ErrFix.Settled readableFile None; ErrFix.Started readableFile;
       ErrFix.Settled unreadableFile (Some failure);
       ErrFix.Started unreadableFile] /\
    ErrFix.startedAfterFailure (ErrFix.log s) = true.
Proof. eexists. repeat split. Qed.

(** ** Re-running the rules on their own output *)

Lemma isName_shape (n n' : dst.Expr) (name : string) :
  shape n' = shape n -> isName n' name = isName n name.
Proof.
  destruct n, n'; simpl; try discriminate; try reflexivity.
  by intros [= ->].
Qed.

Lemma isTopName_shape (n n' : dst.Expr) (name : string) :
  shape n' = shape n -> isTopName n' name = isTopName n name.
Proof.
  destruct n, n'; simpl; try discriminate; try reflexivity.
  by intros [= ->].
Qed.

Lemma isPkgSelector_shape (n n' : dst.Expr) (pkg name : string) :
  shape n' = shape n -> isPkgSelector n' pkg name = isPkgSelector n pkg name.
Proof.
  destruct n, n'; simpl; try discriminate; try reflexivity.
  intros [= HX ->]. by rewrite (isTopName_shape _ _ _ HX).
Qed.

Lemma compareErr_shape (p : State) X X' Op Y Y' yIsNil :
  shape X' = shape X -> shape Y' = shape Y ->
  compareErr p X' Op Y' yIsNil = compareErr p X Op Y yIsNil.
Proof.
  intros HX HY. unfold compareErr.
  by rewrite (isName_shape X X' _ HX), (isName_shape Y Y' _ HY).
Qed.

Section Stability.
Context `{strconv.Strconv}.

(** *** The if rule *)

Lemma fixIfStmt_unchanged (p : State) (Cond Cond' : dst.Expr) :
  fixIfStmt p Cond = (Cond', false) -> Cond' = Cond.
Proof.
  intros E. apply fixIfStmt_cases in E as [[-> _] | [E | E]]; [done| |].
  - by destruct E as (? & ? & ? & _ & _ & ? & _).
  - by destruct E as (? & ? & ? & ? & ? & ? & ? & _ & _ & ? & _).
Qed.

Lemma fixIfStmt_flag_shape (p : State) (Cond Cond' : dst.Expr) :
  shape Cond' = shape Cond ->
  snd (fixIfStmt p Cond') = snd (fixIfStmt p Cond).
Proof.
  intros HS.
  destruct Cond as [| |X Op Y| | | | | | |], Cond' as [| |X' Op' Y'| | | | | | |];
    simpl in HS; try discriminate; try reflexivity.
  injection HS as HX -> HY. simpl.
  rewrite (compareErr_shape p X X' Op Y Y' false HX HY).
  destruct (compareErr p X Op Y false); [reflexivity|].
  destruct X as [| |XX XOp XY| | | | | | |], X'
      as [| |XX' XOp' XY'| | | | | | |];
    simpl in HX; try discriminate; try reflexivity;
    try (destruct Y; reflexivity); try (destruct Y'; reflexivity).
  injection HX as HXX -> HXY.
  destruct Y as [| |YX YOp YY| | | | | | |], Y'
      as [| |YX' YOp' YY'| | | | | | |];
    simpl in HY; try discriminate; try reflexivity.
  injection HY as HYX -> HYY.
  rewrite (compareErr_shape p XX XX' XOp XY XY' true HXX HXY).
  rewrite (compareErr_shape p YX YX' YOp YY YY' false HYX HYY).
  by destruct (_ && _ && _).
Qed.

Lemma compareErr_cause (p : State) Op Y yIsNil :
  compareErr p (causeExpr p) Op Y yIsNil = false.
Proof. reflexivity. Qed.

(** The condition the rule leaves does not match the rule again. *)
Lemma fixIfStmt_settled (p : State) (Cond Cond1 : dst.Expr) (d : bool) :
  fixIfStmt p Cond = (Cond1, d) -> snd (fixIfStmt p Cond1) = false.
Proof.
  intros E. pose proof E as E'.
  apply fixIfStmt_cases in E
      as [[-> ->]
         | [(X & Op & Y & -> & -> & -> & HC)
           | (XX & XOp & XY & Op & YX & YOp & YY & -> & -> & -> & HC0 & _ & _
              & _)]].
  - by rewrite E'.
  - cbn [fixIfStmt]. rewrite compareErr_cause. unfold causeExpr, pkgCall.
    reflexivity.
  - cbn [fixIfStmt].
    assert (compareErr p (dst.BinaryExpr XX XOp XY) Op
              (dst.BinaryExpr (causeExpr p) YOp YY) false = false) as ->
        by reflexivity.
    rewrite compareErr_cause, andb_false_r. reflexivity.
Qed.

Lemma fixIfStmt_second_run (p : State) (Cond Cond1 Cond2 : dst.Expr)
    (d : bool) :
  fixIfStmt p Cond = (Cond1, d) ->
  shape Cond2 = shape Cond1 ->
  fixIfStmt p Cond2 = (Cond2, false).
Proof.
  intros E HS.
  pose proof (fixIfStmt_flag_shape p Cond1 Cond2 HS) as HF.
  rewrite (fixIfStmt_settled p Cond Cond1 d E) in HF.
  destruct (fixIfStmt p Cond2) as [Cond3 d3] eqn:E2. simpl in HF. subst d3.
  by rewrite (fixIfStmt_unchanged p Cond2 Cond3 E2).
Qed.

(** *** The type assertion rule *)

Lemma fixTypeAssertExpr_second_run (p : State) (X X1 X2 : dst.Expr)
    (d : bool) :
  fixTypeAssertExpr p X = (X1, d) ->
  shape X2 = shape X1 ->
  fixTypeAssertExpr p X2 = (X2, false).
Proof.
  intros E HS. unfold fixTypeAssertExpr in *.
  rewrite (isName_shape X1 X2 _ HS).
  destruct (isName X (errIdent p)) eqn:EX; simpl in E; inversion E; subst.
  - reflexivity.
  - by rewrite EX.
Qed.

(** *** The return rule *)

Lemma fixReturnStmt_second_run (p : State) (Rs Rs1 Rs2 : list dst.Expr)
    (d : bool) :
  fixReturnStmt p Rs = (Rs1, d) ->
  Forall2 sameShape Rs1 Rs2 ->
  fixReturnStmt p Rs2 = (Rs2, false).
Proof.
  intros E HS. pose proof (Forall2_length _ _ _ HS) as HL.
  assert (forall x2, Rs2 !! (length Rs2 - 1) = Some x2 ->
                     isName x2 (errIdent p) = false) as Hlast.
  { intros x2 H2.
    destruct (Forall2_lookup_r _ _ _ _ _ HS H2) as (x1 & H1 & Hx).
    rewrite (isName_shape x1 x2 _ Hx). rewrite <- HL in H1.
    unfold fixReturnStmt in E.
    destruct (Nat.eqb (length Rs) 0) eqn:E0.
    - inversion E; subst. apply Nat.eqb_eq in E0.
      apply lookup_lt_Some in H1. lia.
    - destruct (Rs !! (length Rs - 1)) as [x|] eqn:Ex.
      + destruct (isName x (errIdent p)) eqn:En; simpl in E; inversion E; subst.
        * rewrite length_insert in H1.
          rewrite list_lookup_insert_eq in H1
            by (apply lookup_lt_Some in Ex; lia).
          by inversion H1.
        * congruence.
      + inversion E; subst. congruence. }
  unfold fixReturnStmt.
  destruct (Nat.eqb (length Rs2) 0); [reflexivity|].
  destruct (Rs2 !! (length Rs2 - 1)) as [x2|] eqn:E2; [|reflexivity].
  by rewrite (Hlast x2 eq_refl).
Qed.

(** *** The call rule *)

Lemma callRewrites_false (p : State) (F : dst.Expr) (A : list dst.Expr) :
  callRewrites p F A = false ->
  fixCallExpr p F A
  = ((F, A), isPkgSelector F (errorsIdent p) (newIdent p)).
Proof.
  unfold callRewrites, fixCallExpr.
  destruct (isPkgSelector F (errorsIdent p) (newIdent p)); [reflexivity|].
  destruct (isPkgSelector F "fmt" "Errorf"); [|reflexivity].
  destruct (A !! 0) as [[|lit| | | | | | | |]|]; try reflexivity.
  destruct (token.eqb (dst.Kind lit) token.STRING); [|reflexivity].
  destruct (strconv.Unquote (dst.Value lit)); [discriminate | reflexivity].
Qed.

Lemma callRewrites_shape (p : State) (F F' : dst.Expr)
    (A A' : list dst.Expr) :
  shape F' = shape F ->
  Forall2 sameShape A A' ->
  callRewrites p F' A' = callRewrites p F A.
Proof.
  intros HF HA. unfold callRewrites.
  rewrite !(isPkgSelector_shape F F' _ _ HF). f_equal.
  destruct HA as [|a a' A A' Ha _]; [reflexivity|]. simpl.
  unfold sameShape in Ha.
  destruct a, a'; simpl in Ha; try discriminate; try reflexivity.
  by injection Ha as ->.
Qed.

(** What the rule leaves is not rewritten again; it is flagged again only
    if it is a call of [errors.New], which was flagged before. *)
Lemma fixCallExpr_settled (b : bool) (F F1 : dst.Expr)
    (A A1 : list dst.Expr) (d : bool) :
  fixCallExpr (rule b) F A = ((F1, A1), d) ->
  callRewrites (rule b) F1 A1 = false.
Proof.
  intros E. pose proof E as E'.
  apply fixCallExpr_cases in E
      as [[-> ->] | (HF & -> & sel & -> & [-> | ->] & _)];
    [|reflexivity|reflexivity].
  destruct (callRewrites (rule b) F A) eqn:ER; [|reflexivity].
  exfalso. unfold callRewrites in ER. unfold fixCallExpr in E'.
  destruct (isPkgSelector F (errorsIdent (rule b)) (newIdent (rule b)));
    [discriminate|].
  destruct (isPkgSelector F "fmt" "Errorf") eqn:EF; [|discriminate].
  destruct (A !! 0) as [[|lit| | | | | | | |]|] eqn:E0; try discriminate.
  simpl in ER.
  destruct (token.eqb (dst.Kind lit) token.STRING); [|discriminate].
  destruct (strconv.Unquote (dst.Value lit)); [|discriminate].
  simpl in E'.
  assert (is_Some (A !! (length A - 1))) as [lastArg EL].
  { apply lookup_lt_is_Some. apply lookup_lt_Some in E0. lia. }
  rewrite EL in E'.
  destruct (_ && _ && _); inversion E'; subst; discriminate.
Qed.

Lemma fixCallExpr_second_run (b c : bool) (F F1 F2 : dst.Expr)
    (A A1 A2 : list dst.Expr) (d : bool) :
  fixCallExpr (rule b) F A = ((F1, A1), d) ->
  shape F2 = shape F1 ->
  Forall2 sameShape A1 A2 ->
  fixCallExpr (rule c) F2 A2
  = ((F2, A2), isPkgSelector F2 "errors" "New").
Proof.
  intros E HF HA.
  apply (callRewrites_false (rule c)).
  rewrite (callRewrites_shape (rule c) F1 F2 A1 A2 HF HA).
  exact (fixCallExpr_settled b F F1 A A1 d E).
Qed.

(** *** Lists and optional fields *)

Lemma rule_or_false (b : bool) : rule b = rule (b || false).
Proof. by rewrite orb_false_r. Qed.

Lemma stable_walkList {A : Type} (w : State -> A -> option (State * A))
    (rel : A -> A -> Prop) :
  stable w rel ->
  forall b l p' l',
    walkList w (rule b) l = Some (p', l') ->
    (exists d, p' = rule (b || d)) /\ Forall2 rel l l' /\
    Forall (settled w) l'.
Proof.
  intros Hw b l. revert b.
  induction l as [|x l IH]; intros b p' l'; simpl.
  - intros [= <- <-]. split; [exists false; apply rule_or_false|].
    split; constructor.
  - destruct (w (rule b) x) as [[p1 x']|] eqn:E1; simpl; [|discriminate].
    apply Hw in E1 as ([d1 ->] & Hrel & Hset).
    destruct (walkList w (rule (b || d1)) l) as [[p2 r']|] eqn:E2; simpl;
      [|discriminate].
    apply IH in E2 as ([d2 ->] & Hrels & Hsets).
    intros [= <- <-]. split; [|split].
    + exists (d1 || d2). by rewrite orb_assoc.
    + by constructor.
    + by constructor.
Qed.

Lemma settled_walkList {A : Type} (w : State -> A -> option (State * A))
    (l : list A) :
  Forall (settled w) l -> settled (walkList w) l.
Proof.
  induction 1 as [|x l [d Hx] _ [ds IH]].
  - exists false. intros c. simpl. by rewrite orb_false_r.
  - exists (d || ds). intros c. simpl. rewrite Hx. simpl. rewrite IH. simpl.
    by rewrite orb_assoc.
Qed.

Lemma stable_walkOpt {A : Type} (w : State -> A -> option (State * A))
    (rel : A -> A -> Prop) :
  stable w rel ->
  stable (walkOpt w) (option_Forall2 rel).
Proof.
  intros Hw b [x|] p' o'; simpl.
  - destruct (w (rule b) x) as [[p1 x']|] eqn:E1; simpl; [|discriminate].
    apply Hw in E1 as ([d1 ->] & Hrel & [d' Hset]).
    intros [= <- <-]. split; [by exists d1|]. split; [by constructor|].
    exists d'. intros c. simpl. by rewrite Hset.
  - intros [= <- <-]. split; [exists false; apply rule_or_false|].
    split; [constructor|].
    exists false. intros c. simpl. by rewrite orb_false_r.
Qed.
End Stability.

Lemma sameShape_Id (id : dst.Ident) (n : dst.Expr) :
  sameShape (dst.Id id) n -> n = dst.Id id.
Proof. unfold sameShape. destruct n; simpl; congruence. Qed.

Lemma sameShape_Lit (lit : dst.BasicLit) (n : dst.Expr) :
  sameShape (dst.Lit lit) n -> n = dst.Lit lit.
Proof. unfold sameShape. destruct n; simpl; congruence. Qed.

Lemma sameShape_Ids (ids : list dst.Ident) (l : list dst.Expr) :
  Forall2 sameShape (dst.Id <$> ids) l -> l = dst.Id <$> ids.
Proof.
  revert l. induction ids as [|id ids IH]; intros l HL; inversion HL; subst.
  - reflexivity.
  - csimpl. f_equal; [by apply sameShape_Id | by apply IH].
Qed.

Lemma sameShape_optId (o : option dst.Ident) (o' : option dst.Expr) :
  option_Forall2 sameShape (dst.Id <$> o) o' -> o' = dst.Id <$> o.
Proof.
  destruct o as [id|]; inversion 1; subst; simpl; [|done].
  f_equal. by apply sameShape_Id.
Qed.

(** Destructs the first walk of the run [Hw] and applies the induction
    hypothesis among [IHs] that fits. *)
Ltac first_walk Hw tac :=
  rewrite ?recordChanged_rule in Hw;
  match type of Hw with
  | context [walkList ?w (rule ?b0) ?x] =>
      let E := fresh "E" in
      destruct (walkList w (rule b0) x) as [[? ?]|] eqn:E;
      [|discriminate]; tac E
  | context [walkOpt ?w (rule ?b0) ?x] =>
      let E := fresh "E" in
      destruct (walkOpt w (rule b0) x) as [[? ?]|] eqn:E;
      [|discriminate]; tac E
  | context [walkExpr ?k (rule ?b0) ?x] =>
      let E := fresh "E" in
      destruct (walkExpr k (rule b0) x) as [[? ?]|] eqn:E;
      [|discriminate]; tac E
  | context [walkStmt ?k (rule ?b0) ?x] =>
      let E := fresh "E" in
      destruct (walkStmt k (rule b0) x) as [[? ?]|] eqn:E;
      [|discriminate]; tac E
  | context [walkBody ?k (rule ?b0) ?x] =>
      let E := fresh "E" in
      destruct (walkBody k (rule b0) x) as [[? ?]|] eqn:E;
      [|discriminate]; tac E
  | context [walkSpec ?k (rule ?b0) ?x] =>
      let E := fresh "E" in
      destruct (walkSpec k (rule b0) x) as [[? ?]|] eqn:E;
      [|discriminate]; tac E
  | context [walkDecl ?k (rule ?b0) ?x] =>
      let E := fresh "E" in
      destruct (walkDecl k (rule b0) x) as [[? ?]|] eqn:E;
      [|discriminate]; tac E
  | context [walkNode ?k (rule ?b0) ?x] =>
      let E := fresh "E" in
      destruct (walkNode k (rule b0) x) as [[? ?]|] eqn:E;
      [|discriminate]; tac E
  end;
  cbn [mbind option_bind] in Hw; cbv beta iota in Hw.

(** Proves a goal [settled w n] once the walks of the children of [n] are
    known to be settled: [open_settled] unfolds one step of the walk,
    [finish_settled] replays the walks of the children. *)
Ltac open_settled :=
  repeat match goal with
         | H : Forall (settled ?w) ?l |- _ => apply settled_walkList in H
         end;
  repeat match goal with
         | H : settled ?w ?n |- _ => destruct H as [? H]
         end;
  eexists; intros ?c;
  cbn [walkExpr walkStmt walkBody walkSpec walkDecl walkNode
       ProcessExpr ProcessStmt Process].

Ltac finish_settled :=
  rewrite ?recordChanged_rule;
  repeat match goal with
         | H : forall c, ?w (rule c) ?n = _ |- context [?w (rule ?c0) ?n] =>
             rewrite (H c0); cbn [mbind option_bind]; cbv beta iota
         end;
  rewrite <- ?orb_assoc; reflexivity.

Ltac close_settled := open_settled; finish_settled.

(** A walk whose result the caller drops returned the identifier or the
    literal it was given. *)
Ltac fix_ignored :=
  repeat match goal with
         | H : sameShape (dst.Id _) _ |- _ => apply sameShape_Id in H; subst
         | H : sameShape (dst.Lit _) _ |- _ => apply sameShape_Lit in H; subst
         | H : Forall2 sameShape (dst.Id <$> _) _ |- _ =>
             apply sameShape_Ids in H; subst
         | H : option_Forall2 sameShape (dst.Id <$> _) _ |- _ =>
             apply sameShape_optId in H; subst
         end.

Ltac close_state :=
  rewrite <- ?orb_assoc; eexists; reflexivity.

(** Applies the induction hypothesis of [walk_stable] that fits the
    walk [E]. *)
Ltac use_stable E :=
  match goal with
  | IH : forall b : bool, _ |- _ =>
      apply IH in E; destruct E as ([? ->] & ? & ?)
  end.

Ltac run_walks Hw :=
  repeat first_walk Hw ltac:(fun E => use_stable E);
  rewrite ?recordChanged_rule in Hw;
  injection Hw as <- <-.

Section WalkStable.
Context `{strconv.Strconv}.

Lemma walk_stable (k : nat) :
  stable (walkExpr k) sameShape /\
  stable (walkStmt k) anyTree /\
  stable (walkBody k) anyTree /\
  stable (walkSpec k) anyTree /\
  stable (walkDecl k) (specsSettled k) /\
  stable (walkNode k) anyTree.
Proof.
  induction k as [|k (IHE & IHS & IHB & IHSp & IHD & IHN)].
  { split; [|split; [|split; [|split; [|split]]]];
      intros b n p' n' Hw; discriminate. }
  pose proof (stable_walkList _ _ IHE) as IHEs.
  pose proof (stable_walkList _ _ IHS) as IHSs.
  pose proof (stable_walkList _ _ IHSp) as IHSps.
  pose proof (stable_walkList _ _ IHN) as IHNs.
  pose proof (stable_walkOpt _ _ IHE) as IHEo.
  pose proof (stable_walkOpt _ _ IHS) as IHSo.
  pose proof (stable_walkOpt _ _ IHN) as IHNo.
  pose proof (stable_walkOpt _ _ IHB) as IHBo.
  unfold stable in IHE, IHS, IHB, IHSp, IHD, IHN, IHEo, IHSo, IHNo, IHBo.
  split; [|split; [|split; [|split; [|split]]]].
  - (* expressions *)
    intros b n p' n' Hw. cbn [walkExpr] in Hw.
    destruct n as [id|lit|X Op Y|F A el|X Sel|X T|X|Op X|T Body|kind ch];
      cbn [ProcessExpr] in Hw.
    + run_walks Hw. split; [close_state|]. split; [done|]. close_settled.
    + run_walks Hw. split; [close_state|]. split; [done|]. close_settled.
    + run_walks Hw. split; [close_state|].
      split; [unfold sameShape in *; cbn [shape]; congruence|].
      close_settled.
    + destruct (fixCallExpr (rule b) F A) as [[F1 A1] d0] eqn:EF.
      run_walks Hw. split; [close_state|]. split; [done|].
      assert (forall c, fixCallExpr (rule c) e l
                        = ((e, l), isPkgSelector e "errors" "New")) as HF.
      { intros c. by apply (fixCallExpr_second_run b c F F1 e A A1 l d0). }
      open_settled. rewrite HF. finish_settled.
    + run_walks Hw. fix_ignored. split; [close_state|].
      split; [unfold sameShape in *; cbn [shape]; congruence|].
      close_settled.
    + destruct (fixTypeAssertExpr (rule b) X) as [X1 d0] eqn:EF.
      run_walks Hw. split; [close_state|]. split; [done|].
      assert (forall c, fixTypeAssertExpr (rule c) e = (e, false)) as HF.
      { intros c.
        by apply (fixTypeAssertExpr_second_run (rule c) X X1 e d0). }
      open_settled. rewrite HF. finish_settled.
    + run_walks Hw. split; [close_state|]. split; [done|]. close_settled.
    + run_walks Hw. split; [close_state|]. split; [done|]. close_settled.
    + run_walks Hw. split; [close_state|]. split; [done|]. close_settled.
    + run_walks Hw. split; [close_state|]. split; [done|]. close_settled.
  - (* statements *)
    intros b n p' n' Hw. cbn [walkStmt] in Hw.
    destruct n as [Rs|Init Cond Body Else|List|X|Lhs Tok Rhs|d|kind ch];
      cbn [ProcessStmt] in Hw.
    + destruct (fixReturnStmt (rule b) Rs) as [Rs1 d0] eqn:EF.
      run_walks Hw. split; [close_state|]. split; [done|].
      assert (forall c, fixReturnStmt (rule c) l = (l, false)) as HF.
      { intros c. by apply (fixReturnStmt_second_run (rule c) Rs Rs1 l d0). }
      open_settled. rewrite HF. finish_settled.
    + destruct (fixIfStmt (rule b) Cond) as [Cond1 d0] eqn:EF.
      run_walks Hw. split; [close_state|]. split; [done|].
      assert (forall c, fixIfStmt (rule c) e = (e, false)) as HF.
      { intros c. by apply (fixIfStmt_second_run (rule c) Cond Cond1 e d0). }
      open_settled. rewrite HF. finish_settled.
    + run_walks Hw. split; [close_state|]. split; [done|]. close_settled.
    + run_walks Hw. split; [close_state|]. split; [done|]. close_settled.
    + run_walks Hw. split; [close_state|]. split; [done|]. close_settled.
    + run_walks Hw. split; [close_state|]. split; [done|]. close_settled.
    + run_walks Hw. split; [close_state|]. split; [done|]. close_settled.
  - (* block fields *)
    intros b n p' n' Hw. cbn [walkBody ProcessStmt] in Hw.
    run_walks Hw. split; [close_state|]. split; [done|]. close_settled.
  - (* specs *)
    intros b n p' n' Hw. cbn [walkSpec Process] in Hw.
    destruct n as [Name Path|Names T Values|kind ch].
    + run_walks Hw. fix_ignored. split; [close_state|]. split; [done|].
      close_settled.
    + run_walks Hw. fix_ignored. split; [close_state|]. split; [done|].
      close_settled.
    + run_walks Hw. split; [close_state|]. split; [done|]. close_settled.
  - (* declarations *)
    intros b n p' n' Hw. cbn [walkDecl Process] in Hw.
    destruct n as [Tok Specs lp rp|Recv Name T Body|].
    + run_walks Hw. split; [close_state|]. split; [assumption|].
      close_settled.
    + run_walks Hw. fix_ignored. split; [close_state|]. split; [done|].
      close_settled.
    + run_walks Hw. split; [close_state|]. split; [done|]. close_settled.
  - (* nodes *)
    intros b n p' n' Hw. cbn [walkNode] in Hw.
    destruct n as [e|s|s|d|kind ch]; cbn [Process] in Hw.
    + run_walks Hw. split; [close_state|]. split; [done|]. close_settled.
    + run_walks Hw. split; [close_state|]. split; [done|]. close_settled.
    + run_walks Hw. split; [close_state|]. split; [done|]. close_settled.
    + run_walks Hw. split; [close_state|]. split; [done|]. close_settled.
    + run_walks Hw. split; [close_state|]. split; [done|]. close_settled.
Qed.
End WalkStable.

(** ** A larger bound does not change the result of a walk *)

Section FuelMonotone.
Context `{strconv.Strconv}.

Lemma walkList_mono {A : Type} (w w' : State -> A -> option (State * A)) :
  (forall p x r, w p x = Some r -> w' p x = Some r) ->
  forall p l r, walkList w p l = Some r -> walkList w' p l = Some r.
Proof.
  intros Hw p l. revert p. induction l as [|x l IH]; intros p r; simpl; [done|].
  destruct (w p x) as [[p1 x']|] eqn:E1; simpl; [|discriminate].
  rewrite (Hw _ _ _ E1). simpl.
  destruct (walkList w p1 l) as [[p2 l']|] eqn:E2; simpl; [|discriminate].
  by rewrite (IH _ _ E2).
Qed.

Lemma walkOpt_mono {A : Type} (w w' : State -> A -> option (State * A)) :
  (forall p x r, w p x = Some r -> w' p x = Some r) ->
  forall p o r, walkOpt w p o = Some r -> walkOpt w' p o = Some r.
Proof.
  intros Hw p [x|] r; simpl; [|done].
  destruct (w p x) as [[p1 x']|] eqn:E1; simpl; [|discriminate].
  by rewrite (Hw _ _ _ E1).
Qed.

(** Replays the first walk of the run [Hw] in the goal, with the larger
    bound. *)
Ltac replay Hw :=
  match type of Hw with
  | mbind _ ?m = Some _ =>
      let E := fresh "E" in
      destruct m as [[? ?]|] eqn:E; [|discriminate];
      cbn [mbind option_bind] in Hw; cbv beta iota in Hw;
      match goal with
      | IH : forall (p : State), _ |- _ => apply IH in E
      end;
      rewrite E; cbn [mbind option_bind]; cbv beta iota
  end.

Lemma walk_mono (k : nat) :
  forall k', k <= k' ->
    (forall p n r, walkExpr k p n = Some r -> walkExpr k' p n = Some r) /\
    (forall p n r, walkStmt k p n = Some r -> walkStmt k' p n = Some r) /\
    (forall p n r, walkBody k p n = Some r -> walkBody k' p n = Some r) /\
    (forall p n r, walkSpec k p n = Some r -> walkSpec k' p n = Some r) /\
    (forall p n r, walkDecl k p n = Some r -> walkDecl k' p n = Some r) /\
    (forall p n r, walkNode k p n = Some r -> walkNode k' p n = Some r).
Proof.
  induction k as [|k IH]; intros k' Hk.
  { split; [|split; [|split; [|split; [|split]]]]; intros p n r Hw;
      discriminate. }
  destruct k' as [|k']; [lia|].
  destruct (IH k' ltac:(lia)) as (IHE & IHS & IHB & IHSp & IHD & IHN).
  pose proof (walkList_mono _ _ IHE) as IHEs.
  pose proof (walkList_mono _ _ IHS) as IHSs.
  pose proof (walkList_mono _ _ IHSp) as IHSps.
  pose proof (walkList_mono _ _ IHN) as IHNs.
  pose proof (walkOpt_mono _ _ IHE) as IHEo.
  pose proof (walkOpt_mono _ _ IHS) as IHSo.
  pose proof (walkOpt_mono _ _ IHN) as IHNo.
  pose proof (walkOpt_mono _ _ IHB) as IHBo.
  clear IH.
  split; [|split; [|split; [|split; [|split]]]]; intros p n r Hw.
  - cbn [walkExpr] in *.
    destruct (ProcessExpr p n) as [p1 n1].
    destruct n1; repeat replay Hw; exact Hw.
  - cbn [walkStmt] in *.
    destruct (ProcessStmt p n) as [p1 n1].
    destruct n1; repeat replay Hw; exact Hw.
  - cbn [walkBody] in *.
    destruct (ProcessStmt p (dst.BlockStmt n)) as [p1 n1]. by apply IHSs.
  - cbn [walkSpec] in *.
    destruct (Process p (dst.NSpec n)) as [p1 n1].
    destruct n; repeat replay Hw; exact Hw.
  - cbn [walkDecl] in *.
    destruct (Process p (dst.NDecl n)) as [p1 n1].
    destruct n; repeat replay Hw; exact Hw.
  - cbn [walkNode] in *.
    destruct n; try destruct (Process p _) as [p1 n1];
      repeat replay Hw; exact Hw.
Qed.

Lemma walkFile_mono (k k' : nat) (p : State) (f : dst.File)
    (r : State * dst.File) :
  k <= k' -> walkFile k p f = Some r -> walkFile k' p f = Some r.
Proof.
  intros Hk Hw. destruct k as [|k]; [discriminate|].
  destruct k' as [|k']; [lia|].
  destruct (walk_mono k k' ltac:(lia)) as (IHE & _ & _ & _ & IHD & _).
  pose proof (walkList_mono _ _ IHD) as IHDs.
  cbn [walkFile] in *. repeat replay Hw. exact Hw.
Qed.

(** The bound [Inspect] takes from the tree is enough: any walk of the
    file that returns, returns what [Inspect] returns. *)
Lemma Inspect_walkFile (k : nat) (p : State) (f : dst.File)
    (r : State * dst.File) :
  walkFile k p f = Some r -> Inspect p f = Some r.
Proof.
  intros Hw. destruct (Inspect_total p f) as [r' Hr]. rewrite Hr.
  unfold Inspect in Hr.
  pose proof (walkFile_mono k (Nat.max k (depthFile f)) p f r
                ltac:(lia) Hw) as H1.
  pose proof (walkFile_mono (depthFile f) (Nat.max k (depthFile f)) p f r'
                ltac:(lia) Hr) as H2.
  congruence.
Qed.
End FuelMonotone.

(** ** C7: running the engine on its own output *)

(** *** What the rules see of a reparsed tree *)

Lemma isName_reparsed (n n' : dst.Expr) (name : string) :
  reparsedExpr n n' -> isName n' name = isName n name.
Proof.
  inversion 1 as [id id' [Hn _]| | | | | | | | |]; subst; try reflexivity.
  simpl. by rewrite Hn.
Qed.

Lemma isTopName_reparsed (n n' : dst.Expr) (name : string) :
  reparsedExpr n n' -> isTopName n' name = true -> isTopName n name = true.
Proof.
  inversion 1 as [id id' [Hn Ho]| | | | | | | | |]; subst; try done.
  simpl. rewrite Hn. intros E. apply andb_true_iff in E as [E1 E2].
  rewrite E1. destruct (dst.Obj id') eqn:Eo; [discriminate|].
  by rewrite (Ho eq_refl).
Qed.

Lemma isPkgSelector_reparsed (n n' : dst.Expr) (pkg name : string) :
  reparsedExpr n n' ->
  isPkgSelector n' pkg name = true -> isPkgSelector n pkg name = true.
Proof.
  inversion 1 as [| | | |X Sel X' Sel' HX [Hn _]| | | | |]; subst; try done.
  simpl. rewrite Hn. intros E. apply andb_true_iff in E as [E1 E2].
  by rewrite (isTopName_reparsed X X' pkg HX E1), E2.
Qed.

Lemma compareErr_reparsed (p : State) X X' Op Y Y' yIsNil :
  reparsedExpr X X' -> reparsedExpr Y Y' ->
  compareErr p X' Op Y' yIsNil = compareErr p X Op Y yIsNil.
Proof.
  intros HX HY. unfold compareErr.
  by rewrite (isName_reparsed X X' _ HX), (isName_reparsed Y Y' _ HY).
Qed.

Lemma fixIfStmt_flag_reparsed (p : State) (Cond Cond' : dst.Expr) :
  reparsedExpr Cond Cond' ->
  snd (fixIfStmt p Cond') = snd (fixIfStmt p Cond).
Proof.
  inversion 1 as [| |X Op Y X' Y' HX HY| | | | | | |]; subst;
    try reflexivity.
  simpl. rewrite (compareErr_reparsed p X X' Op Y Y' false HX HY).
  destruct (compareErr p X Op Y false); [reflexivity|].
  inversion HX as [| |XX XOp XY XX' XY' HXX HXY| | | | | | |]; subst;
    inversion HY as [| |YX YOp YY YX' YY' HYX HYY| | | | | | |]; subst;
    try reflexivity.
  rewrite (compareErr_reparsed p XX XX' XOp XY XY' true HXX HXY).
  rewrite (compareErr_reparsed p YX YX' YOp YY YY' false HYX HYY).
  by destruct (_ && _ && _).
Qed.

Lemma fixIfStmt_reparsed (p : State) (Cond Cond' : dst.Expr) :
  reparsedExpr Cond Cond' ->
  fixIfStmt p Cond = (Cond, false) -> fixIfStmt p Cond' = (Cond', false).
Proof.
  intros Hr E. pose proof (fixIfStmt_flag_reparsed p Cond Cond' Hr) as HF.
  rewrite E in HF.
  destruct (fixIfStmt p Cond') as [Cond2 d2] eqn:E2. simpl in HF. subst d2.
  by rewrite (fixIfStmt_unchanged p Cond' Cond2 E2).
Qed.

Lemma fixTypeAssertExpr_reparsed (p : State) (X X' : dst.Expr) :
  reparsedExpr X X' ->
  fixTypeAssertExpr p X = (X, false) ->
  fixTypeAssertExpr p X' = (X', false).
Proof.
  intros Hr. unfold fixTypeAssertExpr.
  rewrite (isName_reparsed X X' _ Hr).
  destruct (isName X (errIdent p)); simpl; [discriminate | done].
Qed.

Lemma fixReturnStmt_reparsed (p : State) (Rs Rs' : list dst.Expr) :
  Forall2 reparsedExpr Rs Rs' ->
  fixReturnStmt p Rs = (Rs, false) -> fixReturnStmt p Rs' = (Rs', false).
Proof.
  intros Hr. pose proof (Forall2_length _ _ _ Hr) as HL.
  unfold fixReturnStmt. rewrite <- HL.
  destruct (Nat.eqb (length Rs) 0); [done|].
  destruct (Rs' !! (length Rs - 1)) as [x'|] eqn:E'; [|done].
  destruct (Forall2_lookup_r _ _ _ _ _ Hr E') as (x & E & Hx).
  rewrite E, (isName_reparsed x x' _ Hx).
  destruct (isName x (errIdent p)); simpl; [discriminate | done].
Qed.

Section CallReparsed.
Context `{strconv.Strconv}.

Lemma callRewrites_reparsed (b : bool) (F F' : dst.Expr)
    (A A' : list dst.Expr) :
  reparsedExpr F F' -> Forall2 reparsedExpr A A' ->
  callRewrites (rule b) F A = false -> callRewrites (rule b) F' A' = false.
Proof.
  intros HF HA. unfold callRewrites.
  destruct (isPkgSelector F' "fmt" "Errorf") eqn:E';
    [|by rewrite andb_false_r].
  pose proof (isPkgSelector_reparsed F F' _ _ HF E') as E.
  rewrite E, (isPkgSelector_fmt_not_errors F b E). cbn [negb andb].
  assert (A' !! 0 = A !! 0 \/
          (forall lit, A' !! 0 <> Some (dst.Lit lit)) /\
          (forall lit, A !! 0 <> Some (dst.Lit lit))) as [-> | [H1 H2]].
  { destruct HA as [|a a' A A' Ha _]; [by left|]. simpl.
    inversion Ha; subst; try (right; split; intros ? [=]; fail).
    by left. }
  - intros ->. by rewrite andb_false_r.
  - intros _. rewrite andb_true_r.
    destruct (A' !! 0) as [[|lit| | | | | | | |]|];
      rewrite ?andb_false_r; try done.
    by destruct (H1 lit).
Qed.

Lemma fixCallExpr_reparsed (b c : bool) (F F1 F2 F' : dst.Expr)
    (A A1 A2 A' : list dst.Expr) (d : bool) :
  fixCallExpr (rule b) F A = ((F1, A1), d) ->
  shape F2 = shape F1 ->
  Forall2 sameShape A1 A2 ->
  reparsedExpr F2 F' -> Forall2 reparsedExpr A2 A' ->
  fixCallExpr (rule c) F' A'
  = ((F', A'), isPkgSelector F' "errors" "New").
Proof.
  intros E HF HA HF' HA'.
  apply (callRewrites_false (rule c)).
  apply (callRewrites_reparsed c F2 F' A2 A' HF' HA').
  rewrite (callRewrites_shape (rule c) F1 F2 A1 A2 HF HA).
  exact (fixCallExpr_settled b F F1 A A1 d E).
Qed.

(** *** Lists and optional fields *)

Lemma reparses_Forall {A : Type} (w : State -> A -> option (State * A))
    (rel0 rel : A -> A -> Prop) :
  stable w rel0 -> reparses rel w ->
  forall b l p' l',
    walkList w (rule b) l = Some (p', l') ->
    Forall (fun x' => forall x'', rel x' x'' -> settled w x'') l'.
Proof.
  intros Hs Hr b l. revert b.
  induction l as [|x l IH]; intros b p' l'; simpl.
  - intros [= <- <-]. constructor.
  - destruct (w (rule b) x) as [[p1 x']|] eqn:E1; simpl; [|discriminate].
    pose proof E1 as W1. apply Hs in E1 as ([d1 ->] & _ & _).
    destruct (walkList w (rule (b || d1)) l) as [[p2 r']|] eqn:E2; simpl;
      [|discriminate].
    intros [= <- <-]. constructor; [exact (Hr _ _ _ _ W1) | eauto].
Qed.

Lemma Forall_reparsed {A : Type} (P : A -> Prop) (rel : A -> A -> Prop)
    (l l' : list A) :
  Forall (fun x => forall x', rel x x' -> P x') l ->
  Forall2 rel l l' -> Forall P l'.
Proof.
  intros HF HR. induction HR as [|x x' l l' Hx _ IH]; [constructor|].
  apply Forall_cons in HF as [H1 H2]. constructor; auto.
Qed.

Lemma reparses_walkList {A : Type} (w : State -> A -> option (State * A))
    (rel0 rel : A -> A -> Prop) :
  stable w rel0 -> reparses rel w ->
  reparses (Forall2 rel) (walkList w).
Proof.
  intros Hs Hr b l p' l' Hw l'' HR. apply settled_walkList.
  apply (Forall_reparsed _ rel l' l''); [|exact HR].
  exact (reparses_Forall w rel0 rel Hs Hr b l p' l' Hw).
Qed.

Lemma reparses_walkOpt {A : Type} (w : State -> A -> option (State * A))
    (rel : A -> A -> Prop) :
  reparses rel w -> reparses (option_Forall2 rel) (walkOpt w).
Proof.
  intros Hr b [x|] p' o'; simpl.
  - destruct (w (rule b) x) as [[p1 x']|] eqn:E1; simpl; [|discriminate].
    intros [= <- <-] o'' HR. inversion HR as [? x'' Hx|]; subst.
    destruct (Hr _ _ _ _ E1 x'' Hx) as [d Hd].
    exists d. intros c. simpl. by rewrite Hd.
  - intros [= <- <-] o'' HR. inversion HR; subst.
    exists false. intros c. simpl. by rewrite orb_false_r.
Qed.
End CallReparsed.

Lemma reparsed_Ids (ids ids' : list dst.Ident) :
  Forall2 reparsedIdent ids ids' ->
  Forall2 reparsedExpr (dst.Id <$> ids) (dst.Id <$> ids').
Proof.
  induction 1; csimpl; constructor; [by constructor | done].
Qed.

Lemma reparsed_optId (o o' : option dst.Ident) :
  option_Forall2 reparsedIdent o o' ->
  option_Forall2 reparsedExpr (dst.Id <$> o) (dst.Id <$> o').
Proof. destruct 1; simpl; constructor. by constructor. Qed.

(** Runs the walks of [Hw] as [run_walks] does and keeps each of them. *)
Ltac trace_walks Hw :=
  repeat first_walk Hw
    ltac:(fun E => let W := fresh "W" in pose proof E as W; use_stable E);
  rewrite ?recordChanged_rule in Hw;
  injection Hw as <- <-.

(** Turns what is known of the identifiers of a reparsed node into facts
    about the expressions the walk visits for them. *)
Ltac reparsed_idents :=
  repeat match goal with
         | H : reparsedIdent ?a ?b |- _ =>
             apply (reparsed_Id a b) in H
         | H : Forall2 reparsedIdent ?a ?b |- _ =>
             apply reparsed_Ids in H
         | H : option_Forall2 reparsedIdent ?a ?b |- _ =>
             apply reparsed_optId in H
         end.

(** Applies the hypothesis among the [reparses] ones that fits each walk
    kept by [trace_walks]. *)
Ltac reparsed_children :=
  repeat match goal with
         | R : reparses ?rel ?w, W : ?w (rule _) _ = Some (_, ?x),
           Hx : ?rel ?x ?x'' |- _ =>
             let S := fresh "S" in
             pose proof (R _ _ _ _ W _ Hx) as S; clear W
         end.

Ltac reparsed_node Hr :=
  inversion Hr; subst; fix_ignored; reparsed_idents; reparsed_children.

Section WalkReparsed.
Context `{strconv.Strconv}.

Lemma walk_reparsed (k : nat) :
  reparses reparsedExpr (walkExpr k) /\
  reparses reparsedStmt (walkStmt k) /\
  reparses (Forall2 reparsedStmt) (walkBody k) /\
  reparses reparsedSpec (walkSpec k) /\
  reparses reparsedDecl (walkDecl k) /\
  reparses reparsedNode (walkNode k).
Proof.
  induction k as [|k (RE & RS & RB & RSp & RD & RN)].
  { split; [|split; [|split; [|split; [|split]]]];
      intros b n p' n' Hw; discriminate. }
  destruct (walk_stable k) as (IHE & IHS & IHB & IHSp & IHD & IHN).
  pose proof (reparses_walkList _ _ _ IHE RE) as REs.
  pose proof (reparses_walkList _ _ _ IHS RS) as RSs.
  pose proof (reparses_walkList _ _ _ IHSp RSp) as RSps.
  pose proof (reparses_walkList _ _ _ IHN RN) as RNs.
  pose proof (reparses_walkOpt _ _ RE) as REo.
  pose proof (reparses_walkOpt _ _ RS) as RSo.
  pose proof (reparses_walkOpt _ _ RN) as RNo.
  pose proof (reparses_walkOpt _ _ RB) as RBo.
  pose proof (stable_walkList _ _ IHE) as IHEs.
  pose proof (stable_walkList _ _ IHS) as IHSs.
  pose proof (stable_walkList _ _ IHSp) as IHSps.
  pose proof (stable_walkList _ _ IHN) as IHNs.
  pose proof (stable_walkOpt _ _ IHE) as IHEo.
  pose proof (stable_walkOpt _ _ IHS) as IHSo.
  pose proof (stable_walkOpt _ _ IHN) as IHNo.
  pose proof (stable_walkOpt _ _ IHB) as IHBo.
  unfold stable in IHE, IHS, IHB, IHSp, IHD, IHN, IHEo, IHSo, IHNo, IHBo.
  split; [|split; [|split; [|split; [|split]]]].
  - (* expressions *)
    intros b n p' n' Hw. cbn [walkExpr] in Hw.
    destruct n as [id|lit|X Op Y|F A el|X Sel|X T|X|Op X|T Body|kind ch];
      cbn [ProcessExpr] in Hw.
    + trace_walks Hw. intros n'' Hr. reparsed_node Hr. close_settled.
    + trace_walks Hw. intros n'' Hr. reparsed_node Hr. close_settled.
    + trace_walks Hw. intros n'' Hr. reparsed_node Hr. close_settled.
    + destruct (fixCallExpr (rule b) F A) as [[F1 A1] d0] eqn:EF.
      trace_walks Hw. intros n'' Hr.
      inversion Hr as [| | |? ? ? F'' A'' HF'' HA''| | | | | |]; subst.
      assert (forall c, fixCallExpr (rule c) F'' A''
                        = ((F'', A''), isPkgSelector F'' "errors" "New"))
        as HF.
      { intros c.
        by apply (fixCallExpr_reparsed b c F F1 e F'' A A1 l A'' d0). }
      reparsed_children. open_settled. rewrite HF. finish_settled.
    + trace_walks Hw. intros n'' Hr. reparsed_node Hr. close_settled.
    + destruct (fixTypeAssertExpr (rule b) X) as [X1 d0] eqn:EF.
      trace_walks Hw. intros n'' Hr.
      inversion Hr as [| | | | |? ? X'' T'' HX'' HT''| | | |]; subst.
      assert (forall c, fixTypeAssertExpr (rule c) X'' = (X'', false))
        as HF.
      { intros c. apply (fixTypeAssertExpr_reparsed (rule c) e X'' HX'').
        by apply (fixTypeAssertExpr_second_run (rule c) X X1 e d0). }
      reparsed_children. open_settled. rewrite HF. finish_settled.
    + trace_walks Hw. intros n'' Hr. reparsed_node Hr. close_settled.
    + trace_walks Hw. intros n'' Hr. reparsed_node Hr. close_settled.
    + trace_walks Hw. intros n'' Hr. reparsed_node Hr. close_settled.
    + trace_walks Hw. intros n'' Hr. reparsed_node Hr. close_settled.
  - (* statements *)
    intros b n p' n' Hw. cbn [walkStmt] in Hw.
    destruct n as [Rs|Init Cond Body Else|List|X|Lhs Tok Rhs|d|kind ch];
      cbn [ProcessStmt] in Hw.
    + destruct (fixReturnStmt (rule b) Rs) as [Rs1 d0] eqn:EF.
      trace_walks Hw. intros n'' Hr.
      inversion Hr as [? Rs'' HRs''| | | | | |]; subst.
      assert (forall c, fixReturnStmt (rule c) Rs'' = (Rs'', false)) as HF.
      { intros c. apply (fixReturnStmt_reparsed (rule c) l Rs'' HRs'').
        by apply (fixReturnStmt_second_run (rule c) Rs Rs1 l d0). }
      reparsed_children. open_settled. rewrite HF. finish_settled.
    + destruct (fixIfStmt (rule b) Cond) as [Cond1 d0] eqn:EF.
      trace_walks Hw. intros n'' Hr.
      inversion Hr
        as [|? ? ? ? Init'' Cond'' Body'' Else'' HI'' HC'' HB'' HE''
            | | | | |]; subst.
      assert (forall c, fixIfStmt (rule c) Cond'' = (Cond'', false)) as HF.
      { intros c. apply (fixIfStmt_reparsed (rule c) e Cond'' HC'').
        by apply (fixIfStmt_second_run (rule c) Cond Cond1 e d0). }
      reparsed_children. open_settled. rewrite HF. finish_settled.
    + trace_walks Hw. intros n'' Hr. reparsed_node Hr. close_settled.
    + trace_walks Hw. intros n'' Hr. reparsed_node Hr. close_settled.
    + trace_walks Hw. intros n'' Hr. reparsed_node Hr. close_settled.
    + trace_walks Hw. intros n'' Hr. reparsed_node Hr. close_settled.
    + trace_walks Hw. intros n'' Hr. reparsed_node Hr. close_settled.
  - (* block fields *)
    intros b n p' n' Hw. cbn [walkBody ProcessStmt] in Hw.
    trace_walks Hw. intros n'' Hr. reparsed_children. close_settled.
  - (* specs *)
    intros b n p' n' Hw. cbn [walkSpec Process] in Hw.
    destruct n as [Name Path|Names T Values|kind ch].
    + trace_walks Hw. intros n'' Hr.
      pose proof (reparsed_Lit Path) as HPath.
      reparsed_node Hr. close_settled.
    + trace_walks Hw. intros n'' Hr. reparsed_node Hr. close_settled.
    + trace_walks Hw. intros n'' Hr. reparsed_node Hr. close_settled.
  - (* declarations *)
    intros b n p' n' Hw. cbn [walkDecl Process] in Hw.
    destruct n as [Tok Specs lp rp|Recv Name T Body|].
    + trace_walks Hw. intros n'' Hr. reparsed_node Hr. close_settled.
    + trace_walks Hw. intros n'' Hr. reparsed_node Hr. close_settled.
    + trace_walks Hw. intros n'' Hr. reparsed_node Hr. close_settled.
  - (* nodes *)
    intros b n p' n' Hw. cbn [walkNode] in Hw.
    destruct n as [e|s|s|d|kind ch]; cbn [Process] in Hw.
    + trace_walks Hw. intros n'' Hr. reparsed_node Hr. close_settled.
    + trace_walks Hw. intros n'' Hr. reparsed_node Hr. close_settled.
    + trace_walks Hw. intros n'' Hr. reparsed_node Hr. close_settled.
    + trace_walks Hw. intros n'' Hr. reparsed_node Hr. close_settled.
    + trace_walks Hw. intros n'' Hr. reparsed_node Hr. close_settled.
Qed.
End WalkReparsed.

Section Again.
Context `{strconv.Strconv}.

(** What a successful [EndProcess] has done once the rule has recorded a
    change. *)
Lemma EndProcess_inv (f f' : dst.File) (ok : bool) :
  EndProcess (rule true) f = Some (f', ok) ->
  ok = true /\
  (f' = f \/
   (importsWellFormed f = true /\
    (errorsImportReplaced f f' \/ appendedToFirstGroup f f' \/
     newGroupPrepended f f'))).
Proof.
  unfold EndProcess.
  change (negb (changed (rule true))) with false. cbv iota.
  change (pkgPath (rule true)) with "github.com/pkg/errors".
  rewrite !findImportByPath_getImports.
  pose proof (findDecls_spec 0 (dst.Decls f) "github.com/pkg/errors") as HP.
  destruct (findDecls 0 (dst.Decls f) "github.com/pkg/errors") as [i j| |];
    [intros [= <- <-]; split; [done | by left] | | discriminate].
  destruct HP as [_ Hwf].
  pose proof (findDecls_spec 0 (dst.Decls f) "errors") as HS.
  destruct (findDecls 0 (dst.Decls f) "errors") as [i j| |]; [| |discriminate].
  - destruct HS as (pre & Tok & Specs & lp & rp & post & spre & N & P
                    & spost & Hds & -> & HT & -> & -> & HP & Hc & Hs).
    apply token_eqb_eq in HT. subst Tok.
    intros [= <- <-]. split; [done|]. right. split; [exact Hwf|]. left.
    exists pre, spre, N, P, spost, lp, rp, post.
    repeat split; try done.
    rewrite Hds. simpl. rewrite alter_middle. simpl. by rewrite alter_middle.
  - intros [= <- <-]. split; [done|]. right. split; [exact Hwf|]. right.
    unfold addImport, getImports. simpl.
    pose proof (importsFrom_spec 0 (dst.Decls f)) as HI.
    destruct (importsFrom 0 (dst.Decls f)) as [|i r].
    + right. by split.
    + left. destruct HI as (pre & Specs & lp & rp & post & Hds & -> & Hpre).
      exists pre, Specs, lp, rp, post. split; [done|]. split; [done|].
      rewrite Hds. simpl. by rewrite alter_middle.
Qed.

Lemma wellFormed_split (pre post : list dst.Decl) (Specs : list dst.Spec)
    (lp rp : bool) (f : dst.File) :
  dst.Decls f = (pre ++ dst.GenDecl token.IMPORT Specs lp rp :: post)%list ->
  importsWellFormed f = true ->
  forall Specs' lp' rp',
    forallb isImportSpec Specs' = true ->
    importsWellFormed
      {| dst.FileName := dst.FileName f;
         dst.Decls := (pre ++ dst.GenDecl token.IMPORT Specs' lp' rp'
                           :: post)%list |} = true.
Proof.
  unfold importsWellFormed. intros -> Hwf Specs' lp' rp' HS. simpl.
  rewrite forallb_app in *. simpl in *.
  apply andb_true_iff in Hwf as [Hpre Hrest].
  apply andb_true_iff in Hrest as [_ Hpost].
  by rewrite Hpre, HS, Hpost.
Qed.

Lemma wellFormed_specs (pre post : list dst.Decl) (Specs : list dst.Spec)
    (lp rp : bool) (f : dst.File) :
  dst.Decls f = (pre ++ dst.GenDecl token.IMPORT Specs lp rp :: post)%list ->
  importsWellFormed f = true ->
  forallb isImportSpec Specs = true.
Proof.
  unfold importsWellFormed. intros -> Hwf.
  rewrite forallb_app in Hwf. simpl in Hwf.
  apply andb_true_iff in Hwf as [_ Hrest].
  by apply andb_true_iff in Hrest as [? _].
Qed.

Hypothesis Unquote_Quote_pkgPath :
  strconv.Unquote (strconv.Quote "github.com/pkg/errors")
  = Some "github.com/pkg/errors".

(** Finalizing a finalized file changes nothing. *)
Lemma EndProcess_again (f f' : dst.File) (ok : bool) :
  EndProcess (rule true) f = Some (f', ok) ->
  EndProcess (rule true) f' = Some (f', true).
Proof.
  intros HE. pose proof HE as HE'.
  apply EndProcess_inv in HE as [-> [-> | [Hwf Hedit]]]; [exact HE'|].
  assert (importsWellFormed f' = true /\
          0 < countImports f' "github.com/pkg/errors") as [Hwf' Hc].
  { destruct Hedit as [Hr | [Ha | Hp]].
    - split; [|rewrite (count_errorsImportReplaced Unquote_Quote_pkgPath
                          f f' Hr); lia].
      destruct Hr as (pre & spre & N & P & spost & lp & rp & post & Hds & _
                      & _ & _ & ->).
      apply (wellFormed_split pre post _ lp rp f Hds Hwf).
      pose proof (wellFormed_specs pre post _ lp rp f Hds Hwf) as HS.
      rewrite forallb_app in *. simpl in *. exact HS.
    - split; [|rewrite (count_appendedToFirstGroup Unquote_Quote_pkgPath
                          f f' Ha); lia].
      destruct Ha as (pre & Specs & lp & rp & post & Hds & _ & ->).
      apply (wellFormed_split pre post _ lp rp f Hds Hwf).
      pose proof (wellFormed_specs pre post _ lp rp f Hds Hwf) as HS.
      rewrite forallb_app. simpl. by rewrite HS.
    - split; [|rewrite (count_newGroupPrepended Unquote_Quote_pkgPath
                          f f' Hp); lia].
      destruct Hp as [_ ->]. unfold importsWellFormed in *. simpl.
      exact Hwf. }
  destruct (findDecls_FoundAt f' "github.com/pkg/errors" Hwf' Hc)
    as (i & j & Hfind).
  unfold EndProcess.
  change (negb (changed (rule true))) with false. cbv iota.
  change (pkgPath (rule true)) with "github.com/pkg/errors".
  by rewrite Hfind.
Qed.

(** Import specs and import declarations are settled. *)
Lemma settled_ImportSpec (j : nat) (Name : option dst.Ident)
    (Path : dst.BasicLit) :
  settled (walkSpec (S (S j))) (dst.ImportSpec Name Path).
Proof.
  exists false. intros c.
  destruct Name; cbn; by rewrite !recordChanged_rule, !orb_false_r.
Qed.

Lemma settled_GenDecl (j : nat) (Tok : token.Token) (Specs : list dst.Spec)
    (lp rp : bool) :
  Forall (settled (walkSpec j)) Specs ->
  settled (walkDecl (S j)) (dst.GenDecl Tok Specs lp rp).
Proof. intros HS. close_settled. Qed.

Lemma settled_walkFile (k : nat) (f : dst.File) :
  Forall (settled (walkDecl (S k))) (dst.Decls f) ->
  settled (walkFile (S (S k))) f.
Proof.
  intros HD. apply settled_walkList in HD as [d HD].
  exists (false || (false || d)). intros c. destruct f as [name decls].
  cbn [walkFile dst.FileName dst.Decls walkExpr ProcessExpr].
  rewrite !recordChanged_rule. cbn [mbind option_bind]. cbv beta iota.
  simpl in HD. rewrite HD. cbn [mbind option_bind]. cbv beta iota.
  by rewrite <- !orb_assoc.
Qed.

(** Import specs stay import specs when reparsed, and are settled. *)
Lemma settled_reparsed_specs (j : nat) (Specs Specs' : list dst.Spec) :
  forallb isImportSpec Specs = true ->
  Forall2 reparsedSpec Specs Specs' ->
  Forall (settled (walkSpec (S (S j)))) Specs'.
Proof.
  intros Hwf HR. induction HR as [|s s' l l' Hs _ IH]; [constructor|].
  simpl in Hwf. apply andb_true_iff in Hwf as [H1 H2].
  constructor; [|by apply IH].
  inversion Hs; subst; try discriminate. apply settled_ImportSpec.
Qed.

Lemma settled_reparsed_import (k : nat) (Specs : list dst.Spec)
    (lp rp : bool) (d'' : dst.Decl) :
  forallb isImportSpec Specs = true ->
  reparsedDecl (dst.GenDecl token.IMPORT Specs lp rp) d'' ->
  settled (walkDecl (S (S (S k)))) d''.
Proof.
  intros Hwf Hr. inversion Hr; subst. apply settled_GenDecl.
  by apply (settled_reparsed_specs k Specs).
Qed.

(** The searches of [EndProcess] do not see what reparsing changes. *)
Lemma findInSpecs_reparsed (i j : nat) (Specs Specs' : list dst.Spec)
    (ipath : string) :
  Forall2 reparsedSpec Specs Specs' ->
  findInSpecs i j Specs' ipath = findInSpecs i j Specs ipath.
Proof.
  intros HR. revert j.
  induction HR as [|s s' l l' Hs _ IH]; intros j; [done|].
  inversion Hs; subst; simpl; [|done|done]. by rewrite IH.
Qed.

Lemma findDecls_reparsed (i : nat) (ds ds' : list dst.Decl)
    (ipath : string) :
  Forall2 reparsedDecl ds ds' ->
  findDecls i ds' ipath = findDecls i ds ipath.
Proof.
  intros HR. revert i.
  induction HR as [|d d' l l' Hd _ IH]; intros i; [done|].
  inversion Hd as [Tok Specs lp rp Specs' lp' rp' HS| |]; subst; simpl;
    rewrite ?IH; try done.
  by rewrite (findInSpecs_reparsed i 0 Specs Specs' ipath HS).
Qed.

(** A finalized file imports the wrap library. *)
Lemma EndProcess_found (f f' : dst.File) (ok : bool) :
  EndProcess (rule true) f = Some (f', ok) ->
  exists i j,
    findDecls 0 (dst.Decls f') "github.com/pkg/errors" = FoundAt i j.
Proof.
  intros HE. pose proof (EndProcess_again f f' ok HE) as HA.
  pose proof (findDecls_spec 0 (dst.Decls f') "github.com/pkg/errors") as HS.
  destruct (findDecls 0 (dst.Decls f') "github.com/pkg/errors")
    as [i j| |] eqn:EF; [by eauto| |].
  - destruct HS as [Hc Hwf].
    destruct (EndProcess_cases f' Hwf) as (g & Hg & Hcases).
    rewrite HA in Hg. injection Hg as <-. exfalso.
    destruct Hcases as [[Hpos _] | [(_ & _ & Hr) | (_ & _ & [Ha | Hp])]].
    + unfold countImports in Hpos. lia.
    + pose proof (count_errorsImportReplaced Unquote_Quote_pkgPath
                    f' f' Hr). lia.
    + pose proof (count_appendedToFirstGroup Unquote_Quote_pkgPath
                    f' f' Ha). lia.
    + pose proof (count_newGroupPrepended Unquote_Quote_pkgPath
                    f' f' Hp). lia.
  - exfalso. unfold EndProcess in HA.
    change (negb (changed (rule true))) with false in HA. cbv iota in HA.
    change (pkgPath (rule true)) with "github.com/pkg/errors" in HA.
    rewrite findImportByPath_getImports, EF in HA. discriminate.
Qed.

(** The declarations of a finalized file stay settled when the file is
    reparsed. *)
Lemma settled_after_EndProcess (k : nat) (f f' f'' : dst.File) (ok : bool) :
  Forall (fun d => forall d'', reparsedDecl d d'' ->
                               settled (walkDecl (S (S (S k)))) d'')
         (dst.Decls f) ->
  EndProcess (rule true) f = Some (f', ok) ->
  Forall2 reparsedDecl (dst.Decls f') (dst.Decls f'') ->
  Forall (settled (walkDecl (S (S (S k))))) (dst.Decls f'').
Proof.
  intros HD HE HR.
  apply EndProcess_inv in HE as [_ [-> | [Hwf [Hr | [Ha | Hp]]]]].
  - exact (Forall_reparsed _ _ _ _ HD HR).
  - destruct Hr as (pre & spre & N & P & spost & lp & rp & post & Hds & _
                    & _ & _ & ->).
    pose proof (wellFormed_specs pre post _ lp rp f Hds Hwf) as HS.
    rewrite Hds in HD. cbn [dst.Decls] in HR.
    apply Forall_app in HD as [HDpre HD]. apply Forall_cons in HD as [_ HDpost].
    apply Forall2_app_inv_l in HR as (pre'' & rest'' & HRpre & HRrest & ->).
    apply Forall2_cons_inv_l in HRrest as (g'' & post'' & Hg & HRpost & ->).
    apply Forall_app. split; [exact (Forall_reparsed _ _ _ _ HDpre HRpre)|].
    constructor; [|exact (Forall_reparsed _ _ _ _ HDpost HRpost)].
    eapply (settled_reparsed_import k); [|exact Hg].
    rewrite forallb_app in *. simpl in *. exact HS.
  - destruct Ha as (pre & Specs & lp & rp & post & Hds & _ & ->).
    pose proof (wellFormed_specs pre post _ lp rp f Hds Hwf) as HS.
    rewrite Hds in HD. cbn [dst.Decls] in HR.
    apply Forall_app in HD as [HDpre HD]. apply Forall_cons in HD as [_ HDpost].
    apply Forall2_app_inv_l in HR as (pre'' & rest'' & HRpre & HRrest & ->).
    apply Forall2_cons_inv_l in HRrest as (g'' & post'' & Hg & HRpost & ->).
    apply Forall_app. split; [exact (Forall_reparsed _ _ _ _ HDpre HRpre)|].
    constructor; [|exact (Forall_reparsed _ _ _ _ HDpost HRpost)].
    eapply (settled_reparsed_import k); [|exact Hg].
    rewrite forallb_app. simpl. by rewrite HS.
  - destruct Hp as [_ ->]. cbn [dst.Decls] in HR.
    apply Forall2_cons_inv_l in HR as (g'' & rest'' & Hg & HRrest & ->).
    constructor; [|exact (Forall_reparsed _ _ _ _ HD HRrest)].
    by eapply (settled_reparsed_import k); [|exact Hg].
Qed.

(** After a pass that recorded a change and its finalize step, a second
    pass over the resulting tree, reparsed, returns that tree, and so
    does its finalize step. *)
Lemma Inspect_reparsed (df dfw df1 df2 : dst.File) (p' : State)
    (ok : bool) :
  Inspect (rule false) df = Some (p', dfw) ->
  changed p' = true ->
  EndProcess p' dfw = Some (df1, ok) ->
  reparsedFile df1 df2 ->
  exists d',
    Inspect (rule false) df2 = Some (rule d', df2) /\
    EndProcess (rule d') df2 = Some (df2, d').
Proof.
  unfold Inspect at 1. unfold depthFile. intros Hw Hc HE [_ HR].
  remember (Nat.max 3 (maxList depthDecl (dst.Decls df))) as K eqn:HK.
  assert (3 <= K) as HK3 by lia. clear HK.
  destruct K as [|[|[|k]]]; try lia. clear HK3.
  destruct (walk_stable (S (S (S k)))) as (IHE & _ & _ & _ & IHD & _).
  destruct (walk_reparsed (S (S (S k)))) as (_ & _ & _ & _ & RD & _).
  pose proof (stable_walkList _ _ IHD) as IHDs.
  pose proof (reparses_Forall _ _ _ IHD RD) as RDs.
  unfold stable in IHE. clear IHD.
  cbn [walkFile] in Hw. trace_walks Hw. fix_ignored.
  cbn [changed rule setChanged] in Hc. rewrite Hc in HE.
  match goal with
  | W : walkList _ _ _ = Some _ |- _ => apply RDs in W; rename W into HD
  end.
  pose proof (settled_after_EndProcess k
                {| dst.FileName := dst.FileName df; dst.Decls := l |}
                df1 df2 ok HD HE HR) as HD2.
  apply settled_walkFile in HD2 as [d' HD2].
  exists d'. split.
  - apply (Inspect_walkFile (S (S (S (S k))))). exact (HD2 false).
  - destruct d'; [|reflexivity].
    destruct (EndProcess_found _ _ _ HE) as (i & j & Hfind).
    unfold EndProcess.
    change (negb (changed (rule true))) with false. cbv iota.
    change (pkgPath (rule true)) with "github.com/pkg/errors".
    by rewrite findImportByPath_getImports,
         (findDecls_reparsed 0 _ _ _ HR), Hfind.
Qed.
End Again.

Section ProcessAgain.
Context `{strconv.Strconv} `{decorator.Decorator}.

End ProcessAgain.

(** Proves that one concrete tree is a reparse of another. *)
Ltac reparsed_tree :=
  repeat first
    [ split; [reflexivity
             | let HH := fresh "HH" in
               intros HH; first [reflexivity | discriminate HH]]
    | constructor ].



(** ** The repository's tests, on trees *)

Example test_WithStack_5 :
  @processor.runRules plainStrconv newDstProcessors withStack5Input false
  = Returns (withStack5Output, true).
Proof. reflexivity. Qed.

Example test_Cause_2 :
  @processor.runRules plainStrconv newDstProcessors cause2Input false
  = Returns (cause2Output, true).
Proof. reflexivity. Qed.

Example test_errors_New_1 :
  @processor.runRules plainStrconv newDstProcessors errorsNewInput false
  = Returns (errorsNewOutput, true).
Proof. reflexivity. Qed.

Example test_Unchanged_1 :
  @processor.runRules plainStrconv newDstProcessors unchangedTree false
  = Returns (unchangedTree, false).
Proof. reflexivity. Qed.

(** * Further properties of the rules *)

Section RuleProperties.
Context `{strconv.Strconv}.

(** X1.  The type assertion rule: a type assertion or the guard of a type
    switch whose subject is the identifier [err] gets [errors.Cause(err)]
    as its subject and keeps its type; with any other subject it is left
    as it is and no change is recorded. *)
Theorem fixTypeAssertExpr_asserts_on_cause (b : bool)
    (T : option dst.Expr) :
  (forall o,
      ProcessExpr (rule b) (dst.TypeAssertExpr (errId o) T)
      = (rule true,
         dst.TypeAssertExpr (errorsCall "Cause" [errId None]) T)) /\
  (forall X,
      (forall o, X <> errId o) ->
      ProcessExpr (rule b) (dst.TypeAssertExpr X T)
      = (rule b, dst.TypeAssertExpr X T)).
Proof.
  split.
  - intros o. by destruct b.
  - intros X HX. cbn [ProcessExpr]. unfold fixTypeAssertExpr.
    assert (isName X (errIdent (rule b)) = false) as ->.
    { destruct (isName X (errIdent (rule b))) eqn:E; [|done].
      apply isName_true in E as [o ->]. by destruct (HX o). }
    cbn [negb]. by rewrite recordChanged_rule, orb_false_r.
Qed.

(** X2.  A call of [errors.New] on the unresolved identifier [errors] is
    recorded as a change and left as it is.  A call through a selector
    whose base identifier the parser resolved to an object of the file (a
    variable named [fmt] or [errors], say) is never taken for the package:
    it is left as it is and nothing is recorded. *)
Theorem fixCallExpr_matches_packages_only (b : bool)
    (Args : list dst.Expr) (el : bool) :
  (forall so,
      ProcessExpr (rule b)
        (dst.CallExpr
           (dst.SelectorExpr (dst.Id (dst.NewIdent "errors"))
                             {| dst.Name := "New"; dst.Obj := so |})
           Args el)
      = (rule true,
         dst.CallExpr
           (dst.SelectorExpr (dst.Id (dst.NewIdent "errors"))
                             {| dst.Name := "New"; dst.Obj := so |})
           Args el)) /\
  (forall pkg obj Sel,
      ProcessExpr (rule b)
        (dst.CallExpr
           (dst.SelectorExpr
              (dst.Id {| dst.Name := pkg; dst.Obj := Some obj |}) Sel)
           Args el)
      = (rule b,
         dst.CallExpr
           (dst.SelectorExpr
              (dst.Id {| dst.Name := pkg; dst.Obj := Some obj |}) Sel)
           Args el)).
Proof.
  split.
  - intros so. by destruct b.
  - intros pkg obj Sel. cbn [ProcessExpr]. unfold fixCallExpr. cbn.
    rewrite !andb_false_r. by destruct b.
Qed.
End RuleProperties.

Lemma fixTypeAssertExpr_asserts_on_cause_witness :
  @ProcessExpr plainStrconv (rule false)
    (dst.TypeAssertExpr (dst.Id (dst.NewIdent "e")) None)
  = (rule false, dst.TypeAssertExpr (dst.Id (dst.NewIdent "e")) None).
Proof.
  apply (proj2 (@fixTypeAssertExpr_asserts_on_cause plainStrconv false None)).
  intros o. discriminate.
Defined.

(** * Further properties of the traversal *)

Lemma fixReturnStmt_unchanged (p : State) (Rs Rs1 : list dst.Expr) :
  fixReturnStmt p Rs = (Rs1, false) -> Rs1 = Rs.
Proof.
  intros E. apply fixReturnStmt_cases in E as [[-> _] | (x & _ & _ & _ & ?)];
    [done | discriminate].
Qed.

Lemma fixTypeAssertExpr_unchanged (p : State) (X X1 : dst.Expr) :
  fixTypeAssertExpr p X = (X1, false) -> X1 = X.
Proof.
  intros E. apply fixTypeAssertExpr_cases in E as [[-> _] | (_ & ? & _)];
    [done | discriminate].
Qed.

Section Unflagged.
Context `{strconv.Strconv}.

Lemma fixCallExpr_unchanged (p : State) (F F1 : dst.Expr)
    (A A1 : list dst.Expr) :
  fixCallExpr p F A = ((F1, A1), false) -> F1 = F /\ A1 = A.
Proof.
  intros E. apply fixCallExpr_cases in E as [[-> ->] | (_ & ? & _)];
    [done | discriminate].
Qed.

Lemma unflagged_walkList {A : Type} (w : State -> A -> option (State * A))
    (rel : A -> A -> Prop) :
  stable w rel -> unflagged w -> unflagged (walkList w).
Proof.
  intros Hs Hu b l. revert b.
  induction l as [|x l IH]; intros b p' l'; simpl.
  - by intros [= <- <-].
  - destruct (w (rule b) x) as [[p1 x']|] eqn:E1; simpl; [|discriminate].
    pose proof E1 as W1. apply Hs in E1 as ([d1 ->] & _ & _).
    destruct (walkList w (rule (b || d1)) l) as [[p2 r']|] eqn:E2; simpl;
      [|discriminate].
    pose proof E2 as W2.
    apply (stable_walkList w rel Hs) in E2 as ([d2 ->] & _ & _).
    intros [= <- <-] Hc. simpl in Hc.
    apply orb_false_iff in Hc as [Hc ->].
    apply orb_false_iff in Hc as [-> ->].
    f_equal.
    + by apply (Hu _ _ _ _ W1).
    + by apply (IH _ _ _ W2).
Qed.

Lemma unflagged_walkOpt {A : Type} (w : State -> A -> option (State * A)) :
  unflagged w -> unflagged (walkOpt w).
Proof.
  intros Hu b [x|] p' o'; simpl.
  - destruct (w (rule b) x) as [[p1 x']|] eqn:E1; simpl; [|discriminate].
    intros [= <- <-] Hc. f_equal. by apply (Hu _ _ _ _ E1).
  - by intros [= <- <-].
Qed.
End Unflagged.

(** Runs the walks of [Hw] as [run_walks] does and keeps each of them. *)
Ltac keep_walks Hw :=
  repeat first_walk Hw
    ltac:(fun E => let W := fresh "W" in pose proof E as W; use_stable E);
  rewrite ?recordChanged_rule in Hw;
  injection Hw as <- <-.

Ltac flags_down :=
  let Hc := fresh "Hc" in
  intros Hc; simpl in Hc;
  repeat (apply orb_false_iff in Hc; destruct Hc as [Hc ?]);
  subst.

Ltac same_children :=
  repeat match goal with
         | IH : unflagged ?w, W : ?w (rule _) _ = Some _ |- _ =>
             let E := fresh "E" in
             pose proof (IH _ _ _ _ W eq_refl) as E; clear W; subst
         end.

Section WalkUnflagged.
Context `{strconv.Strconv}.

Lemma walk_unflagged (k : nat) :
  unflagged (walkExpr k) /\
  unflagged (walkStmt k) /\
  unflagged (walkBody k) /\
  unflagged (walkSpec k) /\
  unflagged (walkDecl k) /\
  unflagged (walkNode k).
Proof.
  induction k as [|k (UE & US & UB & USp & UD & UN)].
  { split; [|split; [|split; [|split; [|split]]]];
      intros b n p' n' Hw; discriminate. }
  destruct (walk_stable k) as (IHE & IHS & IHB & IHSp & IHD & IHN).
  pose proof (unflagged_walkList _ _ IHE UE) as UEs.
  pose proof (unflagged_walkList _ _ IHS US) as USs.
  pose proof (unflagged_walkList _ _ IHSp USp) as USps.
  pose proof (unflagged_walkList _ _ IHN UN) as UNs.
  pose proof (unflagged_walkOpt _ UE) as UEo.
  pose proof (unflagged_walkOpt _ US) as USo.
  pose proof (unflagged_walkOpt _ UN) as UNo.
  pose proof (unflagged_walkOpt _ UB) as UBo.
  pose proof (stable_walkList _ _ IHE) as IHEs.
  pose proof (stable_walkList _ _ IHS) as IHSs.
  pose proof (stable_walkList _ _ IHSp) as IHSps.
  pose proof (stable_walkList _ _ IHN) as IHNs.
  pose proof (stable_walkOpt _ _ IHE) as IHEo.
  pose proof (stable_walkOpt _ _ IHS) as IHSo.
  pose proof (stable_walkOpt _ _ IHN) as IHNo.
  pose proof (stable_walkOpt _ _ IHB) as IHBo.
  unfold stable in IHE, IHS, IHB, IHSp, IHD, IHN, IHEo, IHSo, IHNo, IHBo.
  split; [|split; [|split; [|split; [|split]]]].
  - (* expressions *)
    intros b n p' n' Hw. cbn [walkExpr] in Hw.
    destruct n as [id|lit|X Op Y|F A el|X Sel|X T|X|Op X|T Body|kind ch];
      cbn [ProcessExpr] in Hw.
    + keep_walks Hw. done.
    + keep_walks Hw. done.
    + keep_walks Hw. flags_down. same_children. done.
    + destruct (fixCallExpr (rule b) F A) as [[F1 A1] d0] eqn:EF.
      keep_walks Hw. flags_down. same_children.
      by apply fixCallExpr_unchanged in EF as [-> ->].
    + keep_walks Hw. flags_down. same_children. done.
    + destruct (fixTypeAssertExpr (rule b) X) as [X1 d0] eqn:EF.
      keep_walks Hw. flags_down. same_children.
      by apply fixTypeAssertExpr_unchanged in EF as ->.
    + keep_walks Hw. flags_down. same_children. done.
    + keep_walks Hw. flags_down. same_children. done.
    + keep_walks Hw. flags_down. same_children. done.
    + keep_walks Hw. flags_down. same_children. done.
  - (* statements *)
    intros b n p' n' Hw. cbn [walkStmt] in Hw.
    destruct n as [Rs|Init Cond Body Else|List|X|Lhs Tok Rhs|d|kind ch];
      cbn [ProcessStmt] in Hw.
    + destruct (fixReturnStmt (rule b) Rs) as [Rs1 d0] eqn:EF.
      keep_walks Hw. flags_down. same_children.
      by apply fixReturnStmt_unchanged in EF as ->.
    + destruct (fixIfStmt (rule b) Cond) as [Cond1 d0] eqn:EF.
      keep_walks Hw. flags_down. same_children.
      by apply fixIfStmt_unchanged in EF as ->.
    + keep_walks Hw. flags_down. same_children. done.
    + keep_walks Hw. flags_down. same_children. done.
    + keep_walks Hw. flags_down. same_children. done.
    + keep_walks Hw. flags_down. same_children. done.
    + keep_walks Hw. flags_down. same_children. done.
  - (* block fields *)
    intros b n p' n' Hw. cbn [walkBody ProcessStmt] in Hw.
    keep_walks Hw. flags_down. same_children. done.
  - (* specs *)
    intros b n p' n' Hw. cbn [walkSpec Process] in Hw.
    destruct n as [Name Path|Names T Values|kind ch].
    + keep_walks Hw. done.
    + keep_walks Hw. flags_down. same_children. done.
    + keep_walks Hw. flags_down. same_children. done.
  - (* declarations *)
    intros b n p' n' Hw. cbn [walkDecl Process] in Hw.
    destruct n as [Tok Specs lp rp|Recv Name T Body|].
    + keep_walks Hw. flags_down. same_children. done.
    + keep_walks Hw. flags_down. same_children. done.
    + keep_walks Hw. done.
  - (* nodes *)
    intros b n p' n' Hw. cbn [walkNode] in Hw.
    destruct n as [e|s|s|d|kind ch]; cbn [Process] in Hw.
    + keep_walks Hw. flags_down. same_children. done.
    + keep_walks Hw. flags_down. same_children. done.
    + keep_walks Hw. flags_down. same_children. done.
    + keep_walks Hw. flags_down. same_children. done.
    + keep_walks Hw. flags_down. same_children. done.
Qed.
End WalkUnflagged.

Section InspectProperties.
Context `{strconv.Strconv}.

Lemma walkFile_flag (k : nat) (b : bool) (f f' : dst.File) (p' : State) :
  walkFile k (rule b) f = Some (p', f') ->
  (exists d, p' = rule (b || d)) /\ (changed p' = false -> f' = f).
Proof.
  destruct k as [|k]; [discriminate|]. intros Hw.
  destruct (walk_stable k) as (IHE & _ & _ & _ & IHD & _).
  destruct (walk_unflagged k) as (UE & _ & _ & _ & UD & _).
  pose proof (unflagged_walkList _ _ IHD UD) as UDs.
  pose proof (stable_walkList _ _ IHD) as IHDs.
  unfold stable in IHE. clear IHD.
  cbn [walkFile] in Hw. keep_walks Hw.
  split; [close_state|]. flags_down. same_children. by destruct f.
Qed.

(** X3.  A traversal changes nothing of the rule object but its flag, and
    the flag only from false to true; and when the flag is false after the
    traversal, the tree is the tree the traversal was given: no rule
    rewrites a node without recording it. *)
Theorem Inspect_records_every_rewrite (b : bool) (df df' : dst.File)
    (p' : State) :
  Inspect (rule b) df = Some (p', df') ->
  (exists d, p' = rule (b || d)) /\ (changed p' = false -> df' = df).
Proof. apply walkFile_flag. Qed.
End InspectProperties.

Lemma Inspect_records_every_rewrite_witness :
  (exists d, rule false = rule (false || d)) /\
  (changed (rule false) = false -> unchangedTree = unchangedTree).
Proof.
  apply (@Inspect_records_every_rewrite plainStrconv false unchangedTree
           unchangedTree (rule false)).
  vm_compute. reflexivity.
Defined.

(** ** The traversal and the import declarations *)

Lemma walkList_Forall2 {A : Type} (w : State -> A -> option (State * A))
    (R : A -> A -> Prop) :
  (forall p x p' x', w p x = Some (p', x') -> R x x') ->
  forall p l p' l', walkList w p l = Some (p', l') -> Forall2 R l l'.
Proof.
  intros Hw p l. revert p.
  induction l as [|x l IH]; intros p p' l'; simpl.
  - intros [= <- <-]. constructor.
  - destruct (w p x) as [[p1 x']|] eqn:E1; simpl; [|discriminate].
    destruct (walkList w p1 l) as [[p2 r']|] eqn:E2; simpl; [|discriminate].
    intros [= <- <-]. constructor; eauto.
Qed.

(** Destructs the walks of [Hw], whatever the state they start from. *)
Ltac next_walks Hw :=
  repeat match type of Hw with
         | context [mbind _ ?m] =>
             destruct m as [[? ?]|] eqn:?;
             cbn [mbind option_bind] in Hw; cbv beta iota in Hw;
             [|discriminate]
         end.

Lemma Forall2_keepsImports_self (l l' : list dst.Spec) :
  forallb isImportSpec l = true ->
  Forall2 (fun s s' => isImportSpec s = true -> s' = s) l l' -> l' = l.
Proof.
  intros Hl HF. induction HF as [|s s' l l' Hs _ IH]; [done|].
  simpl in Hl. apply andb_true_iff in Hl as [H1 H2].
  by rewrite (Hs H1), (IH H2).
Qed.

Section ImportsKept.
Context `{strconv.Strconv}.

Lemma walkSpec_ImportSpec (k : nat) (p : State) (s : dst.Spec)
    (p' : State) (s' : dst.Spec) :
  walkSpec k p s = Some (p', s') -> isImportSpec s = true -> s' = s.
Proof.
  destruct k as [|k]; [discriminate|]. intros Hw Hs.
  destruct s as [Name Path| |]; try discriminate.
  cbn [walkSpec Process] in Hw. next_walks Hw. by injection Hw as _ <-.
Qed.

Lemma walkDecl_keepsImports (k : nat) (p : State) (d : dst.Decl)
    (p' : State) (d' : dst.Decl) :
  walkDecl k p d = Some (p', d') -> keepsImports d d'.
Proof.
  destruct k as [|k]; [discriminate|]. intros Hw.
  destruct d as [Tok Specs lp rp|Recv Name T Body|];
    cbn [walkDecl Process] in Hw.
  - destruct (walkList (walkSpec k) (recordChanged p false) Specs)
      as [[p1 Specs']|] eqn:E; cbn [mbind option_bind] in Hw;
      [|discriminate].
    injection Hw as _ <-. split; [done|]. intros _ HS. simpl in HS.
    f_equal.
    apply (Forall2_keepsImports_self _ _ HS).
    apply (walkList_Forall2 (walkSpec k) _ (walkSpec_ImportSpec k) _ _ _ _ E).
  - next_walks Hw. injection Hw as _ <-. by split.
  - injection Hw as _ <-. by split.
Qed.

Lemma keepsImports_importsFrom (i : nat) (ds ds' : list dst.Decl) :
  Forall2 keepsImports ds ds' -> importsFrom i ds' = importsFrom i ds.
Proof.
  intros HF. revert i.
  induction HF as [|d d' ds ds' [Hd _] _ IH]; intros i; [done|].
  simpl. by rewrite Hd, !IH.
Qed.

Lemma keepsImports_wellFormed (ds ds' : list dst.Decl) :
  Forall2 keepsImports ds ds' ->
  forallb (fun d => if isImportDecl d then forallb isImportSpec (declSpecs d)
                    else true) ds = true ->
  forallb (fun d => if isImportDecl d then forallb isImportSpec (declSpecs d)
                    else true) ds' = true /\
  (forall ipath, countDecls ipath ds' = countDecls ipath ds) /\
  (forall i d, ds !! i = Some d -> isImportDecl d = true ->
               ds' !! i = Some d).
Proof.
  intros HF.
  induction HF as [|d d' ds ds' [Hd Hsame] _ IH]; [done|].
  cbn [forallb]. intros Hwf. apply andb_true_iff in Hwf as [H1 H2].
  destruct (IH H2) as (IHwf & IHc & IHl).
  destruct (isImportDecl d) eqn:Ed.
  - rewrite (Hsame eq_refl H1). rewrite Ed, H1, IHwf.
    split; [done|]. split.
    + intros ipath. simpl. by rewrite IHc.
    + intros [|i] d0; simpl; [done | apply IHl].
  - rewrite Hd, IHwf. split; [done|]. split.
    + intros ipath. simpl. unfold countDecl. by rewrite Hd, Ed, IHc.
    + intros [|i] d0; simpl; [|apply IHl].
      intros [= <-]. congruence.
Qed.

Lemma Inspect_imports (p p' : State) (df df' : dst.File) :
  Inspect p df = Some (p', df') ->
  importsWellFormed df = true ->
  dst.FileName df' = dst.FileName df /\
  getImports df' = getImports df /\
  (forall i d, dst.Decls df !! i = Some d -> isImportDecl d = true ->
               dst.Decls df' !! i = Some d) /\
  (forall ipath, countImports df' ipath = countImports df ipath) /\
  importsWellFormed df' = true.
Proof.
  unfold Inspect. destruct (depthFile df) as [|k]; [discriminate|].
  intros Hw Hwf. cbn [walkFile] in Hw.
  destruct (walkExpr k (recordChanged p false) (dst.Id (dst.FileName df)))
    as [[p1 e]|]; cbn [mbind option_bind] in Hw; [|discriminate].
  destruct (walkList (walkDecl k) p1 (dst.Decls df)) as [[p2 ds']|] eqn:E;
    cbn [mbind option_bind] in Hw; [|discriminate].
  injection Hw as _ <-.
  pose proof (walkList_Forall2 (walkDecl k) _ (walkDecl_keepsImports k)
                _ _ _ _ E) as HF.
  destruct (keepsImports_wellFormed _ _ HF Hwf) as (Hwf' & Hc & Hl).
  split; [done|]. split; [apply (keepsImports_importsFrom 0 _ _ HF)|].
  split; [exact Hl|]. split; [exact Hc | exact Hwf'].
Qed.

(** X4.  The traversal leaves the import table of a file alone, whatever
    the state of the rule object: when the specs of every import
    declaration are import specs (as the parser has them), the file
    returned has the name of the file given, import declarations at the
    same positions and no others, every import declaration as it was, and
    so as many imports of every path as before. *)
Theorem Inspect_keeps_imports (p p' : State) (df df' : dst.File) :
  Inspect p df = Some (p', df') ->
  importsWellFormed df = true ->
  dst.FileName df' = dst.FileName df /\
  getImports df' = getImports df /\
  (forall i d, dst.Decls df !! i = Some d -> isImportDecl d = true ->
               dst.Decls df' !! i = Some d) /\
  (forall ipath, countImports df' ipath = countImports df ipath) /\
  importsWellFormed df' = true.
Proof. apply Inspect_imports. Qed.
End ImportsKept.

Lemma Inspect_keeps_imports_witness :
  dst.FileName withStack5Output = dst.FileName withStack5Input /\
  getImports withStack5Output = getImports withStack5Input.
Proof.
  pose proof (@Inspect_keeps_imports plainStrconv (rule false) (rule true)
                withStack5Input
                {| dst.FileName := dst.FileName withStack5Input;
                   dst.Decls :=
                     take 3 (dst.Decls withStack5Input) ++
                     drop 3 (dst.Decls withStack5Output) |}
                eq_refl eq_refl) as (H1 & H2 & _).
  split; [exact H1 | exact H2].
Defined.

(** * Further properties of the controller *)

Section ProcessProperties.
Context `{strconv.Strconv} `{decorator.Decorator}.

(** X5.  The traversal of [Process] ends, although the rules put new
    nodes into the tree and the traversal visits them: the nesting of
    [Walk] calls stays within the bound [depthFile] of the parsed tree, so
    every run returns a file, fails with an error or panics, and none
    stops at the bound. *)
Theorem Process_traversal_ends (f : File) :
  (exists f2, snd (processor.Process f) = Returns f2) \/
  (exists e, snd (processor.Process f) = Fails e) \/
  snd (processor.Process f) = Panics.
Proof.
  unfold processor.Process.
  destruct (decorator.ParseFile (Name f) (Content f)) as [df|err];
    [|right; left; by eexists].
  unfold newDstProcessors. cbn [processor.runRules].
  destruct (Inspect_total newPkgErrorsDstProcessor df) as [[p' df'] ->].
  destruct (EndProcess p' df') as [[df'' ok]|]; [|by right; right].
  cbn [processor.runRules]. destruct (negb (false || ok)); [left; by eexists|].
  destruct (decorator.Fprint df''); [left | right; left]; by eexists.
Qed.

Lemma Inspect_EndProcess (df : dst.File) :
  importsWellFormed df = true ->
  exists p' df' df'' ok,
    Inspect newPkgErrorsDstProcessor df = Some (p', df') /\
    EndProcess p' df' = Some (df'', ok) /\
    ok = changed p' /\
    (ok = true ->
     (0 < countImports df' "github.com/pkg/errors" /\ df'' = df') \/
     errorsImportReplaced df' df'' \/
     appendedToFirstGroup df' df'' \/ newGroupPrepended df' df'').
Proof.
  intros Hwf.
  destruct (Inspect_total newPkgErrorsDstProcessor df) as [[p' df'] E].
  pose proof (Inspect_imports _ _ _ _ E Hwf) as (_ & _ & _ & _ & Hwf').
  change newPkgErrorsDstProcessor with (rule false) in E.
  pose proof (walkFile_flag _ _ _ _ _ E) as [[d ->] _].
  change newPkgErrorsDstProcessor with (rule false).
  exists (rule (false || d)), df'. destruct d.
  - destruct (EndProcess_cases df' Hwf') as (df'' & HE & Hcases).
    exists df'', true. split; [exact E|]. split; [exact HE|].
    split; [done|]. intros _.
    destruct Hcases as [? | [(_ & _ & ?) | (_ & _ & [?|?])]]; auto.
  - exists df', false. split; [exact E|]. split; [done|]. by split.
Qed.

(** X6.  On a file that parses to a tree whose import declarations hold
    import specs only, [Process] does not panic: it either returns a file
    with the name of the input and no error, or fails with the error of
    the printer. *)
Theorem Process_returns_or_fails (f : File) (df : dst.File) :
  decorator.ParseFile (Name f) (Content f) = inl df ->
  importsWellFormed df = true ->
  (exists content,
      snd (processor.Process f)
      = Returns {| Name := Name f; Content := content; Error := None |}) \/
  (exists err,
      snd (processor.Process f)
      = Fails ("error while generating source code based on ast, " ++ err)).
Proof.
  intros HP Hwf. unfold processor.Process. rewrite HP.
  unfold newDstProcessors. cbn [processor.runRules].
  destruct (Inspect_EndProcess df Hwf)
    as (p' & df' & df'' & ok & -> & -> & _ & _).
  cbn [processor.runRules orb]. destruct (negb ok); [left; by eexists|].
  destruct (decorator.Fprint df'') as [text|err];
    [left | right]; by eexists.
Qed.

End ProcessProperties.

(** The repository's test [errors.New#1]. *)
Lemma Process_returns_or_fails_witness :
  (exists content,
      snd (@processor.Process plainStrconv testDecorator errorsNewFile)
      = Returns {| Name := Name errorsNewFile; Content := content;
                   Error := None |}) \/
  (exists err,
      snd (@processor.Process plainStrconv testDecorator errorsNewFile)
      = Fails ("error while generating source code based on ast, " ++ err)).
Proof.
  apply (@Process_returns_or_fails plainStrconv testDecorator errorsNewFile
           errorsNewInput); reflexivity.
Defined.


(** * Further properties of the import table *)

Section ImportFrame.
Context `{strconv.Strconv}.
Hypothesis Unquote_Quote_pkgPath :
  strconv.Unquote (strconv.Quote "github.com/pkg/errors")
  = Some "github.com/pkg/errors".

Lemma specHasPath_pkg_other (ipath : string) (Name : option dst.Ident)
    (K : token.Token) :
  ipath <> "github.com/pkg/errors" ->
  specHasPath ipath
    (dst.ImportSpec Name
       {| dst.Kind := K;
          dst.Value := strconv.Quote "github.com/pkg/errors" |}) = false.
Proof.
  intros Hne. unfold specHasPath, importPath. simpl.
  rewrite Unquote_Quote_pkgPath. apply String.eqb_neq. congruence.
Qed.

(** X8.  [EndProcess] edits import declarations only.  Whenever it
    returns, the file has the name it had, the declarations that are not
    import declarations are the ones it had, in their order, and (when
    quoting the wrap library's path unquotes to it) every path other than
    [errors] and [github.com/pkg/errors] is imported as often as
    before. *)
Theorem EndProcess_edits_imports_only (b : bool) (f f' : dst.File)
    (ok : bool) :
  EndProcess (rule b) f = Some (f', ok) ->
  dst.FileName f' = dst.FileName f /\
  filter (fun d => isImportDecl d = false) (dst.Decls f')
  = filter (fun d => isImportDecl d = false) (dst.Decls f) /\
  (forall ipath,
      ipath <> "errors" -> ipath <> "github.com/pkg/errors" ->
      countImports f' ipath = countImports f ipath).
Proof.
  destruct b; [|rewrite EndProcess_unchanged by done; by intros [= <- _]].
  intros HE.
  apply EndProcess_inv in HE as [_ [-> | [_ [Hr | [Ha | Hp]]]]]; [done | | |].
  - destruct Hr as (pre & spre & N & P & spost & lp & rp & post & Hds & HP
                    & _ & _ & ->).
    split; [done|]. rewrite Hds. cbn [dst.Decls]. split.
    + by rewrite !filter_app, !filter_cons_False by done.
    + intros ipath He Hq. unfold countImports. cbn [dst.Decls].
      rewrite Hds, !countDecls_app. simpl. unfold countDecl. simpl.
      rewrite !specCount_app, !specCount_cons.
      rewrite (specHasPath_pkg_other ipath None (dst.Kind P) Hq).
      assert (specHasPath ipath (dst.ImportSpec N P) = false) as ->; [|done].
      simpl. rewrite HP. apply String.eqb_neq. congruence.
  - destruct Ha as (pre & Specs & lp & rp & post & Hds & _ & ->).
    split; [done|]. rewrite Hds. cbn [dst.Decls]. split.
    + by rewrite !filter_app, !filter_cons_False by done.
    + intros ipath He Hq. unfold countImports. cbn [dst.Decls].
      rewrite Hds, !countDecls_app. simpl. unfold countDecl. simpl.
      rewrite !specCount_app, !specCount_cons. unfold newImportSpec.
      rewrite (specHasPath_pkg_other ipath None token.STRING Hq).
      unfold specCount at 2. simpl. lia.
  - destruct Hp as [_ ->]. split; [done|]. cbn [dst.Decls]. split.
    + by rewrite filter_cons_False by done.
    + intros ipath He Hq. unfold countImports. simpl.
      unfold countDecl at 1. simpl. rewrite specCount_cons.
      unfold newImportSpec.
      by rewrite (specHasPath_pkg_other ipath None token.STRING Hq).
Qed.
End ImportFrame.

(** The imports of the repository's test [errors.New#1]. *)
Lemma EndProcess_edits_imports_only_witness :
  dst.FileName errorsNewOutput = dst.FileName errorsNewInput /\
  filter (fun d => isImportDecl d = false) (dst.Decls errorsNewOutput)
  = filter (fun d => isImportDecl d = false) (dst.Decls errorsNewInput) /\
  (forall ipath,
      ipath <> "errors" -> ipath <> "github.com/pkg/errors" ->
      @countImports plainStrconv errorsNewOutput ipath
      = @countImports plainStrconv errorsNewInput ipath).
Proof.
  apply (@EndProcess_edits_imports_only plainStrconv eq_refl true
           errorsNewInput errorsNewOutput true); reflexivity.
Defined.

Section ImportSearch.
Context `{strconv.Strconv}.

Lemma take_app_middle {A : Type} (pre post : list A) (x : A) :
  take (length pre) (pre ++ x :: post) = pre.
Proof. by rewrite take_app_length. Qed.

(** X9.  What [findImportByPath] answers on the import declarations
    [getImports] collects.  A spec it returns is an import spec of the
    path asked for, in an import declaration of the file, and it is the
    first such spec of the file: no import declaration before it holds
    one, nor does its own declaration at an earlier position.  It answers
    nil only if the file imports the path nowhere and every spec of every
    import declaration is an import spec; and it panics only on a file
    with an import declaration that holds another kind of spec. *)
Theorem findImportByPath_finds_first (f : dst.File) (ipath : string) :
  match findImportByPath f (getImports f) ipath with
  | FoundAt i j =>
      exists Specs lp rp Name Path,
        dst.Decls f !! i = Some (dst.GenDecl token.IMPORT Specs lp rp) /\
        Specs !! j = Some (dst.ImportSpec Name Path) /\
        importPath Path = ipath /\
        countDecls ipath (take i (dst.Decls f)) = 0 /\
        specCount ipath (take j Specs) = 0
  | NotFound => countImports f ipath = 0 /\ importsWellFormed f = true
  | AssertPanic => importsWellFormed f = false
  end.
Proof.
  rewrite findImportByPath_getImports.
  pose proof (findDecls_spec 0 (dst.Decls f) ipath) as HS.
  destruct (findDecls 0 (dst.Decls f) ipath) as [i j| |]; [|done|done].
  destruct HS as (pre & Tok & Specs & lp & rp & post & spre & N & P
                  & spost & Hds & -> & HT & -> & -> & HP & Hc & Hs).
  apply token_eqb_eq in HT. subst Tok. cbn [Nat.add].
  exists (spre ++ dst.ImportSpec N P :: spost)%list, lp, rp, N, P.
  rewrite Hds, !take_app_middle.
  split; [by apply list_lookup_middle|].
  split; [by apply list_lookup_middle|]. done.
Qed.

Lemma specHasPath_quoted (ipath q : string) (Name : option dst.Ident) :
  strconv.Unquote (strconv.Quote ipath) = Some ipath ->
  specHasPath q
    (dst.ImportSpec Name
       {| dst.Kind := token.STRING; dst.Value := strconv.Quote ipath |})
  = String.eqb ipath q.
Proof. intros HQ. unfold specHasPath, importPath. simpl. by rewrite HQ. Qed.

Lemma addImport_counts (f : dst.File) (ipath name : string) :
  strconv.Unquote (strconv.Quote ipath) = Some ipath ->
  (forall q,
      countImports (addImport f ipath name (getImports f)) q
      = (if String.eqb ipath q then 1 else 0) + countImports f q) /\
  filter (fun d => isImportDecl d = false)
         (dst.Decls (addImport f ipath name (getImports f)))
  = filter (fun d => isImportDecl d = false) (dst.Decls f) /\
  (importsWellFormed f = true ->
   importsWellFormed (addImport f ipath name (getImports f)) = true).
Proof.
  intros HQ. unfold addImport, getImports.
  set (ident := if String.eqb name "" then None
                else Some (dst.NewIdent name)).
  pose proof (importsFrom_spec 0 (dst.Decls f)) as HI.
  destruct (importsFrom 0 (dst.Decls f)) as [|i r].
  - cbn [dst.Decls]. split; [|split].
    + intros q. unfold countImports. simpl. unfold countDecl at 1. simpl.
      rewrite specCount_cons, (specHasPath_quoted ipath q ident HQ).
      unfold specCount at 1. simpl. lia.
    + by rewrite filter_cons_False by done.
    + unfold importsWellFormed. simpl. done.
  - destruct HI as (pre & Specs & lp & rp & post & Hds & -> & Hpre).
    cbn [dst.Decls Nat.add]. rewrite Hds, alter_middle. cbn [withSpecs].
    split; [|split].
    + intros q. unfold countImports. cbn [dst.Decls].
      rewrite ?Hds, !countDecls_app. simpl. unfold countDecl. simpl.
      rewrite specCount_app, specCount_cons,
        (specHasPath_quoted ipath q ident HQ).
      unfold specCount at 2. simpl. lia.
    + by rewrite !filter_app, !filter_cons_False by done.
    + intros Hwf.
      pose proof (wellFormed_split pre post Specs lp rp f Hds Hwf
                    (Specs ++ [dst.ImportSpec ident
                                 {| dst.Kind := token.STRING;
                                    dst.Value := strconv.Quote ipath |}])
                    lp rp) as Hwf'.
      apply Hwf'. rewrite forallb_app.
      rewrite (wellFormed_specs pre post Specs lp rp f Hds Hwf). done.
Qed.

(** X10.  [addImport], given the import declarations of the file, adds
    exactly one import of [ipath] and nothing else, whether or not the
    path is imported already: when quoting [ipath] unquotes to it, the
    path is imported once more than before, every other path as often as
    before, and the declarations that are not import declarations stay as
    they are; and on a file whose import declarations hold import specs
    only, [findImportByPath] then finds the path. *)
Theorem addImport_adds_one_import (f : dst.File) (ipath name : string) :
  strconv.Unquote (strconv.Quote ipath) = Some ipath ->
  countImports (addImport f ipath name (getImports f)) ipath
  = S (countImports f ipath) /\
  (forall q, q <> ipath ->
             countImports (addImport f ipath name (getImports f)) q
             = countImports f q) /\
  filter (fun d => isImportDecl d = false)
         (dst.Decls (addImport f ipath name (getImports f)))
  = filter (fun d => isImportDecl d = false) (dst.Decls f) /\
  (importsWellFormed f = true ->
   exists i j,
     findImportByPath (addImport f ipath name (getImports f))
       (getImports (addImport f ipath name (getImports f))) ipath
     = FoundAt i j).
Proof.
  intros HQ. destruct (addImport_counts f ipath name HQ) as (Hc & Hf & Hwf).
  split; [by rewrite Hc, String.eqb_refl|]. split; [|split; [exact Hf|]].
  - intros q Hq. rewrite Hc.
    by assert (String.eqb ipath q = false) as ->
        by (apply String.eqb_neq; congruence).
  - intros Hw. apply findDecls_FoundAt; [by apply Hwf|].
    rewrite Hc, String.eqb_refl. lia.
Qed.
End ImportSearch.

(** The import added to the repository's test [WithStack#5]. *)
Lemma addImport_adds_one_import_witness :
  @countImports plainStrconv
    (@addImport plainStrconv withStack5Input "github.com/pkg/errors" ""
       (getImports withStack5Input)) "github.com/pkg/errors"
  = S (@countImports plainStrconv withStack5Input "github.com/pkg/errors").
Proof.
  apply (@addImport_adds_one_import plainStrconv withStack5Input
           "github.com/pkg/errors" ""). reflexivity.
Defined.

(** * Further properties of the reader *)

Lemma validate_None (fs : reader.FS) (inputs : list reader.Input) :
  reader.validate fs inputs = None <-> Forall (validInput fs) inputs.
Proof.
  induction inputs as [|x inputs IH]; simpl; [by split|].
  rewrite Forall_cons.
  destruct x as [name content e|content e|p|]; simpl.
  - rewrite IH. tauto.
  - rewrite IH. tauto.
  - destruct (reader.Stat fs p) as [info|err].
    + rewrite IH. split; [intros ?; split; eauto | tauto].
    + split; [discriminate | by intros [[info ?] _]].
  - split; [discriminate | tauto].
Qed.

(** X11.  [Read] returns a channel exactly when there is at least one
    input, no input is of an unsupported type and every string input can
    be statted at that moment; the files sent on the channel are then the
    ones the goroutine reads, with the handle counter started at 0. *)
Theorem Read_succeeds_iff (fs0 fs1 : reader.FS)
    (inputs : list reader.Input) :
  ((exists stream, reader.Read fs0 fs1 inputs = inr stream) <->
   inputs <> [] /\ Forall (validInput fs0) inputs) /\
  (forall stream, reader.Read fs0 fs1 inputs = inr stream ->
                  stream = reader.read fs1 0 inputs).
Proof.
  unfold reader.Read. split.
  - rewrite <- validate_None.
    destruct inputs as [|x inputs]; simpl Nat.eqb; cbv iota.
    + split; [by intros [? ?] | by intros [? _]].
    + destruct (reader.validate fs0 (x :: inputs)).
      * split; [by intros [? ?] | by intros [_ ?]].
      * split; [done | intros _; by eexists].
  - intros stream. destruct (Nat.eqb (length inputs) 0); [discriminate|].
    destruct (reader.validate fs0 inputs); [discriminate|]. by intros [= <-].
Qed.

(** Standard input alone is accepted. *)
Lemma Read_succeeds_iff_witness :
  exists stream,
    reader.Read emptyFS emptyFS [reader.IoReader ("package a" ++ nl) None]
    = inr stream.
Proof.
  apply (proj1 (Read_succeeds_iff emptyFS emptyFS
                  [reader.IoReader ("package a" ++ nl) None])).
  split; [discriminate | repeat constructor].
Defined.

Lemma countHandles_cons (x : reader.Input) (xs : list reader.Input) :
  countHandles (x :: xs)
  = (if isHandle x then 1 else 0) + countHandles xs.
Proof.
  unfold countHandles. rewrite filter_cons.
  destruct (isHandle x) eqn:E; simpl; [reflexivity|].
  destruct (decide (false = true)); [discriminate | reflexivity].
Qed.

Lemma read_app (fs : reader.FS) (i : nat) (xs ys : list reader.Input) :
  reader.read fs i (xs ++ ys)
  = (reader.read fs i xs ++ reader.read fs (i + countHandles xs) ys)%list.
Proof.
  revert i. induction xs as [|x xs IH]; intros i.
  - simpl. by rewrite Nat.add_0_r.
  - rewrite countHandles_cons.
    destruct x as [name content e|content e|p|]; simpl.
    + rewrite IH, Nat.add_succ_r. reflexivity.
    + rewrite IH, Nat.add_succ_r. reflexivity.
    + rewrite IH.
      destruct (reader.Stat fs p); simpl; by rewrite <- ?app_assoc.
    + apply IH.
Qed.

(** X12.  How the goroutine names the handles.  The file of an
    [*os.File] or [io.Reader] input is sent after the files of all the
    inputs before it and before those of the inputs after it; it carries
    what was read from the handle and the read error; and with [k] handles
    among the inputs before it, its name is the handle's name (or
    [io.Reader]) if [k] is 0 and that name followed by [#k] otherwise.
    String inputs do not advance the counter. *)
Theorem read_numbers_handles (fs : reader.FS)
    (xs ys : list reader.Input) (content : string) (err : option error) :
  (forall name,
      reader.read fs 0 (xs ++ reader.OsFile name content err :: ys)
      = (reader.read fs 0 xs ++
         {| Name := if Nat.ltb 0 (countHandles xs)
                    then name ++ "#" ++ reader.itoa (countHandles xs)
                    else name;
            Content := content; Error := err |}
         :: reader.read fs (S (countHandles xs)) ys)%list) /\
  reader.read fs 0 (xs ++ reader.IoReader content err :: ys)
  = (reader.read fs 0 xs ++
     {| Name := if Nat.ltb 0 (countHandles xs)
                then "io.Reader" ++ "#" ++ reader.itoa (countHandles xs)
                else "io.Reader";
        Content := content; Error := err |}
     :: reader.read fs (S (countHandles xs)) ys)%list.
Proof. split; [intros name|]; by rewrite read_app. Qed.

Lemma readPath_go (fs : reader.FS) (p : string) (f : File) :
  f ∈ reader.readPath fs p -> strings.HasSuffix (Name f) ".go" = true.
Proof.
  unfold reader.readPath.
  destruct (strings.HasSuffix p ".go") eqn:E; simpl.
  - destruct (reader.ReadFile fs p) as [content err].
    intros Hin. apply list_elem_of_singleton in Hin. by subst.
  - intros Hin. by apply elem_of_nil in Hin.
Qed.

Lemma walkEntries_go (fs : reader.FS) (es : list reader.WalkEntry)
    (f : File) :
  f ∈ fst (reader.walkEntries fs es) ->
  strings.HasSuffix (Name f) ".go" = true.
Proof.
  induction es as [|[p info|p err] es IH]; simpl.
  - intros Hin. by apply elem_of_nil in Hin.
  - destruct (reader.walkEntries fs es) as [fs' e]. simpl in *.
    intros Hin. apply elem_of_app in Hin as [Hin | Hin]; [|by apply IH].
    destruct (reader.IsDir info); simpl in Hin;
      [by apply elem_of_nil in Hin | by apply (readPath_go fs p)].
  - intros Hin. by apply elem_of_nil in Hin.
Qed.

Lemma readDir_go (fs : reader.FS) (dir : string) (f : File) :
  f ∈ reader.readDir fs dir ->
  strings.HasSuffix (Name f) ".go" = true \/
  (Content f = "" /\ is_Some (Error f)).
Proof.
  unfold reader.readDir.
  pose proof (walkEntries_go fs (reader.Walk fs dir) f) as Hgo.
  destruct (reader.walkEntries fs (reader.Walk fs dir)) as [files [e|]];
    simpl in Hgo.
  - intros Hin. apply elem_of_app in Hin as [Hin | Hin]; [by left; auto|].
    apply list_elem_of_singleton in Hin. subst. right. by split.
  - intros Hin. left. auto.
Qed.

(** X13.  From string inputs the reader sends the content of Go files
    only: every file sent for a path or a directory either has a name
    that ends in [.go], or it reports an error (of [os.Stat] or of the
    directory walk) and has no content. *)
Theorem read_paths_sends_go_files (fs : reader.FS) (i : nat)
    (inputs : list reader.Input) (f : File) :
  Forall (fun x => isPath x = true) inputs ->
  f ∈ reader.read fs i inputs ->
  strings.HasSuffix (Name f) ".go" = true \/
  (Content f = "" /\ is_Some (Error f)).
Proof.
  intros HP. induction HP as [|x inputs Hx _ IH]; simpl.
  - intros Hin. by apply elem_of_nil in Hin.
  - destruct x as [| |p|]; try discriminate.
    destruct (reader.Stat fs p) as [info|err].
    + intros Hin. apply elem_of_app in Hin as [Hin | Hin]; [|by apply IH].
      destruct (reader.IsDir info);
        [by apply (readDir_go fs p) | left; by apply (readPath_go fs p)].
    + intros Hin. apply elem_of_cons in Hin as [-> | Hin]; [|by apply IH].
      right. by split.
Qed.

Lemma walkEntries_visits (fs : reader.FS) (pre post : list reader.WalkEntry) :
  Forall (fun e => isVisit e = true) pre ->
  reader.walkEntries fs (pre ++ post)
  = ((mjoin (sentOnVisit fs <$> pre) ++ fst (reader.walkEntries fs post))%list,
     snd (reader.walkEntries fs post)).
Proof.
  induction 1 as [|[p info|p err] pre Hx _ IH]; simpl; try discriminate.
  - by destruct (reader.walkEntries fs post).
  - rewrite IH. by rewrite app_assoc.
Qed.

(** X14.  A directory walk that meets an error ends there.  When the
    visits of [filepath.Walk] on [dir] are the visits [pre], then a visit
    that reports the error [e], then [post], [readDir] sends what the
    visits [pre] send (the Go files among them that are not directories),
    then one file named [dir], without content, that carries [e]; and it
    sends nothing for [post]. *)
Theorem readDir_stops_at_walk_error (fs : reader.FS) (dir q : string)
    (e : error) (pre post : list reader.WalkEntry) :
  reader.Walk fs dir = (pre ++ reader.VisitErr q e :: post)%list ->
  Forall (fun x => isVisit x = true) pre ->
  reader.readDir fs dir
  = (mjoin (sentOnVisit fs <$> pre) ++
     [{| Name := dir; Content := ""; Error := Some e |}])%list.
Proof.
  intros HW Hpre. unfold reader.readDir.
  rewrite HW, (walkEntries_visits fs pre _ Hpre). simpl.
  by rewrite app_nil_r.
Qed.

Lemma read_paths_sends_go_files_witness :
  strings.HasSuffix "src/a.go" ".go" = true \/
  (("package a" ++ nl) = "" /\ is_Some (@None error)).
Proof.
  apply (read_paths_sends_go_files sampleFS 0
           [reader.Path "notes.txt"; reader.Path "src"]
           {| Name := "src/a.go"; Content := "package a" ++ nl;
              Error := None |}).
  - repeat constructor.
  - vm_compute. apply elem_of_cons. by left.
Defined.

Lemma readDir_stops_at_walk_error_witness :
  reader.readDir sampleFS "src"
  = [{| Name := "src/a.go"; Content := "package a" ++ nl; Error := None |};
     {| Name := "src"; Content := "";
        Error := Some "open src/private: permission denied" |}].
Proof.
  apply (readDir_stops_at_walk_error sampleFS "src" "src/private"
           "open src/private: permission denied"
           [reader.Visit "src" {| reader.IsDir := true |};
            reader.Visit "src/a.go" {| reader.IsDir := false |};
            reader.Visit "src/notes.txt" {| reader.IsDir := false |}]
           [reader.Visit "src/z.go" {| reader.IsDir := false |}]).
  - reflexivity.
  - repeat constructor.
Defined.

(** * Further properties of the orchestrator *)

Section GroupProperties.
Variable process : File -> File + error.
Variable write : File -> File -> option error.

Lemma step_groupInvariant (c : ErrFix.Choice) (s s' : ErrFix.St) :
  ErrFix.step process write c s = Some s' ->
  ErrFix.errCh s = [] ->
  groupInvariant process write s -> groupInvariant process write s'.
Proof.
  intros Hs He (Hlen & Hg & Hperm & Hfn & Hret). unfold ErrFix.step in Hs.
  destruct c, (ErrFix.phase s) eqn:Hph; try discriminate.
  - (* Receive *)
    destruct (ErrFix.ch s) as [|f rest]; [discriminate|].
    destruct (Nat.ltb (length (ErrFix.running s)) ErrFix.limit) eqn:El;
      [|discriminate].
    injection Hs as <-. apply Nat.ltb_lt in El.
    unfold groupInvariant. cbn.
    split; [rewrite length_app; simpl; lia|]. split; [exact Hg|].
    split; [by rewrite Hperm, app_assoc|]. split; [|done].
    intros f0 r Hin. apply elem_of_cons in Hin as [? | Hin]; [done|].
    by apply Hfn.
  - (* Closed *)
    destruct (ErrFix.ch s); [|discriminate]. injection Hs as <-.
    unfold groupInvariant. cbn. repeat split; try done.
  - (* ReceiveErr *)
    rewrite He in Hs. discriminate.
  - (* Finish, in the loop *)
    destruct (ErrFix.running s !! i) as [f|] eqn:Ei; [|discriminate].
    injection Hs as <-. unfold groupInvariant. cbn.
    split; [rewrite length_delete by eauto; lia|].
    split; [by rewrite Hg|].
    split.
    { rewrite Hperm, <- app_assoc. apply Permutation_app_head. simpl.
      by apply delete_Permutation. }
    split; [|done].
    intros f0 r Hin. apply elem_of_cons in Hin as [[= -> ->] | Hin]; [done|].
    by apply Hfn.
  - (* Finish, while waiting *)
    destruct (ErrFix.running s !! i) as [f|] eqn:Ei; [|discriminate].
    injection Hs as <-. unfold groupInvariant. cbn.
    split; [rewrite length_delete by eauto; lia|].
    split; [by rewrite Hg|].
    split.
    { rewrite Hperm, <- app_assoc. apply Permutation_app_head. simpl.
      by apply delete_Permutation. }
    split; [|done].
    intros f0 r Hin. apply elem_of_cons in Hin as [[= -> ->] | Hin]; [done|].
    by apply Hfn.
  - (* Finish, after the return: nothing runs *)
    destruct (Hret err eq_refl) as [_ Hrun]. rewrite Hrun in Hs.
    discriminate.
  - (* Return *)
    destruct (ErrFix.running s) eqn:Hrun; [|discriminate].
    injection Hs as <-. unfold groupInvariant. cbn.
    split; [lia|]. split; [exact Hg|]. split; [exact Hperm|].
    split; [exact Hfn|]. by intros r [= <-].
Qed.

Lemma run_groupInvariant (stream : list File) (cs : list ErrFix.Choice)
    (s : ErrFix.St) :
  ErrFix.run process write cs (ErrFix.init stream) = Some s ->
  groupInvariant process write s.
Proof.
  assert (groupInvariant process write (ErrFix.init stream)) as Hinit.
  { unfold groupInvariant, ErrFix.init, ErrFix.limit. cbn.
    split; [lia|]. split; [done|]. split; [done|]. split; [|done].
    intros f r Hin. by apply elem_of_nil in Hin. }
  assert (ErrFix.errCh (ErrFix.init stream) = []) as He by done.
  revert Hinit He. generalize (ErrFix.init stream).
  induction cs as [|c cs IH]; intros s0; simpl.
  - by intros ? ? [= ->].
  - destruct (ErrFix.step process write c s0) as [s1|] eqn:E; simpl;
      [|discriminate].
    intros Hi He Hr. apply (IH s1); [| |exact Hr].
    + by apply (step_groupInvariant c s0).
    + by apply (step_errCh process write c s0).
Qed.

(** X15.  At no moment of a run of [ErrFix.Process] are more than eight
    files being processed, whatever the scheduler does. *)
Theorem Process_runs_at_most_eight_units (stream : list File)
    (cs : list ErrFix.Choice) (s : ErrFix.St) :
  ErrFix.run process write cs (ErrFix.init stream) = Some s ->
  length (ErrFix.running s) <= 8.
Proof. intros Hrun. by destruct (run_groupInvariant stream cs s Hrun). Qed.

(** X16.  What [ErrFix.Process] returns once the reader has given it a
    channel: the error of the unit that was the first to settle with an
    error, in the order in which the units settled, and nil if no unit
    settled with one. *)
Theorem Process_returns_first_failure (stream : list File)
    (cs : list ErrFix.Choice) (s : ErrFix.St) (r : option error) :
  ErrFix.run process write cs (ErrFix.init stream) = Some s ->
  ErrFix.phase s = ErrFix.Returned r ->
  r = firstFailure (ErrFix.log s).
Proof.
  intros Hrun Hph.
  destruct (run_groupInvariant stream cs s Hrun) as (_ & Hg & _ & _ & Hret).
  destruct (Hret r Hph) as [-> _]. exact Hg.
Qed.

(** X17.  When [ErrFix.Process] returns after the reader has given it a
    channel, every file sent on the channel has been handled exactly
    once, also the files sent after a unit has failed: the files of the
    settled units are a rearrangement of the stream, no unit is left
    running, and each unit settled with what [fn] returns on its file. *)
Theorem Process_settles_every_file (stream : list File)
    (cs : list ErrFix.Choice) (s : ErrFix.St) (r : option error) :
  ErrFix.run process write cs (ErrFix.init stream) = Some s ->
  ErrFix.phase s = ErrFix.Returned r ->
  settledFiles (ErrFix.log s) ≡ₚ stream /\
  ErrFix.running s = [] /\
  (forall f e, ErrFix.Settled f e ∈ ErrFix.log s ->
               e = ErrFix.fn process write f).
Proof.
  intros Hrun Hph.
  destruct (run_groupInvariant stream cs s Hrun)
    as (_ & _ & Hperm & Hfn & Hret).
  destruct (Hret r Hph) as [_ Hnil].
  rewrite Hnil, app_nil_r in Hperm.
  rewrite (run_starts_whole_stream process write stream cs s r Hrun Hph)
    in Hperm.
  split; [by symmetry|]. split; [exact Hnil | exact Hfn].
Qed.
End GroupProperties.

(** A run on an unreadable file followed by a readable one in which the
    second unit settles first. *)
Lemma Process_runs_at_most_eight_units_witness :
  length
    (ErrFix.running
       {| ErrFix.ch := []; ErrFix.errCh := [];
          ErrFix.running := [unreadableFile; readableFile];
          ErrFix.groupErr := None; ErrFix.phase := ErrFix.InLoop;
          ErrFix.log := [ErrFix.Started readableFile;
                         ErrFix.Started unreadableFile] |}) <= 8.
Proof.
  apply (Process_runs_at_most_eight_units (fun f => inl f)
           (fun _ _ => None) [unreadableFile; readableFile]
           [ErrFix.Receive; ErrFix.Receive]).
  reflexivity.
Defined.

Lemma Process_returns_first_failure_witness :
  Some readFailure = firstFailure (ErrFix.log settledOutOfOrder).
Proof.
  apply (Process_returns_first_failure (fun f => inl f) (fun _ _ => None)
           [unreadableFile; readableFile]
           [ErrFix.Receive; ErrFix.Receive; ErrFix.Finish 1; ErrFix.Finish 0;
            ErrFix.Closed; ErrFix.Return]
           settledOutOfOrder);
    reflexivity.
Defined.

Lemma Process_settles_every_file_witness :
  settledFiles (ErrFix.log settledOutOfOrder)
  ≡ₚ [unreadableFile; readableFile] /\
  ErrFix.running settledOutOfOrder = [] /\
  (forall f e,
      ErrFix.Settled f e ∈ ErrFix.log settledOutOfOrder ->
      e = ErrFix.fn (fun f => inl f) (fun _ _ => None) f).
Proof.
  apply (Process_settles_every_file (fun f => inl f) (fun _ _ => None)
           [unreadableFile; readableFile]
           [ErrFix.Receive; ErrFix.Receive; ErrFix.Finish 1; ErrFix.Finish 0;
            ErrFix.Closed; ErrFix.Return]
           settledOutOfOrder (Some readFailure));
    reflexivity.
Defined.

(** * Properties of the diff writer *)

Ltac no_write :=
  let Hin := fresh "Hin" in
  split; [done|]; split; [done|]; intros ? ? Hin;
  by apply elem_of_nil in Hin.

Section WriterProperties.
Context `{difflib.Difflib}.

Lemma Write_cases (o : os.Os) (w : DiffWriter.T) (f f2 : File) :
  DiffWriter.write (DiffWriter.Write o w f f2).1.1 = DiffWriter.write w /\
  DiffWriter.buf (DiffWriter.Write o w f f2).1.1
  = DiffWriter.buf w ++ DiffWriter.appended (o, f, f2) /\
  forall name content,
    (name, content) ∈ (DiffWriter.Write o w f f2).1.2 ->
    DiffWriter.write w = true /\ name = Name f /\ content = Content f2 /\
    DiffWriter.appended (o, f, f2) <> "" /\
    os.Stat o (Name f) = inl {| reader.IsDir := false |}.
Proof.
  unfold DiffWriter.Write, DiffWriter.appended. cbn [fst snd].
  destruct (difflib.GetUnifiedDiffString (DiffWriter.unifiedDiff f f2))
    as [text|err].
  - destruct (String.eqb text "") eqn:Et; cbn [negb andb]; [no_write|].
    destruct (DiffWriter.write w) eqn:Ew; [|no_write].
    destruct (os.Stat o (Name f)) as [[[|]]|e]; cbn [negb reader.IsDir];
      [no_write | | no_write].
    split; [done|]. split; [done|]. intros name content Hin.
    apply list_elem_of_singleton in Hin. injection Hin as -> ->.
    split; [done|]. split; [done|]. split; [done|]. split; [|done].
    intros ->. discriminate.
  - split; [done|]. split.
    + clear. cbn [fst].
      induction (DiffWriter.buf w) as [|c s IH]; simpl; congruence.
    + intros ? ? Hin. by apply elem_of_nil in Hin.
Qed.

Lemma Writes_cons (w : DiffWriter.T) (o : os.Os) (f f2 : File)
    (rest : list (os.Os * File * File)) :
  DiffWriter.Writes w ((o, f, f2) :: rest)
  = (((DiffWriter.Writes (DiffWriter.Write o w f f2).1.1 rest).1.1,
      ((DiffWriter.Write o w f f2).1.2 ++
       (DiffWriter.Writes (DiffWriter.Write o w f f2).1.1 rest).1.2)%list),
     (DiffWriter.Write o w f f2).2
     :: (DiffWriter.Writes (DiffWriter.Write o w f f2).1.1 rest).2).
Proof.
  simpl. destruct (DiffWriter.Write o w f f2) as [[w1 c1] e1]. simpl.
  by destruct (DiffWriter.Writes w1 rest) as [[w2 c2] e2].
Qed.

(** X18.  The buffer of a diff writer only grows.  After any sequence of
    calls of [Write], [DiffString] is what it was before, followed by the
    diff texts of the calls in the order in which they appended; a call
    whose diff could not be generated appends nothing.  This does not
    depend on the flag of the writer nor on the file system, and the flag
    is never changed. *)
Theorem DiffString_accumulates (w : DiffWriter.T)
    (calls : list (os.Os * File * File)) :
  DiffWriter.DiffString (DiffWriter.Writes w calls).1.1
  = DiffWriter.DiffString w
    ++ String.concat "" (DiffWriter.appended <$> calls) /\
  DiffWriter.write (DiffWriter.Writes w calls).1.1 = DiffWriter.write w.
Proof.
  unfold DiffWriter.DiffString. revert w.
  induction calls as [|[[o f] f2] calls IH]; intros w.
  - simpl. split; [|done].
    induction (DiffWriter.buf w) as [|c s IHs]; simpl; congruence.
  - rewrite Writes_cons. cbn [fst snd].
    destruct (IH (DiffWriter.Write o w f f2).1.1) as [-> ->].
    destruct (Write_cases o w f f2) as (-> & -> & _).
    split; [|done]. rewrite append_assoc. f_equal. csimpl.
    destruct calls; simpl; [|done].
    induction (DiffWriter.appended (o, f, f2)) as [|c s IHs]; simpl;
      congruence.
Qed.

(** X19.  A diff writer overwrites only what it was asked to.  In any
    sequence of calls of [Write], every call of [os.WriteFile] is made by
    a writer created with the flag set, for a pair of files whose diff is
    not empty, on the name of the old file of the pair, which
    [os.Stat] reports as existing and not a directory, and with the
    content of the new file.  A writer created without the flag writes no
    file. *)
Theorem Write_overwrites_changed_sources (w : DiffWriter.T)
    (calls : list (os.Os * File * File)) (name content : string) :
  (name, content) ∈ (DiffWriter.Writes w calls).1.2 ->
  DiffWriter.write w = true /\
  exists o f f2,
    (o, f, f2) ∈ calls /\ name = Name f /\ content = Content f2 /\
    DiffWriter.appended (o, f, f2) <> "" /\
    os.Stat o (Name f) = inl {| reader.IsDir := false |}.
Proof.
  revert w. induction calls as [|[[o f] f2] calls IH]; intros w.
  - simpl. intros Hin. by apply elem_of_nil in Hin.
  - rewrite Writes_cons. cbn [fst snd]. intros Hin.
    destruct (Write_cases o w f f2) as (Hflag & _ & Hw).
    apply elem_of_app in Hin as [Hin | Hin].
    + destruct (Hw _ _ Hin) as (Ew & -> & -> & Ht & Hs).
      split; [exact Ew|]. exists o, f, f2.
      split; [apply elem_of_cons; by left|]. done.
    + destruct (IH _ Hin) as (Ew & o' & f' & f2' & Hin' & Hrest).
      split; [by rewrite <- Hflag|]. exists o', f', f2'.
      split; [apply elem_of_cons; by right | exact Hrest].
Qed.
End WriterProperties.

(** The file [b.go] rewritten, after a file read from standard input. *)
Lemma Write_overwrites_changed_sources_witness :
  DiffWriter.write (NewDiffWriter true) = true /\
  exists o f f2,
    (o, f, f2)
    ∈ [(sampleOs,
        {| Name := "io.Reader"; Content := "package a" ++ nl;
           Error := None |},
        {| Name := "io.Reader"; Content := "package A" ++ nl;
           Error := None |});
       (sampleOs, readableFile,
        {| Name := "b.go"; Content := "package b2" ++ nl;
           Error := None |})] /\
    "b.go" = Name f /\ ("package b2" ++ nl) = Content f2 /\
    @DiffWriter.appended sampleDifflib (o, f, f2) <> "" /\
    os.Stat o (Name f) = inl {| reader.IsDir := false |}.
Proof.
  apply (@Write_overwrites_changed_sources sampleDifflib (NewDiffWriter true)).
  vm_compute. apply list_elem_of_singleton. reflexivity.
Defined.

(** * The short name of an import *)

Lemma lastSlash_None (s : string) :
  strings.contains s path.slash = false -> path.lastSlash s = None.
Proof.
  induction s as [|c s IH]; cbn [strings.contains path.lastSlash]; [done|].
  intros E. apply orb_false_iff in E as [Hc Hs].
  rewrite (IH Hs). rewrite Ascii.eqb_sym in Hc. by rewrite Hc.
Qed.

Lemma lastSlash_app (dir base : string) :
  strings.contains base path.slash = false ->
  path.lastSlash (dir ++ String path.slash base)
  = Some (String.length dir).
Proof.
  intros Hb. induction dir as [|c dir IH].
  - cbn [append path.lastSlash].
    by rewrite (lastSlash_None base Hb), Ascii.eqb_refl.
  - cbn [append path.lastSlash]. by rewrite IH.
Qed.

Section ImportNames.
Context `{strconv.Strconv}.

(** X20.  [importName] gives the name under which a file refers to an
    imported package: the name of the spec if it has one, whatever the
    path; otherwise the last element of the unquoted path, that is what
    follows its last slash, and the whole path if it has no slash.  So the
    spec [EndProcess] writes, without a name and with the quoted path
    [github.com/pkg/errors], is known as [errors], the identifier the
    rules put into the tree. *)
Theorem importName_is_last_element (Path : dst.BasicLit) :
  (forall id, importName (Some id) Path = dst.Name id) /\
  (forall dir base,
      importPath Path = dir ++ "/" ++ base ->
      strings.contains base path.slash = false ->
      importName None Path = base) /\
  (strings.contains (importPath Path) path.slash = false ->
   importName None Path = importPath Path) /\
  (strconv.Unquote (strconv.Quote (pkgPath newPkgErrorsDstProcessor))
   = Some (pkgPath newPkgErrorsDstProcessor) ->
   forall s,
     isImportSpec s = true ->
     match retarget (strconv.Quote (pkgPath newPkgErrorsDstProcessor)) s with
     | dst.ImportSpec Name Path' =>
         importName Name Path' = errorsIdent newPkgErrorsDstProcessor
     | _ => False
     end).
Proof.
  split; [done|]. split; [|split].
  - intros dir base HP Hb. unfold importName, path.Split. rewrite HP.
    change (dir ++ "/" ++ base) with (dir ++ String path.slash base).
    rewrite (lastSlash_app dir base Hb). cbn [snd].
    change (dir ++ String path.slash base) with (dir ++ "/" ++ base).
    rewrite <- append_assoc, length_append.
    replace (S (String.length dir)) with (String.length (dir ++ "/"))
      by (rewrite length_append; simpl; lia).
    replace (String.length (dir ++ "/") + String.length base
             - String.length (dir ++ "/"))
      with (String.length base) by lia.
    apply substring_suffix.
  - intros Hp. unfold importName, path.Split.
    by rewrite (lastSlash_None _ Hp).
  - intros HQ s Hs. destruct s as [Name Path'| |]; try discriminate.
    cbn [retarget]. unfold importName, importPath. cbn [dst.Value].
    rewrite HQ. reflexivity.
Qed.
End ImportNames.

(** The import [stderrors "errors"] that [EndProcess] retargets. *)
Lemma importName_is_last_element_witness :
  match retarget (@strconv.Quote plainStrconv
                    (pkgPath newPkgErrorsDstProcessor))
          (dst.ImportSpec (Some (dst.NewIdent "stderrors"))
                          (plainLit "errors")) with
  | dst.ImportSpec Name Path' =>
      @importName plainStrconv Name Path'
      = errorsIdent newPkgErrorsDstProcessor
  | _ => False
  end.
Proof.
  apply (proj2 (proj2 (proj2 (@importName_is_last_element plainStrconv
                                (plainLit "errors"))))); reflexivity.
Defined.
